(** * tsqueue: a bounded single-producer / multi-consumer batch queue

    Shallow embedding of [src/tsqueue.c] (with the declarations of
    [src/tsqueue.h]) and the properties of its specification.

    Modelling choices.
    - [size_t] is a 64-bit unsigned integer: a [Z] in [0, 2^64) whose
      arithmetic wraps ([SizeT.add], [SizeT.sub], [SizeT.mul]).
    - The backing store is the list of its bytes; [memcpy] and [memmove]
      are written on lists.
    - Every function of the queue runs with [queue->lock] held, except
      while it sleeps in [pthread_cond_wait].  A call is therefore a
      sequence of atomic segments: the first one starts at
      [pthread_mutex_lock] ([enter]), every further one starts when the
      thread wakes up inside a [while] loop and tests the loop condition
      again ([resume]).  A segment ends either at the [return]
      ([Ret]) or at the next [pthread_cond_wait] ([Wait]).
    - [pthread_cond_signal] calls are recorded, in order, in the list of
      signals of the segment.  A sleeping thread may be woken at any time
      (POSIX allows spurious wake-ups), so the interleaving semantics
      [sys_step] lets any blocked call resume. *)

From Stdlib Require Import ZArith List Bool Lia.
From Stdlib.Strings Require Import Byte.
Import ListNotations.
Local Open Scope Z_scope.

(** ** [size_t] arithmetic *)

Module SizeT.

Definition bits : Z := 64.
Definition modulus : Z := 2 ^ bits.
Definition wrap (z : Z) : Z := z mod modulus.

Definition add (a b : Z) : Z := wrap (a + b).
Definition sub (a b : Z) : Z := wrap (a - b).
Definition mul (a b : Z) : Z := wrap (a * b).

Definition in_range (z : Z) : Prop := 0 <= z < modulus.

End SizeT.

(** ** Error codes of [tsqueue.h] *)

Definition INT_MIN : Z := - 2 ^ 31.
Definition TSQUEUE_CLOSED : Z := INT_MIN.
Definition TSQUEUE_TOO_MANY : Z := INT_MIN + 1.
Definition TSQUEUE_SINGLE_PRODUCER : Z := INT_MIN + 2.

(** ** Memory *)

(** [memcpy (dst + off, src, len)]: the bytes of [dst] with [len] bytes of
    [src] written at offset [off].  In C the call is only defined when
    [off + len] is within [dst] and [len] within [src]; [put_in_bounds]
    and [pop_in_bounds] show that the queue stays within these bounds. *)
Definition memcpy (dst : list byte) (off : Z) (src : list byte) (len : Z)
  : list byte :=
  firstn (Z.to_nat off) dst
    ++ firstn (Z.to_nat len) src
    ++ skipn (Z.to_nat (off + len)) dst.

(** [memmove (dst, dst + off, len)]: the source region is read before
    anything is written. *)
Definition memmove_down (dst : list byte) (off : Z) (len : Z) : list byte :=
  memcpy dst 0 (skipn (Z.to_nat off) dst) len.

(** ** The queue *)

(** The three condition variables of [struct tsqueue]. *)
Inductive cond : Type :=
| producer_wakeup
| consumer_wakeup
| all_dead.

(** [struct tsqueue] without its pthread objects. *)
Record tsqueue : Type := mk_tsqueue {
  capacity : Z;
  used : Z;
  elem_size : Z;
  data : list byte;
  producer_n_elems : Z;
  n_consumers_waiting : Z;
  producers_done : bool;
  die : bool
}.

Definition set_used (q : tsqueue) (v : Z) : tsqueue :=
  mk_tsqueue (capacity q) v (elem_size q) (data q) (producer_n_elems q)
             (n_consumers_waiting q) (producers_done q) (die q).

Definition set_data (q : tsqueue) (v : list byte) : tsqueue :=
  mk_tsqueue (capacity q) (used q) (elem_size q) v (producer_n_elems q)
             (n_consumers_waiting q) (producers_done q) (die q).

Definition set_producer_n_elems (q : tsqueue) (v : Z) : tsqueue :=
  mk_tsqueue (capacity q) (used q) (elem_size q) (data q) v
             (n_consumers_waiting q) (producers_done q) (die q).

Definition set_n_consumers_waiting (q : tsqueue) (v : Z) : tsqueue :=
  mk_tsqueue (capacity q) (used q) (elem_size q) (data q) (producer_n_elems q)
             v (producers_done q) (die q).

Definition set_producers_done (q : tsqueue) (v : bool) : tsqueue :=
  mk_tsqueue (capacity q) (used q) (elem_size q) (data q) (producer_n_elems q)
             (n_consumers_waiting q) v (die q).

Definition set_die (q : tsqueue) (v : bool) : tsqueue :=
  mk_tsqueue (capacity q) (used q) (elem_size q) (data q) (producer_n_elems q)
             (n_consumers_waiting q) (producers_done q) v.

(** ** Atomic segments *)

(** How a segment ends: at the function's [return], or asleep on a
    condition variable.  [sigs] are the [pthread_cond_signal] calls made,
    in order. *)
Inductive outcome (A : Type) : Type :=
| Ret (q : tsqueue) (sigs : list cond) (a : A)
| Wait (q : tsqueue) (sigs : list cond) (c : cond).

Arguments Ret {A} q sigs a.
Arguments Wait {A} q sigs c.

(** Run the rest of the function after a callee that may have gone to
    sleep. *)
Definition and_then {A B : Type} (o : outcome A)
  (k : tsqueue -> A -> outcome B) : outcome B :=
  match o with
  | Ret q sigs a =>
      match k q a with
      | Ret q' sigs' b => Ret q' (sigs ++ sigs') b
      | Wait q' sigs' c => Wait q' (sigs ++ sigs') c
      end
  | Wait q sigs c => Wait q sigs c
  end.

Definition state_of {A : Type} (o : outcome A) : tsqueue :=
  match o with
  | Ret q _ _ => q
  | Wait q _ _ => q
  end.

Definition signals_of {A : Type} (o : outcome A) : list cond :=
  match o with
  | Ret _ sigs _ => sigs
  | Wait _ sigs _ => sigs
  end.

Definition blocks {A : Type} (o : outcome A) : bool :=
  match o with
  | Ret _ _ _ => false
  | Wait _ _ _ => true
  end.

(** *** [signal_if_all_dead] *)

Definition signal_if_all_dead (q : tsqueue) : list cond :=
  if (producer_n_elems q =? 0) && (n_consumers_waiting q =? 0)
  then [all_dead] else [].

(** *** [wait_for_space_internal] *)

(** Lines 335-341: the test of [queue->die] that ends the function. *)
Definition wait_for_space_exit (q : tsqueue) (retval : Z) : outcome Z :=
  if die q then Ret q (signal_if_all_dead q) TSQUEUE_CLOSED
  else Ret q [] retval.

(** Lines 328-332: the test of the [while] loop, reached with
    [producer_n_elems = n_elems], on entry and after every wake-up. *)
Definition wait_for_space_loop (q : tsqueue) (n_elems : Z) : outcome Z :=
  if negb (die q) && (SizeT.sub (capacity q) (used q) <? n_elems)
  then Wait q [] producer_wakeup
  else wait_for_space_exit (set_producer_n_elems q 0) 0.

Definition wait_for_space_internal (q : tsqueue) (n_elems : Z) : outcome Z :=
  let retval := 0 in
  let retval := if capacity q <? n_elems then TSQUEUE_TOO_MANY else retval in
  let retval :=
    if negb (producer_n_elems q =? 0) then TSQUEUE_SINGLE_PRODUCER
    else retval in
  if retval =? 0
  then wait_for_space_loop (set_producer_n_elems q n_elems) n_elems
  else wait_for_space_exit q retval.

(** *** [tsqueue_wait_for_space] *)

Definition tsqueue_wait_for_space (q : tsqueue) (n_elems : Z) : outcome Z :=
  wait_for_space_internal q n_elems.

Definition tsqueue_wait_for_space_resume (q : tsqueue) (n_elems : Z)
  : outcome Z :=
  wait_for_space_loop q n_elems.

(** *** [tsqueue_put] *)

(** Lines 224-238: what [tsqueue_put] does once
    [wait_for_space_internal] has returned [retval]. *)
Definition put_copy (n_elems : Z) (inp : list byte) (q : tsqueue) (retval : Z)
  : outcome Z :=
  if retval =? 0 then
    let d := memcpy (data q) (SizeT.mul (used q) (elem_size q))
                    inp (SizeT.mul n_elems (elem_size q)) in
    let sigs :=
      if negb (n_elems =? 0) && negb (n_consumers_waiting q =? 0)
      then [consumer_wakeup] else [] in
    Ret (set_used (set_data q d) (SizeT.add (used q) n_elems)) sigs retval
  else Ret q [] retval.

Definition tsqueue_put (q : tsqueue) (n_elems : Z) (inp : list byte)
  : outcome Z :=
  and_then (wait_for_space_internal q n_elems) (put_copy n_elems inp).

Definition tsqueue_put_resume (q : tsqueue) (n_elems : Z) (inp : list byte)
  : outcome Z :=
  and_then (wait_for_space_loop q n_elems) (put_copy n_elems inp).

(** *** [tsqueue_pop] *)

(** What [tsqueue_pop] gives back: the return value, [*n_elems] and the
    caller's buffer [out]. *)
Record pop_result : Type := mk_pop_result {
  pop_retval : Z;
  pop_n_elems : Z;
  pop_out : list byte
}.

(** Lines 262-295, reached with the value [retval] has after the wait. *)
Definition pop_exit (q : tsqueue) (retval : Z) (n_elems : Z) (out : list byte)
  : outcome pop_result :=
  let '(retval, n_elems, sigs0) :=
    if die q then (TSQUEUE_CLOSED, 0, signal_if_all_dead q)
    else (retval, n_elems, []) in
  if retval =? 0 then
    let n_elems := if used q <? n_elems then used q else n_elems in
    let out' := memcpy out 0 (data q) (SizeT.mul n_elems (elem_size q)) in
    let used' := SizeT.sub (used q) n_elems in
    let d := memmove_down (data q) (SizeT.mul n_elems (elem_size q))
                          (SizeT.mul used' (elem_size q)) in
    let q' := set_data (set_used q used') d in
    let sigs1 :=
      if negb (producer_n_elems q' =? 0)
         && (producer_n_elems q' <=? SizeT.sub (capacity q') (used q'))
      then [producer_wakeup] else [] in
    let sigs2 :=
      if negb (used q' =? 0) && negb (n_consumers_waiting q' =? 0)
      then [consumer_wakeup] else [] in
    Ret q' (sigs0 ++ sigs1 ++ sigs2) (mk_pop_result retval n_elems out')
  else Ret q sigs0 (mk_pop_result retval n_elems out).

(** Lines 255-259: the test of the [while] loop, reached with the caller
    counted in [n_consumers_waiting], on entry and after every wake-up. *)
Definition pop_loop (q : tsqueue) (n_elems : Z) (out : list byte)
  : outcome pop_result :=
  if negb (producers_done q) && negb (die q) && (used q <? n_elems)
  then Wait q [] consumer_wakeup
  else
    pop_exit (set_n_consumers_waiting q (SizeT.sub (n_consumers_waiting q) 1))
             0 n_elems out.

Definition tsqueue_pop (q : tsqueue) (n_elems : Z) (out : list byte)
  : outcome pop_result :=
  let retval := if capacity q <? n_elems then TSQUEUE_TOO_MANY else 0 in
  if retval =? 0
  then pop_loop
         (set_n_consumers_waiting q (SizeT.add (n_consumers_waiting q) 1))
         n_elems out
  else pop_exit q retval n_elems out.

Definition tsqueue_pop_resume (q : tsqueue) (n_elems : Z) (out : list byte)
  : outcome pop_result :=
  pop_loop q n_elems out.

(** *** [tsqueue_set_done] *)

Definition tsqueue_set_done (q : tsqueue) (done : bool) : outcome unit :=
  let q' := set_producers_done q done in
  Ret q' (repeat consumer_wakeup (Z.to_nat (n_consumers_waiting q'))) tt.

(** *** [tsqueue_capacity] *)

Definition tsqueue_capacity (q : tsqueue) : outcome Z :=
  Ret q [] (capacity q).

(** *** [tsqueue_close] *)

(** Lines 176-181: the test of the [while] loop on [all_dead]. *)
Definition close_loop (q : tsqueue) : outcome unit :=
  if negb (producer_n_elems q =? 0) && negb (n_consumers_waiting q =? 0)
  then Wait q [] all_dead
  else Ret q [] tt.

Definition tsqueue_close (q : tsqueue) : outcome unit :=
  let q := set_die q true in
  let sigs1 :=
    if negb (producer_n_elems q =? 0) then [producer_wakeup] else [] in
  let sigs2 := repeat consumer_wakeup (Z.to_nat (n_consumers_waiting q)) in
  and_then (Ret q (sigs1 ++ sigs2) tt) (fun q _ => close_loop q).

Definition tsqueue_close_resume (q : tsqueue) : outcome unit :=
  close_loop q.

(** ** Operating-system resources *)

(** The pthread objects embedded in [struct tsqueue], the two memory
    blocks in play, and what [tsqueue_create] and [tsqueue_destroy] do to
    them. *)
Inductive pthread_obj : Type :=
| obj_lock
| obj_cond (c : cond).

Inductive block : Type :=
| queue_struct
| backing_store.

Inductive os_event : Type :=
| OsMalloc (b : block)
| OsFree (b : block)
| OsInit (o : pthread_obj)
| OsDestroy (o : pthread_obj).

Definition pthread_obj_eqb (a b : pthread_obj) : bool :=
  match a, b with
  | obj_lock, obj_lock => true
  | obj_cond producer_wakeup, obj_cond producer_wakeup => true
  | obj_cond consumer_wakeup, obj_cond consumer_wakeup => true
  | obj_cond all_dead, obj_cond all_dead => true
  | _, _ => false
  end.

Definition block_eqb (a b : block) : bool :=
  match a, b with
  | queue_struct, queue_struct => true
  | backing_store, backing_store => true
  | _, _ => false
  end.

(** The pthread objects that are initialised and not destroyed at the end
    of a trace. *)
Fixpoint live_objects (acc : list pthread_obj) (tr : list os_event)
  : list pthread_obj :=
  match tr with
  | [] => acc
  | OsInit o :: tr => live_objects (acc ++ [o]) tr
  | OsDestroy o :: tr =>
      live_objects (filter (fun o' => negb (pthread_obj_eqb o o')) acc) tr
  | _ :: tr => live_objects acc tr
  end.

(** The blocks freed in a trace. *)
Definition freed (b : block) (tr : list os_event) : bool :=
  existsb (fun e => match e with OsFree b' => block_eqb b b' | _ => false end)
          tr.

(** *** [tsqueue_create] *)

(** What the C library answers during one call of [tsqueue_create]. *)
Record os_env : Type := mk_os_env {
  malloc_ok : bool;
  errno_val : Z;
  mutex_init_ret : Z;
  cond_init_ret : cond -> Z
}.

Record create_state : Type := mk_create_state {
  cs_retval : Z;
  cs_steps_done : Z;
  cs_trace : list os_event
}.

(** One [if (retval == 0) { steps_done = k; retval = pthread_*_init (...); }]
    block of lines 106-127. *)
Definition init_block (k : Z) (o : pthread_obj) (ret : Z) (s : create_state)
  : create_state :=
  if cs_retval s =? 0 then
    mk_create_state ret k
      (cs_trace s ++ (if ret =? 0 then [OsInit o] else []))
  else s.

(** The [switch (steps_done)] of lines 136-152, with its fall-throughs. *)
Definition create_cleanup (steps_done : Z) : list os_event :=
  match steps_done with
  | 4 => [OsDestroy (obj_cond all_dead); OsDestroy (obj_cond consumer_wakeup);
          OsDestroy (obj_cond producer_wakeup); OsDestroy obj_lock]
  | 3 => [OsDestroy (obj_cond consumer_wakeup);
          OsDestroy (obj_cond producer_wakeup); OsDestroy obj_lock]
  | 2 => [OsDestroy (obj_cond producer_wakeup); OsDestroy obj_lock]
  | 1 => [OsDestroy obj_lock]
  | _ => []
  end.

Inductive create_result : Type :=
| CreateNullDeref
    (** a store through a NULL pointer: undefined behaviour *)
| CreateRet (retval : Z) (q : option tsqueue) (tr : list os_event).

(** [queue_is_null] says whether the parameter [queue] (the address of
    the caller's handle) is NULL. *)
Definition tsqueue_create (env : os_env) (queue_is_null : bool)
  (data : list byte) (capacity elem_size used : Z) : create_result :=
  (* line 90: the result of malloc is stored in the caller's handle *)
  if queue_is_null then CreateNullDeref else
  let tr := if malloc_ok env then [OsMalloc queue_struct] else [] in
  (* lines 92-94: if [queue] is NULL then retval = errno *)
  let retval := if queue_is_null then errno_val env else 0 in
  (* lines 96-103: the fields are stored in the allocated struct *)
  if (retval =? 0) && negb (malloc_ok env) then CreateNullDeref else
  let q := mk_tsqueue capacity used elem_size data 0 0 false false in
  (* lines 105-132 *)
  let s := mk_create_state retval 0 tr in
  let s := init_block 0 obj_lock (mutex_init_ret env) s in
  let s := init_block 1 (obj_cond producer_wakeup)
                      (cond_init_ret env producer_wakeup) s in
  let s := init_block 2 (obj_cond consumer_wakeup)
                      (cond_init_ret env consumer_wakeup) s in
  let s := init_block 3 (obj_cond all_dead)
                      (cond_init_ret env all_dead) s in
  let s := if cs_retval s =? 0
           then mk_create_state (cs_retval s) 4 (cs_trace s) else s in
  (* lines 134-157 *)
  if negb (cs_retval s =? 0) then
    CreateRet (cs_retval s) None
      (cs_trace s ++ create_cleanup (cs_steps_done s) ++ [OsFree queue_struct])
  else CreateRet (cs_retval s) (Some q) (cs_trace s).

(** An environment in which every allocation succeeds. *)
Definition os_all_ok : os_env := mk_os_env true 0 0 (fun _ => 0).

(** *** [tsqueue_destroy] *)

Record destroy_result : Type := mk_destroy_result {
  leftover : Z;
  destroy_trace : list os_event
}.

(** Lines 188-197, after [tsqueue_close] has returned; [used] is taken
    non-NULL. *)
Definition destroy_release (q : tsqueue) (_ : unit) : outcome destroy_result :=
  Ret q []
    (mk_destroy_result (used q)
       [OsDestroy obj_lock; OsDestroy (obj_cond producer_wakeup);
        OsDestroy (obj_cond consumer_wakeup); OsDestroy (obj_cond all_dead);
        OsFree queue_struct]).

Definition tsqueue_destroy (q : tsqueue) : outcome destroy_result :=
  and_then (tsqueue_close q) destroy_release.

Definition tsqueue_destroy_resume (q : tsqueue) : outcome destroy_result :=
  and_then (tsqueue_close_resume q) destroy_release.

(** ** Calls and their interleavings *)

Inductive call : Type :=
| call_capacity
| call_wait_for_space (n_elems : Z)
| call_put (n_elems : Z) (inp : list byte)
| call_pop (n_elems : Z) (out : list byte)
| call_set_done (done : bool)
| call_close
| call_destroy.

Inductive result : Type :=
| res_capacity (c : Z)
| res_status (retval : Z)
| res_pop (r : pop_result)
| res_void
| res_destroy (r : destroy_result).

Definition map_outcome {A B : Type} (f : A -> B) (o : outcome A) : outcome B :=
  match o with
  | Ret q sigs a => Ret q sigs (f a)
  | Wait q sigs c => Wait q sigs c
  end.

(** The first segment of a call, from [pthread_mutex_lock]. *)
Definition enter (c : call) (q : tsqueue) : outcome result :=
  match c with
  | call_capacity => map_outcome res_capacity (tsqueue_capacity q)
  | call_wait_for_space n => map_outcome res_status (tsqueue_wait_for_space q n)
  | call_put n inp => map_outcome res_status (tsqueue_put q n inp)
  | call_pop n out => map_outcome res_pop (tsqueue_pop q n out)
  | call_set_done b => map_outcome (fun _ => res_void) (tsqueue_set_done q b)
  | call_close => map_outcome (fun _ => res_void) (tsqueue_close q)
  | call_destroy => map_outcome res_destroy (tsqueue_destroy q)
  end.

(** The segment a sleeping call runs when it wakes up.  [tsqueue_capacity]
    and [tsqueue_set_done] never sleep. *)
Definition resume (c : call) (q : tsqueue) : outcome result :=
  match c with
  | call_capacity => map_outcome res_capacity (tsqueue_capacity q)
  | call_wait_for_space n =>
      map_outcome res_status (tsqueue_wait_for_space_resume q n)
  | call_put n inp => map_outcome res_status (tsqueue_put_resume q n inp)
  | call_pop n out => map_outcome res_pop (tsqueue_pop_resume q n out)
  | call_set_done b => map_outcome (fun _ => res_void) (tsqueue_set_done q b)
  | call_close => map_outcome (fun _ => res_void) (tsqueue_close_resume q)
  | call_destroy => map_outcome res_destroy (tsqueue_destroy_resume q)
  end.

(** The arguments of a call have the types of [tsqueue.h]: counts are
    [size_t] values, and the caller's arrays hold [n_elems] elements. *)
Definition call_ok (es : Z) (c : call) : Prop :=
  match c with
  | call_wait_for_space n => SizeT.in_range n
  | call_put n inp => SizeT.in_range n /\ n * es <= Z.of_nat (length inp)
  | call_pop n out => SizeT.in_range n /\ n * es <= Z.of_nat (length out)
  | _ => True
  end.

Definition is_destroy (c : call) : bool :=
  match c with call_destroy => true | _ => false end.

(** The queue, the calls asleep inside it, and whether it has been
    destroyed. *)
Record system : Type := mk_system {
  sys_queue : tsqueue;
  sys_blocked : list call;
  sys_destroyed : bool
}.

Inductive event : Type :=
| ev_return (c : call) (r : result)
| ev_block (c : call).

(** One atomic segment of one thread.  Nothing may touch a destroyed
    queue. *)
Inductive sys_step : system -> event -> system -> Prop :=
| step_call_return q pool c q' sigs r :
    call_ok (elem_size q) c ->
    enter c q = Ret q' sigs r ->
    sys_step (mk_system q pool false) (ev_return c r)
             (mk_system q' pool (is_destroy c))
| step_call_block q pool c q' sigs cv :
    call_ok (elem_size q) c ->
    enter c q = Wait q' sigs cv ->
    sys_step (mk_system q pool false) (ev_block c)
             (mk_system q' (c :: pool) false)
| step_wake_return q pool1 c pool2 q' sigs r :
    resume c q = Ret q' sigs r ->
    sys_step (mk_system q (pool1 ++ c :: pool2) false) (ev_return c r)
             (mk_system q' (pool1 ++ pool2) (is_destroy c))
| step_wake_block q pool1 c pool2 q' sigs cv :
    resume c q = Wait q' sigs cv ->
    sys_step (mk_system q (pool1 ++ c :: pool2) false) (ev_block c)
             (mk_system q' (pool1 ++ c :: pool2) false).

Inductive sys_run : system -> list event -> system -> Prop :=
| run_nil s : sys_run s [] s
| run_snoc s evs s1 ev s2 :
    sys_run s evs s1 -> sys_step s1 ev s2 -> sys_run s (evs ++ [ev]) s2.

(** The system right after a successful [tsqueue_create]. *)
Definition created (data : list byte) (capacity elem_size used : Z) : system :=
  mk_system (mk_tsqueue capacity used elem_size data 0 0 false false) [] false.

(** ** Definitions used in the statements *)

(** A queue of capacity 4 with one-byte elements, and a consumer's buffer. *)
Definition store4 : list byte := [x00; x00; x00; x00].
Definition buf3 : list byte := [x00; x00; x00].

(** The value [wait_for_space_internal] returns when it does not wait for
    lack of room: the three tests are made in the order of the code, each
    one overwriting [retval]. *)
Definition rejected_with (q : tsqueue) : Z :=
  if die q then TSQUEUE_CLOSED
  else if negb (producer_n_elems q =? 0) then TSQUEUE_SINGLE_PRODUCER
  else TSQUEUE_TOO_MANY.

(** The queue of [created store4 4 1 0] after [tsqueue_close]. *)
Definition closed_queue : tsqueue :=
  state_of (tsqueue_close (sys_queue (created store4 4 1 0))).

(** A full queue of capacity 4 in which a producer sleeps in
    [tsqueue_put] of two elements. *)
Definition pending_queue : tsqueue :=
  state_of (tsqueue_put (sys_queue (created store4 4 1 4)) 2 [x01; x02]).

Definition all_objects : list pthread_obj :=
  [obj_lock; obj_cond producer_wakeup; obj_cond consumer_wakeup;
   obj_cond all_dead].

(** The return value of [tsqueue_create] when [malloc] succeeds: the
    first non-zero answer of the four initialisations, if any. *)
Definition first_init_error (env : os_env) : Z :=
  if negb (mutex_init_ret env =? 0) then mutex_init_ret env
  else if negb (cond_init_ret env producer_wakeup =? 0)
       then cond_init_ret env producer_wakeup
  else if negb (cond_init_ret env consumer_wakeup =? 0)
       then cond_init_ret env consumer_wakeup
  else cond_init_ret env all_dead.

(** The number of bytes of [n] elements. *)
Definition bytes_of (es n : Z) : nat := Z.to_nat (n * es).

(** The elements in the queue, first to be popped first: the first
    [used] elements of the backing store. *)
Definition contents (q : tsqueue) : list byte :=
  firstn (bytes_of (elem_size q) (used q)) (data q).

(** The backing store is an array of [capacity] elements of [elem_size]
    bytes that exists in memory, of which [used <= capacity] are valid. *)
Record wf_store (q : tsqueue) : Prop := mk_wf_store {
  wf_elem_size : 0 <= elem_size q;
  wf_used : 0 <= used q <= capacity q;
  wf_capacity : capacity q < SizeT.modulus;
  wf_bytes : capacity q * elem_size q < SizeT.modulus;
  wf_length : Z.of_nat (length (data q)) = capacity q * elem_size q
}.

(** Two states with the same store: only counters and flags differ. *)
Definition same_store (q q' : tsqueue) : Prop :=
  capacity q' = capacity q /\ elem_size q' = elem_size q
  /\ used q' = used q /\ data q' = data q.

(** The elements a call has taken out of / put into the queue when it
    returns [r]. *)
Definition popped (es : Z) (c : call) (r : result) : list byte :=
  match c, r with
  | call_pop _ _, res_pop r =>
      if pop_retval r =? 0
      then firstn (bytes_of es (pop_n_elems r)) (pop_out r) else []
  | _, _ => []
  end.

Definition inserted (es : Z) (c : call) (r : result) : list byte :=
  match c, r with
  | call_put n inp, res_status retval =>
      if retval =? 0 then firstn (bytes_of es n) inp else []
  | _, _ => []
  end.

(** What [wait_for_space_internal] guarantees to its caller, whichever
    segment it ends in. *)
Definition space_outcome (q : tsqueue) (n : Z) (o : outcome Z) : Prop :=
  match o with
  | Wait q' _ _ => same_store q q' /\ die q' = die q /\ die q = false
  | Ret q' _ retval =>
      same_store q q' /\ die q' = die q
      /\ (die q = true -> retval = TSQUEUE_CLOSED)
      /\ (retval = 0 -> n <= SizeT.sub (capacity q) (used q))
  end.

(** All the elements taken out of / put into the queue by the calls that
    have returned, in the order of their returns. *)
Definition all_popped (es : Z) (evs : list event) : list byte :=
  flat_map (fun ev => match ev with
                      | ev_return c r => popped es c r
                      | ev_block _ => []
                      end) evs.

Definition all_inserted (es : Z) (evs : list event) : list byte :=
  flat_map (fun ev => match ev with
                      | ev_return c r => inserted es c r
                      | ev_block _ => []
                      end) evs.

Definition wf_system (s : system) : Prop :=
  wf_store (sys_queue s)
  /\ Forall (call_ok (elem_size (sys_queue s))) (sys_blocked s).

(** What a call is answered on a closing queue. *)
Definition closed_answer (c : call) (r : result) : Prop :=
  match c with
  | call_pop n out => r = res_pop (mk_pop_result TSQUEUE_CLOSED 0 out)
  | call_put _ _ => r = res_status TSQUEUE_CLOSED
  | call_wait_for_space _ => r = res_status TSQUEUE_CLOSED
  | _ => True
  end.

(** On a closing queue only [tsqueue_close] and [tsqueue_destroy] may
    sleep; every other call returns, with a [closed_answer]. *)
Definition closed_event (ev : event) : Prop :=
  match ev with
  | ev_return c r => closed_answer c r
  | ev_block c => c = call_close \/ c = call_destroy
  end.

(** The queue of the scenario after [put ([a, b])] and [set_done (true)],
    with [a = 0x61] and [b = 0x62]. *)
Definition drained_queue : tsqueue :=
  state_of
    (tsqueue_set_done
       (state_of
          (tsqueue_put (sys_queue (created [x00; x00; x00; x00; x00] 5 1 0))
                       2 [x61; x62]))
       true).

(** What [tsqueue_destroy] releases: the four pthread objects and the
    struct. *)
Definition destroy_events : list os_event :=
  [OsDestroy obj_lock; OsDestroy (obj_cond producer_wakeup);
   OsDestroy (obj_cond consumer_wakeup); OsDestroy (obj_cond all_dead);
   OsFree queue_struct].

(** The queue of the scenario after [put ([x, y])] and [pop (1)], with
    [x = 0x78] and [y = 0x79]. *)
Definition remainder_queue : tsqueue :=
  state_of
    (tsqueue_pop
       (state_of (tsqueue_put (sys_queue (created store4 4 1 0)) 2 [x78; x79]))
       1 [x00]).

(** ** Definitions used in the statements about sleeping calls *)

(** The calls of the consumer side and of the producer side. *)
Definition is_pop (c : call) : bool :=
  match c with call_pop _ _ => true | _ => false end.

(** The number of elements a producer-side call asks room for. *)
Definition producer_request (c : call) : option Z :=
  match c with
  | call_wait_for_space n => Some n
  | call_put n _ => Some n
  | _ => None
  end.

Definition is_producer (c : call) : bool :=
  match producer_request c with Some _ => true | None => false end.

(** The requests of the producer-side calls asleep in the queue. *)
Fixpoint sleeping_requests (pool : list call) : list Z :=
  match pool with
  | [] => []
  | c :: pool' =>
      match producer_request c with
      | Some n => n :: sleeping_requests pool'
      | None => sleeping_requests pool'
      end
  end.

(** The number of [tsqueue_pop] calls asleep in the queue. *)
Definition sleeping_consumers (pool : list call) : Z :=
  Z.of_nat (length (filter is_pop pool)).

(** The two counters of the queue describe the calls asleep in it. *)
Definition counters_match (s : system) : Prop :=
  n_consumers_waiting (sys_queue s)
  = SizeT.wrap (sleeping_consumers (sys_blocked s))
  /\ sleeping_requests (sys_blocked s)
     = (if producer_n_elems (sys_queue s) =? 0 then []
        else [producer_n_elems (sys_queue s)]).

(** The call of an event. *)
Definition call_of (ev : event) : call :=
  match ev with
  | ev_return c _ => c
  | ev_block c => c
  end.

(** Events of the calls that never insert: everything but
    [tsqueue_wait_for_space], [tsqueue_put] and [tsqueue_destroy]. *)
Definition consumer_side (ev : event) : Prop :=
  is_producer (call_of ev) = false /\ is_destroy (call_of ev) = false.

(** ** The producer thread: [task.c] *)

(** [struct timespec] and [struct job_struct] of [job.h]. *)
Record timespec : Type := mk_timespec {
  tv_sec : Z;
  tv_nsec : Z
}.

Record job_struct : Type := mk_job_struct {
  job_id : Z;
  cpu_burst : Z;
  arrival_mono : timespec;
  arrival_real : timespec;
  service_mono : timespec;
  service_real : timespec;
  completion_mono : timespec;
  completion_real : timespec
}.

(** [AE_BAD_FILE] of [error.h]. *)
Definition AE_BAD_FILE : Z := INT_MIN + 2.

(** What one call [fscanf (job_file, " %u %u ", ...)] answers: two numbers
    converted, or anything else with the value [errno] has afterwards; and
    whether the end-of-file indicator of the stream is set afterwards. *)
Inductive scan_answer : Type :=
| scan_two (id burst : Z) (eof : bool)
| scan_other (errno : Z) (eof : bool).

(** The job file as [task] sees it: its end-of-file indicator and the
    answers it will give to the next calls of [fscanf].  When the answers
    are used up the stream is at its end: [fscanf] converts nothing, sets
    the indicator and leaves [errno] at 0. *)
Record job_file : Type := mk_job_file {
  feof : bool;
  answers : list scan_answer
}.

Definition fscanf_job (f : job_file) : option (Z * Z) * Z * job_file :=
  match answers f with
  | [] => (None, 0, mk_job_file true [])
  | scan_two id burst eof :: rest =>
      (Some (id, burst), 0, mk_job_file (feof f || eof) rest)
  | scan_other errno eof :: rest =>
      (None, errno, mk_job_file (feof f || eof) rest)
  end.

(** [l] with [f] applied to its element of index [n]. *)
Fixpoint update_nth {A : Type} (n : nat) (f : A -> A) (l : list A) : list A :=
  match l, n with
  | [], _ => []
  | x :: l', O => f x :: l'
  | x :: l', S n' => x :: update_nth n' f l'
  end.

(** Lines 118-128: the two fields [fill_job_buffer] writes. *)
Definition set_id_and_burst (id burst : Z) (j : job_struct) : job_struct :=
  mk_job_struct id burst (arrival_mono j) (arrival_real j)
                (service_mono j) (service_real j)
                (completion_mono j) (completion_real j).

Record fill_result : Type := mk_fill_result {
  fill_retval : Z;
  fill_file : job_file;
  fill_buffer : list job_struct;
  fill_used : Z
}.

(** The [while] loop of [fill_job_buffer]; [None] when [fuel] iterations
    do not suffice. *)
Fixpoint fill_job_buffer_loop (fuel : nat) (f : job_file) (length : Z)
  (buffer : list job_struct) (used retval : Z) : option fill_result :=
  if negb (feof f) && (retval =? 0) && (used <? length) then
    match fuel with
    | O => None
    | S fuel' =>
        match fscanf_job f with
        | (Some (id, burst), _, f') =>
            fill_job_buffer_loop fuel' f' length
              (update_nth (Z.to_nat used) (set_id_and_burst id burst) buffer)
              (SizeT.add used 1) retval
        | (None, errno, f') =>
            fill_job_buffer_loop fuel' f' length buffer used
              (if negb (errno =? 0) then errno else AE_BAD_FILE)
        end
    end
  else Some (mk_fill_result retval f buffer used).

(** [fill_job_buffer]: every iteration but the last adds a job, so
    [length + 1] iterations suffice ([fill_job_buffer_total]). *)
Definition fill_job_buffer (f : job_file) (length : Z)
  (buffer : list job_struct) : option fill_result :=
  fill_job_buffer_loop (S (Z.to_nat length)) f length buffer 0 0.

(** The pairs at the head of the answers of a file, up to the first
    answer that is not a pair. *)
Fixpoint leading_pairs (l : list scan_answer) : list (Z * Z) :=
  match l with
  | scan_two id burst _ :: rest => (id, burst) :: leading_pairs rest
  | _ => []
  end.

Definition id_and_burst (j : job_struct) : Z * Z := (job_id j, cpu_burst j).

(** The number of [fscanf] calls a file can still answer before its
    end-of-file indicator is set, plus one if it is not set yet. *)
Definition file_measure (f : job_file) : nat :=
  (length (answers f) + if feof f then 0 else 1)%nat.

(** What [task] does that others can see: its calls of the queue (with
    the value returned, [None] for a call that never returns) and of the
    log. *)
Inductive task_action : Type :=
| act_wait_for_space (n_elems : Z) (ret : option Z)
| act_put (n_elems : Z) (jobs : list job_struct) (ret : option Z)
| act_set_done (done : bool)
| act_log_arrival (job : job_struct) (ret : Z)
| act_log_task_done (n_jobs : Z) (ret : Z).

(** What the rest of the program answers to [task]: the return values of
    its [tsqueue_wait_for_space] and [tsqueue_put] calls, in order (when
    they are used up, the next call never returns); the two clocks read
    for the k-th job stamped; the return value of the k-th
    [log_arrival]; the return value of [log_task_done]. *)
Record task_env : Type := mk_task_env {
  queue_answers : list Z;
  arrival_clocks : nat -> timespec * timespec;
  log_arrival_ret : nat -> Z;
  log_task_done_ret : Z
}.

(** The local variables of [task], the environment it has consumed and
    the actions it has made. *)
Record task_state : Type := mk_task_state {
  ts_retval : Z;
  ts_queue_retval : Z;
  ts_job_file : job_file;
  ts_job_buffer : list job_struct;
  ts_n_jobs : Z;
  ts_answers : list Z;
  ts_stamped : nat;
  ts_logged : nat;
  ts_trace : list task_action
}.

Definition set_arrival (t : timespec * timespec) (j : job_struct)
  : job_struct :=
  mk_job_struct (job_id j) (cpu_burst j) (fst t) (snd t)
                (service_mono j) (service_real j)
                (completion_mono j) (completion_real j).

(** Lines 73-77: the first [n] jobs of the buffer get their arrival
    times; [k] jobs have been stamped before. *)
Fixpoint stamp_arrivals (env : task_env) (k n : nat)
  (buffer : list job_struct) : list job_struct :=
  match n, buffer with
  | S n', j :: rest =>
      set_arrival (arrival_clocks env k) j :: stamp_arrivals env (S k) n' rest
  | _, _ => buffer
  end.

(** Lines 84-91: the jobs are logged until [log_arrival] fails; [k] jobs
    have been logged before.  Gives [retval], the number of
    [log_arrival] calls made so far and the actions. *)
Fixpoint log_arrivals (env : task_env) (k : nat) (jobs : list job_struct)
  : Z * nat * list task_action :=
  match jobs with
  | [] => (0, k, [])
  | j :: rest =>
      let ret := log_arrival_ret env k in
      if ret =? 0 then
        let '(r, k', tr) := log_arrivals env (S k) rest in
        (r, k', act_log_arrival j ret :: tr)
      else (ret, S k, [act_log_arrival j ret])
  end.

(** How one iteration of the loop of [task] ends. *)
Inductive task_iteration_end : Type :=
| iteration_done (st : task_state)
| iteration_stuck (trace : list task_action)
| iteration_no_fuel.

(** Lines 63-92: the body of the [while] loop of [task]; [length] is
    [job_buffer_length] as lines 54-57 leave it. *)
Definition task_iteration (env : task_env) (length : Z) (st : task_state)
  : task_iteration_end :=
  match fill_job_buffer (ts_job_file st) length (ts_job_buffer st) with
  | None => iteration_no_fuel
  | Some r =>
      let jobs_in_buffer := fill_used r in
      if negb (fill_retval r =? 0) then
        iteration_done
          (mk_task_state (fill_retval r) (ts_queue_retval st) (fill_file r)
             (fill_buffer r) (ts_n_jobs st) (ts_answers st) (ts_stamped st)
             (ts_logged st) (ts_trace st))
      else
        match ts_answers st with
        | [] =>
            iteration_stuck
              (ts_trace st ++ [act_wait_for_space jobs_in_buffer None])
        | a :: answers1 =>
            let trace1 :=
              ts_trace st ++ [act_wait_for_space jobs_in_buffer (Some a)] in
            if negb (a =? 0) then
              iteration_done
                (mk_task_state 0 a (fill_file r) (fill_buffer r)
                   (ts_n_jobs st) answers1 (ts_stamped st) (ts_logged st)
                   trace1)
            else
              let buffer :=
                stamp_arrivals env (ts_stamped st) (Z.to_nat jobs_in_buffer)
                               (fill_buffer r) in
              let stamped := (ts_stamped st + Z.to_nat jobs_in_buffer)%nat in
              let jobs := firstn (Z.to_nat jobs_in_buffer) buffer in
              match answers1 with
              | [] =>
                  iteration_stuck
                    (trace1 ++ [act_put jobs_in_buffer jobs None])
              | b :: answers2 =>
                  let trace2 :=
                    trace1 ++ [act_put jobs_in_buffer jobs (Some b)] in
                  let n_jobs := SizeT.add (ts_n_jobs st) jobs_in_buffer in
                  if negb (b =? 0) then
                    iteration_done
                      (mk_task_state 0 b (fill_file r) buffer n_jobs answers2
                         stamped (ts_logged st) trace2)
                  else
                    let '(retval, logged, logs) :=
                      log_arrivals env (ts_logged st) jobs in
                    iteration_done
                      (mk_task_state retval b (fill_file r) buffer n_jobs
                         answers2 stamped logged (trace2 ++ logs))
              end
        end
  end.

(** How [task] ends: it returns with [params->retval] set, or it sleeps
    for ever in a queue call, or the fuel given to the model is used
    up. *)
Inductive task_end : Type :=
| task_returns (retval : Z) (trace : list task_action)
| task_stuck (trace : list task_action)
| task_no_fuel.

(** Lines 95-105: what [task] does after its loop. *)
Definition task_exit (env : task_env) (st : task_state) : task_end :=
  let trace := ts_trace st ++ [act_set_done true] in
  if ts_retval st =? 0
  then task_returns (log_task_done_ret env)
         (trace ++ [act_log_task_done (ts_n_jobs st) (log_task_done_ret env)])
  else task_returns (ts_retval st) trace.

(** Lines 61-93: the [while] loop of [task]. *)
Fixpoint task_loop (fuel : nat) (env : task_env) (length : Z)
  (st : task_state) : task_end :=
  if (ts_retval st =? 0) && negb (feof (ts_job_file st))
     && (ts_queue_retval st =? 0)
  then
    match fuel with
    | O => task_no_fuel
    | S fuel' =>
        match task_iteration env length st with
        | iteration_done st' => task_loop fuel' env length st'
        | iteration_stuck trace => task_stuck trace
        | iteration_no_fuel => task_no_fuel
        end
    end
  else task_exit env st.

(** [task]: [capacity] is what [tsqueue_capacity] returns (always the
    same value, see [capacity_invariant]); [job_file], [job_buffer] and
    [job_buffer_length] are the fields of [params]. *)
Definition task (fuel : nat) (env : task_env) (capacity : Z)
  (job_file0 : job_file) (job_buffer : list job_struct)
  (job_buffer_length : Z) : task_end :=
  let job_buffer_length :=
    if capacity <? job_buffer_length then capacity else job_buffer_length in
  task_loop fuel env job_buffer_length
    (mk_task_state 0 0 job_file0 job_buffer 0 (queue_answers env) 0 0 []).

(** The calls of the queue in a trace. *)
Definition is_queue_action (a : task_action) : bool :=
  match a with
  | act_wait_for_space _ _ | act_put _ _ _ | act_set_done _ => true
  | _ => false
  end.

(** The shape of the queue calls of [task] before [tsqueue_set_done]:
    rounds of a [tsqueue_wait_for_space] that returns 0 followed by a
    [tsqueue_put] of as many jobs, all of at most [limit] elements; only
    the last round may stop at, or after, a call that does not return 0.
    [complete] says that every call returned 0. *)
Inductive producer_pattern (limit : Z) : bool -> list task_action -> Prop :=
| pattern_nil : producer_pattern limit true []
| pattern_round n jobs rest complete :
    0 <= n <= limit ->
    Z.of_nat (length jobs) = n ->
    producer_pattern limit complete rest ->
    producer_pattern limit complete
      (act_wait_for_space n (Some 0) :: act_put n jobs (Some 0) :: rest)
| pattern_wait_failed n ret :
    0 <= n <= limit -> ret <> Some 0 ->
    producer_pattern limit false [act_wait_for_space n ret]
| pattern_put_failed n jobs ret :
    0 <= n <= limit -> Z.of_nat (length jobs) = n -> ret <> Some 0 ->
    producer_pattern limit false
      [act_wait_for_space n (Some 0); act_put n jobs ret].

(** The jobs the queue has accepted from a trace, in order. *)
Fixpoint jobs_put (trace : list task_action) : list job_struct :=
  match trace with
  | [] => []
  | act_put _ jobs (Some 0) :: rest => jobs ++ jobs_put rest
  | _ :: rest => jobs_put rest
  end.

(** What the loop of [task] keeps true; [f0] is the job file at the
    start. *)
Definition task_invariant (limit : Z) (f0 : job_file) (st : task_state)
  : Prop :=
  producer_pattern limit (ts_queue_retval st =? 0)
                   (filter is_queue_action (ts_trace st))
  /\ limit <= Z.of_nat (length (ts_job_buffer st))
  /\ exists rest,
       leading_pairs (answers f0)
       = map id_and_burst (jobs_put (ts_trace st)) ++ rest
       /\ (ts_retval st = 0 -> ts_queue_retval st = 0 ->
           rest = leading_pairs (answers (ts_job_file st))).

Definition no_job : job_struct :=
  mk_job_struct 0 0 (mk_timespec 0 0) (mk_timespec 0 0) (mk_timespec 0 0)
                (mk_timespec 0 0) (mk_timespec 0 0) (mk_timespec 0 0).

(** A job file with the three jobs (1, 5), (2, 3) and (3, 1), a queue
    that accepts everything and a log that never fails. *)
Definition three_jobs : job_file :=
  mk_job_file false
    [scan_two 1 5 false; scan_two 2 3 false; scan_two 3 1 true].

Definition easy_env : task_env :=
  mk_task_env [0; 0; 0; 0]
              (fun k => (mk_timespec (Z.of_nat k) 0, mk_timespec 100 0))
              (fun _ => 0) 0.

(** ** The consumer threads: [cpu.c] *)

(** [struct cpu_shared_stats] of [cpu.h] without its lock; [time_t]
    values are integers (their overflow is undefined in C),
    [unsigned long] wraps like [size_t]. *)
Record cpu_shared_stats : Type := mk_cpu_shared_stats {
  total_waiting_time : Z;
  total_turnaround_time : Z;
  num_tasks : Z
}.

(** What a [tsqueue_pop (queue, &jobs_from_queue, &job)] of [cpu] gives
    back: the return value, [jobs_from_queue] and the bytes of [job]. *)
Record pop_answer : Type := mk_pop_answer {
  pa_retval : Z;
  pa_n_elems : Z;
  pa_job : job_struct
}.

(** What [cpu] does that others can see. *)
Inductive cpu_action : Type :=
| cpu_pop (n_elems : Z) (answer : option pop_answer)
| cpu_log_service (job : job_struct) (ret : Z)
| cpu_run_job (job : job_struct)
| cpu_log_completion (job : job_struct) (ret : Z)
| cpu_log_cpu_done (n_jobs : Z) (ret : Z).

(** What the rest of the program answers to one [cpu] thread: the
    answers to its [tsqueue_pop] calls, in order (when they are used up
    the next call never returns); the two clocks read when the k-th job
    is served and when it completes; the return values of the k-th
    [log_service] and [log_completion] and of [log_cpu_done]. *)
Record cpu_env : Type := mk_cpu_env {
  pop_answers : list pop_answer;
  service_clocks : nat -> timespec * timespec;
  completion_clocks : nat -> timespec * timespec;
  log_service_ret : nat -> Z;
  log_completion_ret : nat -> Z;
  log_cpu_done_ret : Z
}.

Definition set_service (t : timespec * timespec) (j : job_struct)
  : job_struct :=
  mk_job_struct (job_id j) (cpu_burst j) (arrival_mono j) (arrival_real j)
                (fst t) (snd t) (completion_mono j) (completion_real j).

Definition set_completion (t : timespec * timespec) (j : job_struct)
  : job_struct :=
  mk_job_struct (job_id j) (cpu_burst j) (arrival_mono j) (arrival_real j)
                (service_mono j) (service_real j) (fst t) (snd t).

(** [handle_job] for the k-th job of this thread: the return value, the
    statistics after the updates of this call, and the actions. *)
Definition handle_job (env : cpu_env) (k : nat) (job : job_struct)
  (stats : cpu_shared_stats) : Z * cpu_shared_stats * list cpu_action :=
  let job := set_service (service_clocks env k) job in
  let stats :=
    mk_cpu_shared_stats
      (total_waiting_time stats
       + (tv_sec (service_mono job) - tv_sec (arrival_mono job)))
      (total_turnaround_time stats)
      (SizeT.add (num_tasks stats) 1) in
  let retval := log_service_ret env k in
  if retval =? 0 then
    let done := set_completion (completion_clocks env k) job in
    let stats :=
      mk_cpu_shared_stats
        (total_waiting_time stats)
        (total_turnaround_time stats
         + (tv_sec (completion_mono done) - tv_sec (arrival_mono done)))
        (num_tasks stats) in
    (log_completion_ret env k, stats,
     [cpu_log_service job retval; cpu_run_job job;
      cpu_log_completion done (log_completion_ret env k)])
  else (retval, stats, [cpu_log_service job retval]).

(** How [cpu] ends: it returns with [params->retval] set, or it sleeps
    for ever in [tsqueue_pop]. *)
Inductive cpu_end : Type :=
| cpu_returns (retval : Z) (stats : cpu_shared_stats)
              (trace : list cpu_action)
| cpu_stuck (stats : cpu_shared_stats) (trace : list cpu_action).

(** Lines 65-71: what [cpu] does after its loop. *)
Definition cpu_exit (env : cpu_env) (retval queue_retval n_jobs : Z)
  (stats : cpu_shared_stats) (trace : list cpu_action) : cpu_end :=
  if (retval =? 0) && (queue_retval =? 0)
  then cpu_returns (log_cpu_done_ret env) stats
         (trace ++ [cpu_log_cpu_done n_jobs (log_cpu_done_ret env)])
  else cpu_returns retval stats trace.

(** Lines 54-63: the [do ... while] loop of [cpu], one iteration for
    each answer of the queue; [k] jobs have been handled before. *)
Fixpoint cpu_loop (env : cpu_env) (answers : list pop_answer)
  (retval jobs_from_queue n_jobs : Z) (k : nat)
  (stats : cpu_shared_stats) (trace : list cpu_action) : cpu_end :=
  match answers with
  | [] => cpu_stuck stats (trace ++ [cpu_pop jobs_from_queue None])
  | a :: rest =>
      let trace := trace ++ [cpu_pop jobs_from_queue (Some a)] in
      let queue_retval := pa_retval a in
      let jobs_from_queue := pa_n_elems a in
      let '(retval, n_jobs, k, stats, trace) :=
        if (jobs_from_queue =? 1) && (queue_retval =? 0) then
          let '(r, stats', tr) := handle_job env k (pa_job a) stats in
          (r, SizeT.add n_jobs 1, S k, stats', trace ++ tr)
        else (retval, n_jobs, k, stats, trace) in
      if (retval =? 0) && (jobs_from_queue =? 1) && (queue_retval =? 0)
      then cpu_loop env rest retval jobs_from_queue n_jobs k stats trace
      else cpu_exit env retval queue_retval n_jobs stats trace
  end.

(** [cpu], started with the shared statistics [stats]. *)
Definition cpu (env : cpu_env) (stats : cpu_shared_stats) : cpu_end :=
  cpu_loop env (pop_answers env) 0 1 0 0 stats [].

(** The numbers of elements asked for by the [tsqueue_pop] calls of a
    trace. *)
Fixpoint pop_requests (trace : list cpu_action) : list Z :=
  match trace with
  | [] => []
  | cpu_pop n _ :: rest => n :: pop_requests rest
  | _ :: rest => pop_requests rest
  end.

(** The jobs a trace has started to serve, and those it has completed. *)
Fixpoint jobs_served (trace : list cpu_action) : list job_struct :=
  match trace with
  | [] => []
  | cpu_log_service j _ :: rest => j :: jobs_served rest
  | _ :: rest => jobs_served rest
  end.

Definition is_cpu_done (a : cpu_action) : bool :=
  match a with cpu_log_cpu_done _ _ => true | _ => false end.

(** An answer of the queue that gives one job. *)
Definition gives_job (a : pop_answer) : bool :=
  (pa_n_elems a =? 1) && (pa_retval a =? 0).

(** The time a job has waited in the queue when it is served. *)
(** The jobs a trace has completed. *)
Fixpoint jobs_completed (trace : list cpu_action) : list job_struct :=
  match trace with
  | [] => []
  | cpu_log_completion j _ :: rest => j :: jobs_completed rest
  | _ :: rest => jobs_completed rest
  end.

Definition cpu_end_stats (e : cpu_end) : cpu_shared_stats :=
  match e with
  | cpu_returns _ stats _ => stats
  | cpu_stuck stats _ => stats
  end.

Definition cpu_end_trace (e : cpu_end) : list cpu_action :=
  match e with
  | cpu_returns _ _ trace => trace
  | cpu_stuck _ trace => trace
  end.

(** The two times [handle_job] adds to the statistics, in seconds of the
    monotonic clock. *)
Definition waiting_time (j : job_struct) : Z :=
  tv_sec (service_mono j) - tv_sec (arrival_mono j).

Definition turnaround_time (j : job_struct) : Z :=
  tv_sec (completion_mono j) - tv_sec (arrival_mono j).

Definition sum_Z (l : list Z) : Z := fold_right Z.add 0 l.

(** The jobs [jobs] as the thread serves them, the first one being its
    k-th job: each with the service times read for it. *)
Fixpoint serve_all (env : cpu_env) (k : nat) (jobs : list job_struct)
  : list job_struct :=
  match jobs with
  | [] => []
  | j :: rest => set_service (service_clocks env k) j :: serve_all env (S k) rest
  end.

(** A queue that gives one job and then reports the graceful end. *)
Definition one_job_env : cpu_env :=
  mk_cpu_env
    [mk_pop_answer 0 1
       (mk_job_struct 7 2 (mk_timespec 10 0) (mk_timespec 10 0)
          (mk_timespec 0 0) (mk_timespec 0 0)
          (mk_timespec 0 0) (mk_timespec 0 0));
     mk_pop_answer 0 0
       (mk_job_struct 0 0 (mk_timespec 0 0) (mk_timespec 0 0)
          (mk_timespec 0 0) (mk_timespec 0 0)
          (mk_timespec 0 0) (mk_timespec 0 0))]
    (fun _ => (mk_timespec 13 0, mk_timespec 13 0))
    (fun _ => (mk_timespec 15 0, mk_timespec 15 0))
    (fun _ => 0) (fun _ => 0) 0.

(** ** Starting and joining the threads: [main.c] *)

(** [CPU_COUNT] of [config.h]. *)
Definition CPU_COUNT : nat := 3.

(** What [main] does with its threads and with the queue between the
    end of its allocations and its last log line. *)
Inductive main_action : Type :=
| main_create_task (ret : Z)
| main_create_cpu (i : Z) (ret : Z)
| main_close
| main_join_task
| main_join_cpu (j : nat).

(** What the rest of the program answers to [main]: the return values of
    [pthread_create] for [task] and for the i-th [cpu], and the [retval]
    the threads leave in their parameters. *)
Record main_env : Type := mk_main_env {
  create_task_ret : Z;
  create_cpu_ret : nat -> Z;
  cpu_retval : nat -> Z;
  task_retval : Z
}.

(** Lines 160-165: the [while] loop that starts the [cpu] threads, with
    [remaining] the number of indices from [i] to the count; [i] is a
    [size_t]. *)
Fixpoint create_loop (env : main_env) (remaining : nat) (i : Z)
  (trace : list main_action) : Z * Z * list main_action :=
  match remaining with
  | O => (0, i, trace)
  | S remaining' =>
      let retval := create_cpu_ret env (Z.to_nat i) in
      let trace := trace ++ [main_create_cpu i retval] in
      let i := SizeT.add i 1 in
      if retval =? 0 then create_loop env remaining' i trace
      else (retval, i, trace)
  end.

(** Lines 174-181: the [for] loop that joins [n] more [cpu] threads from
    index [j] on. *)
Fixpoint join_loop (env : main_env) (n j : nat) (retval : Z)
  (trace : list main_action) : Z * list main_action :=
  match n with
  | O => (retval, trace)
  | S n' =>
      let trace := trace ++ [main_join_cpu j] in
      let retval := if retval =? 0 then cpu_retval env j else retval in
      join_loop env n' (S j) retval trace
  end.

(** Lines 152-188 of [main], entered with [retval = 0], for [count]
    consumer threads: the value of [retval] at the end and the actions. *)
Definition start_and_join (env : main_env) (count : nat)
  : Z * list main_action :=
  let retval := create_task_ret env in
  let trace := [main_create_task retval] in
  if retval =? 0 then
    let '(retval, i, trace) := create_loop env count 0 trace in
    let '(i, trace) :=
      if retval =? 0 then (i, trace)
      else (SizeT.sub i 1, trace ++ [main_close]) in
    let trace := trace ++ [main_join_task] in
    let '(retval, trace) := join_loop env (Z.to_nat i) 0 retval trace in
    let retval := if retval =? 0 then task_retval env else retval in
    (retval, trace)
  else (retval, trace).

Definition main_threads (env : main_env) : Z * list main_action :=
  start_and_join env CPU_COUNT.

(** The first value of a list that is not zero, zero if there is none. *)
Fixpoint first_nonzero (l : list Z) : Z :=
  match l with
  | [] => 0
  | x :: rest => if x =? 0 then first_nonzero rest else x
  end.

(** Threads [0 .. n-1] started. *)
Definition started (n : nat) : list main_action :=
  map (fun j => main_create_cpu (Z.of_nat j) 0) (seq 0 n).

(** Threads [0 .. n-1] joined. *)
Definition joined (n : nat) : list main_action :=
  map main_join_cpu (seq 0 n).

(** The second [pthread_create] for a [cpu] fails with [EAGAIN]. *)
Definition second_cpu_fails : main_env :=
  mk_main_env 0 (fun i => if Nat.eqb i 1 then 11 else 0) (fun _ => 0) 0.

(** * Properties *)

(** ** [size_t] arithmetic *)

Lemma SizeT_modulus_eq : SizeT.modulus = 18446744073709551616.
Proof. reflexivity. Qed.

Lemma SizeT_wrap_small z : SizeT.in_range z -> SizeT.wrap z = z.
Proof.
  unfold SizeT.in_range, SizeT.wrap. intros H. apply Z.mod_small. exact H.
Qed.

Lemma SizeT_wrap_underflow z :
  - SizeT.modulus <= z < 0 -> SizeT.wrap z = z + SizeT.modulus.
Proof.
  intros H. unfold SizeT.wrap.
  symmetry. apply Z.mod_unique with (q := -1); lia.
Qed.

(** ** Basic facts about segments *)

Lemma and_then_ret {A B : Type} (o : outcome A) (k : tsqueue -> A -> outcome B)
  q sigs a :
  o = Ret q sigs a ->
  and_then o k =
    match k q a with
    | Ret q' sigs' b => Ret q' (sigs ++ sigs') b
    | Wait q' sigs' c => Wait q' (sigs ++ sigs') c
    end.
Proof. intros ->. reflexivity. Qed.

Lemma error_codes_distinct :
  TSQUEUE_CLOSED <> 0 /\ TSQUEUE_TOO_MANY <> 0 /\ TSQUEUE_SINGLE_PRODUCER <> 0
  /\ TSQUEUE_CLOSED <> TSQUEUE_TOO_MANY
  /\ TSQUEUE_CLOSED <> TSQUEUE_SINGLE_PRODUCER
  /\ TSQUEUE_TOO_MANY <> TSQUEUE_SINGLE_PRODUCER.
Proof. repeat split; discriminate. Qed.

(** ** Forced shutdown: [tsqueue_close] *)

(** What [tsqueue_close] does before it tests its loop: the flag is set,
    the pending producer gets one signal and the consumers one each. *)
Lemma close_sets_die_and_signals q :
  die (state_of (tsqueue_close q)) = true
  /\ signals_of (tsqueue_close q) =
       (if negb (producer_n_elems q =? 0) then [producer_wakeup] else [])
         ++ repeat consumer_wakeup (Z.to_nat (n_consumers_waiting q)).
Proof.
  unfold tsqueue_close, and_then, close_loop; simpl.
  destruct (negb (producer_n_elems q =? 0) && negb (n_consumers_waiting q =? 0));
    simpl; rewrite app_nil_r; split; reflexivity.
Qed.

(** The loop of [tsqueue_close] is left as soon as ONE of the two counters
    is zero: its condition joins the two tests with [&&]. *)
Lemma close_loop_returns_iff q :
  blocks (close_loop q) = false
  <-> producer_n_elems q = 0 \/ n_consumers_waiting q = 0.
Proof.
  unfold close_loop.
  destruct (Z.eqb_spec (producer_n_elems q) 0) as [Hp | Hp];
    destruct (Z.eqb_spec (n_consumers_waiting q) 0) as [Hc | Hc];
    simpl; split; auto; intros H; try discriminate; destruct H; contradiction.
Qed.

(** C1 (evaluated on the code): on an empty queue of capacity 4, a
    consumer calls [tsqueue_pop] for 3 elements and goes to sleep; another
    thread then calls [tsqueue_close], which returns at once although the
    consumer is still asleep inside the queue and [n_consumers_waiting]
    is 1.  The claim that both counters are zero when close returns does
    not hold of the code. *)
Theorem close_returns_while_consumer_sleeps :
  exists q,
    sys_run (created store4 4 1 0)
            [ev_block (call_pop 3 buf3); ev_return call_close res_void]
            (mk_system q [call_pop 3 buf3] false)
    /\ die q = true
    /\ producer_n_elems q = 0
    /\ n_consumers_waiting q = 1.
Proof.
  eexists. split.
  - change [ev_block (call_pop 3 buf3); ev_return call_close res_void]
      with (([] ++ [ev_block (call_pop 3 buf3)])
              ++ [ev_return call_close res_void]).
    eapply run_snoc.
    + eapply run_snoc.
      * apply run_nil.
      * unfold created. eapply step_call_block.
        -- simpl. split; [unfold SizeT.in_range; rewrite SizeT_modulus_eq; lia
                         | lia].
        -- vm_compute. reflexivity.
    + eapply (step_call_return _ _ call_close).
      * exact I.
      * vm_compute. reflexivity.
  - repeat split; reflexivity.
Qed.

(** ** Argument checks of the producer side *)

Lemma wait_for_space_too_many q n :
  capacity q < n ->
  wait_for_space_internal q n =
    Ret q (if die q then signal_if_all_dead q else []) (rejected_with q).
Proof.
  intros Hn. unfold wait_for_space_internal, rejected_with.
  destruct (Z.ltb_spec (capacity q) n) as [_ | Hle]; [| lia].
  destruct (negb (producer_n_elems q =? 0)); simpl;
    unfold wait_for_space_exit; destruct (die q); reflexivity.
Qed.

Lemma rejected_with_nonzero q : rejected_with q <> 0.
Proof.
  unfold rejected_with.
  destruct (die q); [discriminate |].
  destruct (negb (producer_n_elems q =? 0)); discriminate.
Qed.

(** C2 (counterexample): with [n = 5 > capacity = 4], a closed queue
    answers [TSQUEUE_CLOSED], and a queue with a producer call pending
    answers [TSQUEUE_SINGLE_PRODUCER]; neither answers
    [TSQUEUE_TOO_MANY]. *)
Lemma too_many_counterexample :
  capacity closed_queue < 5
  /\ die closed_queue = true
  /\ tsqueue_wait_for_space closed_queue 5
     = Ret closed_queue [all_dead] TSQUEUE_CLOSED
  /\ tsqueue_put closed_queue 5 [x01; x02; x03; x04; x05]
     = Ret closed_queue [all_dead] TSQUEUE_CLOSED
  /\ capacity pending_queue < 5
  /\ producer_n_elems pending_queue = 2
  /\ tsqueue_wait_for_space pending_queue 5
     = Ret pending_queue [] TSQUEUE_SINGLE_PRODUCER
  /\ tsqueue_put pending_queue 5 [x01; x02; x03; x04; x05]
     = Ret pending_queue [] TSQUEUE_SINGLE_PRODUCER
  /\ TSQUEUE_CLOSED <> TSQUEUE_TOO_MANY
  /\ TSQUEUE_SINGLE_PRODUCER <> TSQUEUE_TOO_MANY.
Proof.
  repeat split; try (vm_compute; reflexivity); try (vm_compute; discriminate).
Qed.

(** C2 (amended): for every queue state, [tsqueue_wait_for_space] and
    [tsqueue_put] called with [n_elems > capacity] return at once with an
    error and leave the queue state as it was.  The error is
    [TSQUEUE_CLOSED] if the queue is closing, else
    [TSQUEUE_SINGLE_PRODUCER] if a producer call is pending, else
    [TSQUEUE_TOO_MANY]. *)
Theorem too_many_rejected_immediately q n inp :
  capacity q < n ->
  rejected_with q <> 0
  /\ (exists sigs, tsqueue_wait_for_space q n = Ret q sigs (rejected_with q))
  /\ (exists sigs, tsqueue_put q n inp = Ret q sigs (rejected_with q))
  /\ (die q = false -> producer_n_elems q = 0 ->
      rejected_with q = TSQUEUE_TOO_MANY)
  /\ (die q = false -> producer_n_elems q <> 0 ->
      rejected_with q = TSQUEUE_SINGLE_PRODUCER)
  /\ (die q = true -> rejected_with q = TSQUEUE_CLOSED).
Proof.
  intros Hn. pose proof (rejected_with_nonzero q) as Hnz.
  split; [exact Hnz |]. split; [| split; [| split; [| split]]].
  - eexists. unfold tsqueue_wait_for_space.
    apply wait_for_space_too_many. exact Hn.
  - eexists. unfold tsqueue_put.
    rewrite (and_then_ret _ _ _ _ _ (wait_for_space_too_many q n Hn)).
    unfold put_copy.
    destruct (Z.eqb_spec (rejected_with q) 0) as [H0 | _]; [contradiction |].
    reflexivity.
  - intros Hd Hp. unfold rejected_with. rewrite Hd, Hp. reflexivity.
  - intros Hd Hp. unfold rejected_with. rewrite Hd.
    destruct (Z.eqb_spec (producer_n_elems q) 0); [contradiction | reflexivity].
  - intros Hd. unfold rejected_with. rewrite Hd. reflexivity.
Qed.

Lemma too_many_rejected_immediately_witness :
  capacity (sys_queue (created store4 4 1 0)) < 5
  /\ exists sigs,
       tsqueue_put (sys_queue (created store4 4 1 0)) 5
                   [x01; x02; x03; x04; x05]
       = Ret (sys_queue (created store4 4 1 0)) sigs TSQUEUE_TOO_MANY.
Proof.
  assert (H : capacity (sys_queue (created store4 4 1 0)) < 5)
    by (simpl; lia).
  split; [exact H |].
  destruct (too_many_rejected_immediately
              (sys_queue (created store4 4 1 0)) 5
              [x01; x02; x03; x04; x05] H)
    as (_ & _ & Hput & _).
  exact Hput.
Defined.

(** ** Creation *)

(** C3 (evaluated on the code): when [malloc] fails, the test of line 92
    looks at [queue], the address of the caller's handle, and not at the
    pointer [malloc] returned; [retval] stays 0 and the initialisation of
    lines 97-102 stores through the NULL pointer, whatever the pthread
    functions would have answered. *)
Theorem create_malloc_failure_null_deref
  (errno mutex_ret : Z) (cond_ret : cond -> Z)
  (data : list byte) (capacity elem_size used : Z) :
  tsqueue_create (mk_os_env false errno mutex_ret cond_ret) false
                 data capacity elem_size used
  = CreateNullDeref.
Proof. reflexivity. Qed.

(** X9: when [malloc] succeeds, a failing initialisation is cleaned up: the
    error is returned, the objects initialised so far are destroyed, the
    struct is freed and the backing store is not. *)
Lemma create_cleans_up_after_init_failure env data capacity elem_size used :
  malloc_ok env = true ->
  first_init_error env <> 0 ->
  exists tr,
    tsqueue_create env false data capacity elem_size used
    = CreateRet (first_init_error env) None tr
    /\ live_objects [] tr = []
    /\ freed queue_struct tr = true
    /\ freed backing_store tr = false.
Proof.
  intros Hm. unfold tsqueue_create, first_init_error.
  rewrite Hm. simpl.
  unfold init_block; simpl.
  destruct (mutex_init_ret env =? 0) eqn:E1;
    repeat (simpl; rewrite ?E1); simpl.
  - destruct (cond_init_ret env producer_wakeup =? 0) eqn:E2;
      repeat (simpl; rewrite ?E2); simpl.
    + destruct (cond_init_ret env consumer_wakeup =? 0) eqn:E3;
        repeat (simpl; rewrite ?E3); simpl.
      * destruct (cond_init_ret env all_dead =? 0) eqn:E4;
          repeat (simpl; rewrite ?E4); simpl.
        -- intros Herr. apply Z.eqb_eq in E4. contradiction.
        -- intros _. eexists. repeat split; reflexivity.
      * intros _. eexists. repeat split; reflexivity.
    + intros _. eexists. repeat split; reflexivity.
  - intros _. eexists. repeat split; reflexivity.
Qed.

(** When everything succeeds the queue is as [created] describes it. *)
Lemma create_success env data capacity elem_size used :
  malloc_ok env = true ->
  mutex_init_ret env = 0 ->
  (forall c, cond_init_ret env c = 0) ->
  exists tr,
    tsqueue_create env false data capacity elem_size used
    = CreateRet 0 (Some (sys_queue (created data capacity elem_size used))) tr
    /\ live_objects [] tr = all_objects.
Proof.
  intros Hm H1 H2. unfold tsqueue_create, init_block. rewrite Hm. simpl.
  rewrite H1, !H2. simpl. eexists. split; reflexivity.
Qed.

(** C10: [tsqueue_create] never looks at [used]: whenever the allocations
    succeed it returns 0 and the queue starts with [used] as given, also
    when [used > capacity].  In that case the subtraction
    [capacity - used] of [wait_for_space_internal] wraps around to
    [capacity - used + 2^64], and a producer asking for any
    [n_elems <= capacity] is told at once that there is room. *)
Theorem create_does_not_validate_used env data cap es preloaded :
  malloc_ok env = true ->
  mutex_init_ret env = 0 ->
  (forall c, cond_init_ret env c = 0) ->
  exists q tr,
    tsqueue_create env false data cap es preloaded = CreateRet 0 (Some q) tr
    /\ used q = preloaded
    /\ capacity q = cap
    /\ (SizeT.in_range cap -> SizeT.in_range preloaded -> cap < preloaded ->
        SizeT.sub (capacity q) (used q) = cap - preloaded + SizeT.modulus
        /\ cap < SizeT.sub (capacity q) (used q)
        /\ forall n, 0 <= n <= cap ->
             exists q', tsqueue_wait_for_space q n = Ret q' [] 0).
Proof.
  intros Hm H1 H2.
  destruct (create_success env data cap es preloaded Hm H1 H2) as (tr & Hc & _).
  exists (sys_queue (created data cap es preloaded)), tr.
  split; [exact Hc |]. simpl. split; [reflexivity |]. split; [reflexivity |].
  intros [Hc0 Hc1] [Hu0 Hu1] Hlt.
  assert (Hsub : SizeT.sub cap preloaded = cap - preloaded + SizeT.modulus).
  { unfold SizeT.sub. apply SizeT_wrap_underflow. lia. }
  split; [exact Hsub |]. split; [lia |].
  intros n Hn. unfold tsqueue_wait_for_space, wait_for_space_internal; simpl.
  destruct (Z.ltb_spec cap n) as [Hbad | _]; [lia |]. simpl.
  unfold wait_for_space_loop; simpl. rewrite Hsub.
  destruct (Z.ltb_spec (cap - preloaded + SizeT.modulus) n) as [Hbad | _];
    [lia |].
  simpl. unfold wait_for_space_exit; simpl. eexists. reflexivity.
Qed.

Lemma create_does_not_validate_used_witness :
  exists q tr,
    tsqueue_create os_all_ok false store4 4 1 7 = CreateRet 0 (Some q) tr
    /\ used q = 7
    /\ capacity q = 4.
Proof.
  destruct (create_does_not_validate_used os_all_ok store4 4 1 7
              eq_refl eq_refl (fun _ => eq_refl))
    as (q & tr & H1 & H2 & H3 & _).
  exists q, tr. repeat split; assumption.
Defined.

(** ** Soft completion: [tsqueue_set_done] *)

Lemma set_done_returns q done :
  tsqueue_set_done q done
  = Ret (set_producers_done q done)
        (repeat consumer_wakeup (Z.to_nat (n_consumers_waiting q))) tt.
Proof. reflexivity. Qed.

(** [tsqueue_pop] goes to sleep exactly when the flag is clear, the queue
    is not closing and fewer than [n_elems <= capacity] elements are
    there. *)
Lemma pop_blocks_iff q n out :
  n <= capacity q ->
  blocks (tsqueue_pop q n out) = true
  <-> (producers_done q = false /\ die q = false /\ used q < n).
Proof.
  intros Hn. unfold tsqueue_pop.
  destruct (Z.ltb_spec (capacity q) n) as [Hbad | _]; [lia |]. simpl.
  unfold pop_loop; simpl.
  destruct (producers_done q), (die q), (Z.ltb_spec (used q) n) as [Hu | Hu];
    simpl; unfold pop_exit; simpl;
    repeat match goal with
      | |- context [if ?b then _ else _] => destruct b; simpl
      end;
    split; intros Hb; try discriminate; try reflexivity;
    try (destruct Hb as (Hb1 & Hb2 & Hb3); try discriminate; lia);
    repeat split; auto.
Qed.

(** C9: two calls of [tsqueue_set_done (queue, true)] in a row leave the
    queue in the state one call leaves it in, and a call with [false]
    undoes it: the queue is then as if the flag had never been set.  In
    particular a [tsqueue_pop] asking for more elements than the queue
    holds, which returns a partial batch without sleeping while the flag
    is set, goes to sleep again once the flag is cleared. *)
Theorem set_done_idempotent_and_reversible q n out :
  let q1 := state_of (tsqueue_set_done q true) in
  let q2 := state_of (tsqueue_set_done q1 true) in
  let q3 := state_of (tsqueue_set_done q2 false) in
  q2 = q1
  /\ q3 = state_of (tsqueue_set_done q false)
  /\ (producers_done q = false -> q3 = q)
  /\ blocks (tsqueue_set_done q true) = false
  /\ blocks (tsqueue_set_done q1 true) = false
  /\ blocks (tsqueue_set_done q2 false) = false
  /\ (die q = false -> used q < n <= capacity q ->
      blocks (tsqueue_pop q1 n out) = false
      /\ tsqueue_pop q3 n out
         = Wait (set_n_consumers_waiting q3
                   (SizeT.add (n_consumers_waiting q3) 1))
                [] consumer_wakeup).
Proof.
  intros q1 q2 q3. subst q1 q2 q3. simpl.
  split; [reflexivity |]. split; [reflexivity |].
  split; [destruct q; simpl; intros ->; reflexivity |].
  repeat (split; [reflexivity |]).
  intros Hd Hn. split.
  - destruct (blocks (tsqueue_pop (set_producers_done q true) n out)) eqn:E;
      [| reflexivity].
    apply pop_blocks_iff in E; [| simpl; lia].
    destruct E as (E & _). discriminate.
  - unfold tsqueue_pop; simpl.
    destruct (Z.ltb_spec (capacity q) n) as [Hbad | _]; [lia |]. simpl.
    unfold pop_loop; simpl. rewrite Hd.
    destruct (Z.ltb_spec (used q) n) as [_ | Hbad]; [| lia].
    reflexivity.
Qed.

Lemma set_done_idempotent_and_reversible_witness :
  tsqueue_pop
    (state_of
       (tsqueue_set_done
          (state_of
             (tsqueue_set_done
                (state_of
                   (tsqueue_set_done (sys_queue (created store4 4 1 0)) true))
                true))
          false))
    3 buf3
  = Wait (mk_tsqueue 4 0 1 store4 0 1 false false) [] consumer_wakeup.
Proof.
  assert (Hd : die (sys_queue (created store4 4 1 0)) = false)
    by reflexivity.
  assert (Hn : used (sys_queue (created store4 4 1 0)) < 3
               <= capacity (sys_queue (created store4 4 1 0)))
    by (simpl; lia).
  destruct (set_done_idempotent_and_reversible
              (sys_queue (created store4 4 1 0)) 3 buf3)
    as (_ & _ & _ & _ & _ & _ & H).
  exact (proj2 (H Hd Hn)).
Defined.

(** ** The valid region of the backing store *)

Lemma same_store_refl q : same_store q q.
Proof. repeat split. Qed.

Lemma same_store_trans q1 q2 q3 :
  same_store q1 q2 -> same_store q2 q3 -> same_store q1 q3.
Proof.
  unfold same_store. intros (A1 & A2 & A3 & A4) (B1 & B2 & B3 & B4).
  repeat split; congruence.
Qed.

Lemma same_store_wf q q' : same_store q q' -> wf_store q -> wf_store q'.
Proof.
  intros (H1 & H2 & H3 & H4) [W1 W2 W3 W4 W5].
  split; rewrite ?H1, ?H2, ?H3, ?H4; assumption.
Qed.

Lemma same_store_contents q q' : same_store q q' -> contents q' = contents q.
Proof.
  intros (H1 & H2 & H3 & H4). unfold contents. rewrite H2, H3, H4. reflexivity.
Qed.

Lemma scaled_le (a b es : Z) : 0 <= es -> a <= b -> a * es <= b * es.
Proof. intros. apply Z.mul_le_mono_nonneg_r; assumption. Qed.

Lemma scaled_nonneg (a es : Z) : 0 <= es -> 0 <= a -> 0 <= a * es.
Proof. intros. apply Z.mul_nonneg_nonneg; assumption. Qed.

Lemma mul_in_store q n :
  wf_store q -> 0 <= n <= capacity q ->
  SizeT.mul n (elem_size q) = n * elem_size q
  /\ 0 <= n * elem_size q <= capacity q * elem_size q.
Proof.
  intros [W1 W2 W3 W4 W5] [Hn0 Hn1].
  pose proof (scaled_le n (capacity q) (elem_size q) W1 Hn1).
  pose proof (scaled_nonneg n (elem_size q) W1 Hn0).
  split; [| lia].
  unfold SizeT.mul. apply SizeT_wrap_small. unfold SizeT.in_range. lia.
Qed.

Lemma contents_length q :
  wf_store q -> length (contents q) = bytes_of (elem_size q) (used q).
Proof.
  intros W. unfold contents, bytes_of. rewrite length_firstn.
  destruct (mul_in_store q (used q) W (wf_used q W)) as (_ & H).
  pose proof (wf_length q W). lia.
Qed.

(** *** What a copy into the queue does *)

Lemma put_copy_spec q n inp :
  wf_store q -> 0 <= n -> used q + n <= capacity q ->
  n * elem_size q <= Z.of_nat (length inp) ->
  exists q' sigs,
    put_copy n inp q 0 = Ret q' sigs 0
    /\ wf_store q'
    /\ capacity q' = capacity q /\ elem_size q' = elem_size q
    /\ used q' = used q + n
    /\ contents q' = contents q ++ firstn (bytes_of (elem_size q) n) inp
    /\ die q' = die q /\ producers_done q' = producers_done q
    /\ producer_n_elems q' = producer_n_elems q
    /\ n_consumers_waiting q' = n_consumers_waiting q.
Proof.
  intros W Hn Hroom Hinp. pose proof W as [W1 W2 W3 W4 W5].
  destruct (mul_in_store q (used q) W W2) as (Mu & Bu).
  destruct (mul_in_store q n W) as (Mn & Bn); [lia |].
  destruct (mul_in_store q (used q + n) W) as (_ & Bs); [lia |].
  assert (Hsum : (used q + n) * elem_size q
                 = used q * elem_size q + n * elem_size q) by ring.
  assert (Ha : SizeT.add (used q) n = used q + n).
  { unfold SizeT.add. apply SizeT_wrap_small. unfold SizeT.in_range. lia. }
  unfold put_copy. simpl. rewrite Mu, Mn, Ha.
  eexists. eexists. split; [reflexivity |].
  set (d := memcpy (data q) (used q * elem_size q) inp (n * elem_size q)).
  assert (Hpre : firstn (Z.to_nat (used q * elem_size q
                                   + n * elem_size q)) d
                 = firstn (Z.to_nat (used q * elem_size q)) (data q)
                     ++ firstn (Z.to_nat (n * elem_size q)) inp).
  { unfold d, memcpy.
    rewrite app_assoc.
    rewrite firstn_app.
    rewrite firstn_all2.
    - replace (_ - _)%nat with 0%nat.
      + rewrite firstn_0, app_nil_r. reflexivity.
      + rewrite length_app, !length_firstn. lia.
    - rewrite length_app, !length_firstn. lia. }
  assert (Hlen : length d = length (data q)).
  { unfold d, memcpy. rewrite !length_app, !length_firstn, length_skipn. lia. }
  split.
  - split; simpl; try assumption; try lia;
      try (rewrite Hlen; exact W5).
  - simpl. repeat split; try reflexivity.
    unfold contents, bytes_of; simpl. rewrite Hsum. exact Hpre.
Qed.

(** *** What a copy out of the queue does *)

Lemma pop_exit_spec q n out :
  wf_store q -> die q = false -> 0 <= n ->
  exists q' sigs,
    pop_exit q 0 n out
    = Ret q' sigs
          (mk_pop_result 0 (Z.min n (used q))
             (firstn (bytes_of (elem_size q) (Z.min n (used q))) (contents q)
                ++ skipn (bytes_of (elem_size q) (Z.min n (used q))) out))
    /\ wf_store q'
    /\ capacity q' = capacity q /\ elem_size q' = elem_size q
    /\ used q' = used q - Z.min n (used q)
    /\ contents q'
       = skipn (bytes_of (elem_size q) (Z.min n (used q))) (contents q)
    /\ die q' = die q /\ producers_done q' = producers_done q
    /\ producer_n_elems q' = producer_n_elems q
    /\ n_consumers_waiting q' = n_consumers_waiting q.
Proof.
  intros W Hd Hn. pose proof W as [W1 W2 W3 W4 W5].
  unfold pop_exit. rewrite Hd. simpl.
  assert (Hm : (if used q <? n then used q else n) = Z.min n (used q)).
  { destruct (Z.ltb_spec (used q) n); lia. }
  rewrite Hm. set (m := Z.min n (used q)).
  assert (Hm0 : 0 <= m <= used q) by (unfold m; lia).
  destruct (mul_in_store q (used q) W W2) as (Mu & Bu).
  destruct (mul_in_store q m W) as (Mm & Bm); [lia |].
  assert (Hs : SizeT.sub (used q) m = used q - m).
  { unfold SizeT.sub. apply SizeT_wrap_small. unfold SizeT.in_range. lia. }
  destruct (mul_in_store q (used q - m) W) as (Mr & Br); [lia |].
  assert (Hdiff : (used q - m) * elem_size q
                  = used q * elem_size q - m * elem_size q) by ring.
  pose proof (scaled_le m (used q) (elem_size q) W1 (proj2 Hm0)) as Hmu.
  rewrite Hs, Mm, Mr.
  eexists. eexists. split.
  - f_equal. f_equal.
    unfold memcpy, contents, bytes_of. simpl.
    rewrite firstn_firstn.
    replace (Init.Nat.min (Z.to_nat (m * elem_size q))
                          (Z.to_nat (used q * elem_size q)))
      with (Z.to_nat (m * elem_size q)) by lia.
    reflexivity.
  - set (d := memmove_down (data q) (m * elem_size q)
                           ((used q - m) * elem_size q)).
    assert (Hd' : d = firstn (Z.to_nat ((used q - m) * elem_size q))
                            (skipn (Z.to_nat (m * elem_size q)) (data q))
                       ++ skipn (Z.to_nat ((used q - m) * elem_size q))
                            (data q)).
    { unfold d, memmove_down, memcpy. simpl. reflexivity. }
    assert (Hlen : length d = length (data q)).
    { rewrite Hd'. rewrite length_app, length_firstn, !length_skipn. lia. }
    split.
    + split; simpl; try assumption; try lia;
        try (rewrite Hlen; exact W5).
    + simpl. repeat split; try reflexivity; try exact Hd.
      unfold contents, bytes_of; simpl. fold d. rewrite Hd'.
      rewrite firstn_app.
      rewrite (firstn_all2 (n := Z.to_nat ((used q - m) * elem_size q))
                           (firstn _ _)).
      * replace (_ - _)%nat with 0%nat.
        -- rewrite firstn_0, app_nil_r.
           rewrite skipn_firstn_comm. f_equal. lia.
        -- rewrite length_firstn, length_skipn. lia.
      * rewrite length_firstn. lia.
Qed.

(** *** The copies stay inside the arrays *)



(** ** The segments of [tsqueue_pop] *)

Lemma pop_exit_closed q retval n out :
  die q = true ->
  pop_exit q retval n out
  = Ret q (signal_if_all_dead q) (mk_pop_result TSQUEUE_CLOSED 0 out).
Proof. intros Hd. unfold pop_exit. rewrite Hd. reflexivity. Qed.

Lemma pop_exit_too_many q n out :
  die q = false ->
  pop_exit q TSQUEUE_TOO_MANY n out
  = Ret q [] (mk_pop_result TSQUEUE_TOO_MANY n out).
Proof. intros Hd. unfold pop_exit. rewrite Hd. reflexivity. Qed.

(** A closing queue answers every [tsqueue_pop], new or woken, with
    [TSQUEUE_CLOSED] and [*n_elems = 0], and touches neither the store
    nor the caller's buffer. *)
Lemma pop_loop_closed q n out :
  die q = true ->
  exists q' sigs,
    pop_loop q n out = Ret q' sigs (mk_pop_result TSQUEUE_CLOSED 0 out)
    /\ same_store q q' /\ die q' = true.
Proof.
  intros Hd. unfold pop_loop. rewrite Hd.
  rewrite andb_false_r. simpl.
  rewrite pop_exit_closed by exact Hd.
  eexists. eexists. split; [reflexivity |].
  split; [repeat split | exact Hd].
Qed.

Lemma tsqueue_pop_closed q n out :
  die q = true ->
  exists q' sigs,
    tsqueue_pop q n out = Ret q' sigs (mk_pop_result TSQUEUE_CLOSED 0 out)
    /\ same_store q q' /\ die q' = true.
Proof.
  intros Hd. unfold tsqueue_pop.
  destruct (capacity q <? n).
  - simpl. rewrite pop_exit_closed by exact Hd.
    eexists. eexists. split; [reflexivity |].
    split; [apply same_store_refl | exact Hd].
  - simpl.
    destruct (pop_loop_closed
                (set_n_consumers_waiting q
                   (SizeT.add (n_consumers_waiting q) 1)) n out Hd)
      as (q' & sigs & E & S & D).
    exists q', sigs. split; [exact E |]. split; [| exact D].
    destruct S as (S1 & S2 & S3 & S4). repeat split; assumption.
Qed.

(** A queue that is not closing: the loop either sleeps or hands out
    [min n used] elements. *)
Lemma pop_loop_open q n out :
  wf_store q -> die q = false -> 0 <= n ->
  (pop_loop q n out = Wait q [] consumer_wakeup
   /\ producers_done q = false /\ used q < n)
  \/ ((producers_done q = true \/ n <= used q)
      /\ exists q' sigs,
           pop_loop q n out
           = Ret q' sigs
               (mk_pop_result 0 (Z.min n (used q))
                  (firstn (bytes_of (elem_size q) (Z.min n (used q)))
                          (contents q)
                     ++ skipn (bytes_of (elem_size q) (Z.min n (used q)))
                              out))
           /\ wf_store q'
           /\ capacity q' = capacity q /\ elem_size q' = elem_size q
           /\ used q' = used q - Z.min n (used q)
           /\ contents q'
              = skipn (bytes_of (elem_size q) (Z.min n (used q))) (contents q)
           /\ die q' = false /\ producers_done q' = producers_done q
           /\ producer_n_elems q' = producer_n_elems q
           /\ n_consumers_waiting q'
              = SizeT.sub (n_consumers_waiting q) 1).
Proof.
  intros W Hd Hn. unfold pop_loop. rewrite Hd. simpl.
  rewrite andb_true_r.
  destruct (producers_done q) eqn:Hdone; simpl;
    [| destruct (Z.ltb_spec (used q) n) as [Hlt | Hge]].
  2: { left. repeat split; try reflexivity; exact Hlt. }
  all: right; split; [auto |].
  all: set (q1 := set_n_consumers_waiting q
                    (SizeT.sub (n_consumers_waiting q) 1)).
  all: assert (S1 : same_store q q1) by (repeat split).
  all: destruct (pop_exit_spec q1 n out (same_store_wf _ _ S1 W) Hd Hn)
         as (q' & sigs & E & W' & C1 & C2 & C3 & C4 & C5 & C6 & C7 & C8).
  all: exists q', sigs.
  all: rewrite (same_store_contents _ _ S1) in E, C4.
  all: simpl in *.
  all: split; [exact E |].
  all: repeat (split; [assumption |]).
  all: rewrite C5, C6, Hd, Hdone; repeat split; assumption.
Qed.

Lemma firstn_app_exact (l1 l2 : list byte) (k : nat) :
  (k <= length l1)%nat -> firstn k (firstn k l1 ++ l2) = firstn k l1.
Proof.
  intros Hk. rewrite firstn_app, length_firstn.
  replace (k - Init.Nat.min k (length l1))%nat with 0%nat by lia.
  rewrite firstn_0, app_nil_r, firstn_firstn.
  f_equal. lia.
Qed.

(** What any segment of [tsqueue_pop] does to the store. *)
Lemma pop_effect q n out o :
  wf_store q -> 0 <= n ->
  o = tsqueue_pop q n out \/ o = tsqueue_pop_resume q n out ->
  match o with
  | Wait q' _ _ => same_store q q' /\ die q' = die q
  | Ret q' _ r =>
      wf_store q' /\ capacity q' = capacity q /\ elem_size q' = elem_size q
      /\ die q' = die q
      /\ popped (elem_size q) (call_pop n out) (res_pop r) ++ contents q'
         = contents q
  end.
Proof.
  intros W Hn Ho.
  destruct (die q) eqn:Hd.
  - assert (Hc : exists q' sigs,
               o = Ret q' sigs (mk_pop_result TSQUEUE_CLOSED 0 out)
               /\ same_store q q' /\ die q' = true).
    { destruct Ho as [-> | ->].
      - apply tsqueue_pop_closed. exact Hd.
      - apply pop_loop_closed. exact Hd. }
    destruct Hc as (q' & sigs & -> & S & D).
    split; [exact (same_store_wf _ _ S W) |].
    destruct S as (S1 & S2 & S3 & S4).
    repeat (split; [assumption |]).
    simpl. apply same_store_contents. repeat split; assumption.
  - assert (Hloop : forall q1, same_store q q1 -> die q1 = false ->
               match pop_loop q1 n out with
               | Wait q' _ _ => same_store q q' /\ die q' = false
               | Ret q' _ r =>
                   wf_store q' /\ capacity q' = capacity q
                   /\ elem_size q' = elem_size q /\ die q' = false
                   /\ popped (elem_size q) (call_pop n out) (res_pop r)
                        ++ contents q'
                      = contents q
               end).
    { intros q1 S D1. pose proof (same_store_wf _ _ S W) as W1.
      pose proof (same_store_contents _ _ S) as Hcont.
      pose proof S as (S1 & S2 & S3 & S4).
      destruct (pop_loop_open q1 n out W1 D1 Hn)
        as [(E & _) | (_ & q' & sigs & E & W' & C1 & C2 & C3 & C4 & C5 & _)].
      - rewrite E. split; assumption.
      - rewrite E. split; [exact W' |].
        split; [congruence |]. split; [congruence |]. split; [exact C5 |].
        simpl. rewrite C4, Hcont, S2, S3.
        rewrite firstn_app_exact.
        + apply firstn_skipn.
        + rewrite contents_length by exact W.
          unfold bytes_of. pose proof (wf_used q W). pose proof (wf_elem_size q W).
          pose proof (scaled_le (Z.min n (used q)) (used q) (elem_size q)).
          lia. }
    destruct Ho as [-> | ->].
    + unfold tsqueue_pop. destruct (capacity q <? n); simpl.
      * rewrite pop_exit_too_many by exact Hd.
        split; [exact W |]. repeat (split; [reflexivity || assumption |]).
        reflexivity.
      * apply Hloop; [repeat split | exact Hd].
    + unfold tsqueue_pop_resume.
      apply Hloop; [apply same_store_refl | exact Hd].
Qed.

(** ** The segments of the producer side *)

Lemma wait_for_space_exit_eq q retval :
  wait_for_space_exit q retval
  = Ret q (if die q then signal_if_all_dead q else [])
        (if die q then TSQUEUE_CLOSED else retval).
Proof. unfold wait_for_space_exit. destruct (die q); reflexivity. Qed.

Lemma wait_for_space_loop_outcome q q1 n :
  same_store q q1 -> die q1 = die q ->
  space_outcome q n (wait_for_space_loop q1 n).
Proof.
  intros S D. pose proof S as (S1 & S2 & S3 & S4).
  assert (S0 : same_store q (set_producer_n_elems q1 0))
    by (repeat split; assumption).
  unfold wait_for_space_loop. rewrite S1, S3, D.
  destruct (die q) eqn:Hd; simpl.
  - rewrite wait_for_space_exit_eq. simpl. rewrite D.
    split; [exact S0 |]. split; [congruence |].
    split; [intros _; reflexivity | intros E0; discriminate E0].
  - destruct (Z.ltb_spec (SizeT.sub (capacity q) (used q)) n) as [Hlt | Hge].
    + simpl. split; [exact S |]. split; congruence.
    + rewrite wait_for_space_exit_eq. simpl. rewrite D.
      split; [exact S0 |]. split; [congruence |].
      split; [intros E0; congruence | intros _; exact Hge].
Qed.

Lemma wait_for_space_internal_outcome q n :
  space_outcome q n (wait_for_space_internal q n).
Proof.
  unfold wait_for_space_internal.
  match goal with
  | |- context [if ?r =? 0 then _ else _] => destruct (Z.eqb_spec r 0) as [E | E]
  end.
  - apply wait_for_space_loop_outcome; repeat split.
  - rewrite wait_for_space_exit_eq. simpl.
    split; [apply same_store_refl |]. split; [reflexivity |].
    destruct (die q).
    + split; [intros _; reflexivity | intros E0; discriminate E0].
    + split; [intros E0; discriminate E0 | intros E0; contradiction].
Qed.

(** What any segment of [tsqueue_put] does to the store. *)
Lemma put_effect q n inp o :
  wf_store q -> 0 <= n -> n * elem_size q <= Z.of_nat (length inp) ->
  space_outcome q n o ->
  match and_then o (put_copy n inp) with
  | Wait q' _ _ => same_store q q' /\ die q' = die q
  | Ret q' _ retval =>
      wf_store q' /\ capacity q' = capacity q /\ elem_size q' = elem_size q
      /\ die q' = die q
      /\ (die q = true -> retval = TSQUEUE_CLOSED)
      /\ (retval <> 0 -> same_store q q')
      /\ (retval = 0 -> used q' = used q + n)
      /\ contents q'
         = contents q ++ inserted (elem_size q) (call_put n inp)
                                  (res_status retval)
  end.
Proof.
  intros W Hn Hinp Ho. destruct o as [q1 sigs retval | q1 sigs c]; simpl in *.
  - destruct Ho as (S & D & Hc & Hz).
    pose proof S as (S1 & S2 & S3 & S4).
    pose proof (same_store_wf _ _ S W) as W1.
    unfold put_copy at 1.
    destruct (Z.eqb_spec retval 0) as [E | E].
    + subst retval. specialize (Hz eq_refl).
      assert (Hsub : SizeT.sub (capacity q) (used q) = capacity q - used q).
      { unfold SizeT.sub. apply SizeT_wrap_small. unfold SizeT.in_range.
        pose proof (wf_used q W). pose proof (wf_capacity q W). lia. }
      destruct (put_copy_spec q1 n inp W1 Hn) as
        (q' & sigs' & E' & W' & C1 & C2 & C3 & C4 & C5 & _);
        [rewrite S1, S3; lia | rewrite S2; exact Hinp |].
      unfold put_copy in E'. simpl in E'. injection E' as <- <-.
      split; [exact W' |].
      split; [congruence |]. split; [congruence |]. split; [congruence |].
      split; [exact Hc |]. split; [intros Hbad; contradiction Hbad; reflexivity |].
      split; [intros _; rewrite C3, S3; reflexivity |].
      rewrite C4, (same_store_contents _ _ S), S2. reflexivity.
    + split; [exact W1 |].
      split; [exact S1 |]. split; [exact S2 |]. split; [exact D |].
      split; [exact Hc |]. split; [intros _; exact S |].
      split; [intros E0; contradiction |].
      destruct (Z.eqb_spec retval 0) as [E0 | _]; [contradiction |].
      rewrite app_nil_r. apply same_store_contents. exact S.
  - destruct Ho as (S & D & _). split; assumption.
Qed.

(** ** The effect of one segment of any call *)

Ltac split_ifs :=
  repeat match goal with
    | |- context [if ?b then _ else _] => destruct b; simpl
    end.

Lemma close_loop_frame q :
  same_store q (state_of (close_loop q))
  /\ die (state_of (close_loop q)) = die q.
Proof. unfold close_loop. split_ifs; repeat split. Qed.

Lemma tsqueue_close_frame q :
  same_store q (state_of (tsqueue_close q))
  /\ die (state_of (tsqueue_close q)) = true.
Proof. unfold tsqueue_close, and_then, close_loop. simpl. split_ifs; repeat split. Qed.

Lemma tsqueue_destroy_frame q :
  same_store q (state_of (tsqueue_destroy q))
  /\ die (state_of (tsqueue_destroy q)) = true.
Proof.
  unfold tsqueue_destroy, tsqueue_close, and_then, close_loop, destroy_release.
  simpl. split_ifs; repeat split.
Qed.

Lemma tsqueue_destroy_resume_frame q :
  same_store q (state_of (tsqueue_destroy_resume q))
  /\ die (state_of (tsqueue_destroy_resume q)) = die q.
Proof.
  unfold tsqueue_destroy_resume, tsqueue_close_resume, and_then, close_loop,
    destroy_release.
  simpl. split_ifs; repeat split.
Qed.

(** Segments that leave the store alone. *)
Lemma frame_effect (c : call) (q : tsqueue) (o : outcome result) :
  same_store q (state_of o) ->
  (forall q' sigs r, o = Ret q' sigs r ->
     popped (elem_size q) c r = [] /\ inserted (elem_size q) c r = []) ->
  wf_store q ->
  wf_store (state_of o)
  /\ capacity (state_of o) = capacity q
  /\ elem_size (state_of o) = elem_size q
  /\ match o with
     | Ret q' _ r =>
         popped (elem_size q) c r ++ contents q'
         = contents q ++ inserted (elem_size q) c r
     | Wait q' _ _ => contents q' = contents q
     end.
Proof.
  intros S Hr W. split; [exact (same_store_wf _ _ S W) |].
  pose proof (same_store_contents _ _ S) as Hc.
  destruct S as (S1 & S2 & _).
  split; [exact S1 |]. split; [exact S2 |].
  destruct o as [q' sigs r | q' sigs cv]; simpl in *.
  - destruct (Hr q' sigs r eq_refl) as (-> & ->).
    rewrite app_nil_r. exact Hc.
  - exact Hc.
Qed.

Lemma segment_effect c q o :
  wf_store q -> call_ok (elem_size q) c ->
  o = enter c q \/ o = resume c q ->
  wf_store (state_of o)
  /\ capacity (state_of o) = capacity q
  /\ elem_size (state_of o) = elem_size q
  /\ match o with
     | Ret q' _ r =>
         popped (elem_size q) c r ++ contents q'
         = contents q ++ inserted (elem_size q) c r
     | Wait q' _ _ => contents q' = contents q
     end.
Proof.
  intros W Hok Ho.
  destruct c as [| n | n inp | n out | done | |]; simpl in Hok, Ho.
  - (* capacity *)
    apply frame_effect; [| | exact W].
    + destruct Ho as [-> | ->]; apply same_store_refl.
    + intros; split; reflexivity.
  - (* wait_for_space *)
    apply frame_effect; [| | exact W].
    + assert (Hs : exists o', o = map_outcome res_status o'
                              /\ space_outcome q n o').
      { destruct Ho as [-> | ->]; eexists; (split; [reflexivity |]).
        - apply wait_for_space_internal_outcome.
        - apply wait_for_space_loop_outcome;
            [apply same_store_refl | reflexivity]. }
      destruct Hs as (o' & -> & Hs).
      destruct o'; simpl in *; apply Hs.
    + intros; split; reflexivity.
  - (* put *)
    destruct Hok as ((Hn & _) & Hinp).
    assert (Hs : exists o', o = map_outcome res_status
                                  (and_then o' (put_copy n inp))
                            /\ space_outcome q n o').
    { destruct Ho as [-> | ->]; eexists; (split; [reflexivity |]).
      - apply wait_for_space_internal_outcome.
      - apply wait_for_space_loop_outcome;
          [apply same_store_refl | reflexivity]. }
    destruct Hs as (o' & -> & Hs).
    pose proof (put_effect q n inp o' W Hn Hinp Hs) as He.
    destruct (and_then o' (put_copy n inp)) as [q' sigs r | q' sigs cv];
      simpl in *.
    + destruct He as (W' & C1 & C2 & _ & _ & _ & _ & C).
      repeat (split; [assumption |]). exact C.
    + destruct He as (S & _).
      split; [exact (same_store_wf _ _ S W) |].
      split; [apply S |]. split; [apply S |].
      apply same_store_contents. exact S.
  - (* pop *)
    destruct Hok as ((Hn & _) & _).
    assert (Hs : exists o', o = map_outcome res_pop o'
                            /\ (o' = tsqueue_pop q n out
                                \/ o' = tsqueue_pop_resume q n out)).
    { destruct Ho as [-> | ->]; eexists; (split; [reflexivity |]); auto. }
    destruct Hs as (o' & -> & Hs).
    pose proof (pop_effect q n out o' W Hn Hs) as He.
    destruct o' as [q' sigs r | q' sigs cv]; simpl in *.
    + destruct He as (W' & C1 & C2 & _ & C).
      repeat (split; [assumption |]). rewrite app_nil_r. exact C.
    + destruct He as (S & _).
      split; [exact (same_store_wf _ _ S W) |].
      split; [apply S |]. split; [apply S |].
      apply same_store_contents. exact S.
  - (* set_done *)
    apply frame_effect; [| | exact W].
    + destruct Ho as [-> | ->]; repeat split.
    + intros; split; reflexivity.
  - (* close *)
    apply frame_effect; [| | exact W].
    + destruct Ho as [-> | ->].
      * pose proof (tsqueue_close_frame q) as (S & _).
        destruct (tsqueue_close q); exact S.
      * pose proof (close_loop_frame q) as (S & _).
        unfold tsqueue_close_resume. destruct (close_loop q); exact S.
    + intros; split; reflexivity.
  - (* destroy *)
    apply frame_effect; [| | exact W].
    + destruct Ho as [-> | ->].
      * pose proof (tsqueue_destroy_frame q) as (S & _).
        destruct (tsqueue_destroy q); exact S.
      * pose proof (tsqueue_destroy_resume_frame q) as (S & _).
        destruct (tsqueue_destroy_resume q); exact S.
    + intros; split; reflexivity.
Qed.

(** ** Invariants of the interleaving semantics *)

Lemma step_invariant s ev s' :
  wf_system s -> sys_step s ev s' ->
  wf_system s'
  /\ capacity (sys_queue s') = capacity (sys_queue s)
  /\ elem_size (sys_queue s') = elem_size (sys_queue s)
  /\ all_popped (elem_size (sys_queue s)) [ev] ++ contents (sys_queue s')
     = contents (sys_queue s) ++ all_inserted (elem_size (sys_queue s)) [ev].
Proof.
  intros (W & Hpool) Hstep. unfold all_popped, all_inserted.
  inversion Hstep as [q pool c q' sigs r Hok E
                     | q pool c q' sigs cv Hok E
                     | q pool1 c pool2 q' sigs r E
                     | q pool1 c pool2 q' sigs cv E]; subst; simpl in *.
  - destruct (segment_effect c q (enter c q) W Hok (or_introl eq_refl))
      as (W' & C1 & C2 & C3).
    rewrite E in *. simpl in *. unfold wf_system; simpl.
    split; [split; [exact W' | rewrite C2; exact Hpool] |].
    rewrite !app_nil_r. auto.
  - destruct (segment_effect c q (enter c q) W Hok (or_introl eq_refl))
      as (W' & C1 & C2 & C3).
    rewrite E in *. simpl in *. unfold wf_system; simpl.
    split; [split; [exact W' | rewrite C2; constructor; assumption] |].
    rewrite !app_nil_r. auto.
  - assert (Hok : call_ok (elem_size q) c).
    { apply Forall_app in Hpool. destruct Hpool as (_ & Hp).
      inversion Hp; assumption. }
    destruct (segment_effect c q (resume c q) W Hok (or_intror eq_refl))
      as (W' & C1 & C2 & C3).
    rewrite E in *. simpl in *. unfold wf_system; simpl.
    split.
    + split; [exact W' |]. rewrite C2.
      apply Forall_app in Hpool. destruct Hpool as (Hp1 & Hp2).
      apply Forall_app. split; [exact Hp1 |]. inversion Hp2; assumption.
    + rewrite !app_nil_r. auto.
  - assert (Hok : call_ok (elem_size q) c).
    { apply Forall_app in Hpool. destruct Hpool as (_ & Hp).
      inversion Hp; assumption. }
    destruct (segment_effect c q (resume c q) W Hok (or_intror eq_refl))
      as (W' & C1 & C2 & C3).
    rewrite E in *. simpl in *. unfold wf_system; simpl.
    split; [split; [exact W' | rewrite C2; exact Hpool] |].
    rewrite !app_nil_r. auto.
Qed.

Lemma run_invariant s evs s' :
  wf_system s -> sys_run s evs s' ->
  wf_system s'
  /\ capacity (sys_queue s') = capacity (sys_queue s)
  /\ elem_size (sys_queue s') = elem_size (sys_queue s)
  /\ all_popped (elem_size (sys_queue s)) evs ++ contents (sys_queue s')
     = contents (sys_queue s) ++ all_inserted (elem_size (sys_queue s)) evs.
Proof.
  intros W Hrun. induction Hrun as [s | s evs s1 ev s2 Hrun IH Hstep].
  - split; [exact W |]. split; [reflexivity |]. split; [reflexivity |].
    simpl. rewrite app_nil_r. reflexivity.
  - destruct (IH W) as (W1 & C1 & C2 & C3).
    destruct (step_invariant s1 ev s2 W1 Hstep) as (W2 & D1 & D2 & D3).
    split; [exact W2 |]. split; [congruence |]. split; [congruence |].
    unfold all_popped, all_inserted in *.
    rewrite !flat_map_app. rewrite C2 in D3.
    rewrite <- app_assoc, D3, !app_assoc, C3. reflexivity.
Qed.

(** A queue as [tsqueue_create] makes it, over a backing store of
    [cap] elements of [es] bytes of which the first [preloaded] are
    valid. *)
Lemma created_wf data cap es preloaded :
  0 <= es -> 0 <= preloaded <= cap ->
  cap < SizeT.modulus -> cap * es < SizeT.modulus ->
  Z.of_nat (length data) = cap * es ->
  wf_system (created data cap es preloaded).
Proof.
  intros H1 H2 H3 H4 H5. split; [| constructor].
  split; simpl; assumption.
Qed.

Lemma run_cons s ev s1 evs s2 :
  sys_step s ev s1 -> sys_run s1 evs s2 -> sys_run s (ev :: evs) s2.
Proof.
  intros Hstep Hrun. induction Hrun as [s1 | s1 evs s2 ev' s3 Hrun IH Hstep'].
  - change [ev] with ([] ++ [ev]). eapply run_snoc; [apply run_nil | exact Hstep].
  - rewrite app_comm_cons. eapply run_snoc; [apply IH; exact Hstep | exact Hstep'].
Qed.

(** Building the run of a given list of events. *)
Ltac solve_call_ok :=
  first [ exact I | repeat split; vm_compute; congruence ].

Ltac run_returns :=
  eapply run_cons;
  [ eapply step_call_return; [ solve_call_ok | vm_compute; reflexivity ] | ].

Ltac run_blocks :=
  eapply run_cons;
  [ eapply step_call_block; [ solve_call_ok | vm_compute; reflexivity ] | ].

(** C6: in every interleaving of calls on a queue created with
    [preloaded <= capacity] over an array of [capacity] elements,
    [0 <= used <= capacity] holds after every segment, and [capacity]
    and [elem_size] keep the values given at creation. *)
Theorem capacity_invariant data cap es preloaded evs s :
  0 <= es -> 0 <= preloaded <= cap ->
  cap < SizeT.modulus -> cap * es < SizeT.modulus ->
  Z.of_nat (length data) = cap * es ->
  sys_run (created data cap es preloaded) evs s ->
  0 <= used (sys_queue s) <= capacity (sys_queue s)
  /\ capacity (sys_queue s) = cap
  /\ elem_size (sys_queue s) = es.
Proof.
  intros H1 H2 H3 H4 H5 Hrun.
  destruct (run_invariant _ _ _ (created_wf data cap es preloaded H1 H2 H3 H4 H5)
              Hrun) as ((W & _) & C1 & C2 & _).
  split; [exact (wf_used _ W) |]. split; assumption.
Qed.

Lemma capacity_invariant_witness :
  exists s,
    sys_run (created store4 4 1 3)
      [ev_return (call_put 1 [x07]) (res_status 0);
       ev_block (call_put 2 [x08; x09]);
       ev_return (call_pop 3 buf3)
         (res_pop (mk_pop_result 0 3 [x00; x00; x00]))]
      s
    /\ 0 <= used (sys_queue s) <= capacity (sys_queue s)
    /\ capacity (sys_queue s) = 4
    /\ elem_size (sys_queue s) = 1.
Proof.
  eexists.
  match goal with |- ?R /\ _ => assert (Hrun : R) end.
  { run_returns. run_blocks. run_returns. apply run_nil. }
  split; [exact Hrun |].
  apply (capacity_invariant store4 4 1 3 _ _
           ltac:(lia) ltac:(lia)
           ltac:(rewrite SizeT_modulus_eq; lia)
           ltac:(rewrite SizeT_modulus_eq; lia)
           eq_refl Hrun).
Defined.

(** C5: FIFO order.  In every interleaving of calls, the elements the
    [tsqueue_pop] calls have handed out (in the order of their returns)
    followed by the elements still in the queue are the elements the
    queue was created with followed by the elements the successful
    [tsqueue_put] calls have inserted (in the order of their returns),
    whatever the batch sizes on either side.  In particular every segment
    takes elements from the front only and appends them at the back
    only. *)
Theorem fifo_order data cap es preloaded evs s :
  0 <= es -> 0 <= preloaded <= cap ->
  cap < SizeT.modulus -> cap * es < SizeT.modulus ->
  Z.of_nat (length data) = cap * es ->
  sys_run (created data cap es preloaded) evs s ->
  all_popped es evs ++ contents (sys_queue s)
  = firstn (bytes_of es preloaded) data ++ all_inserted es evs
  /\ forall ev s',
       sys_step s ev s' ->
       all_popped es [ev] ++ contents (sys_queue s')
       = contents (sys_queue s) ++ all_inserted es [ev].
Proof.
  intros H1 H2 H3 H4 H5 Hrun.
  destruct (run_invariant _ _ _ (created_wf data cap es preloaded H1 H2 H3 H4 H5)
              Hrun) as (W & _ & C2 & C3).
  split; [exact C3 |].
  intros ev s' Hstep.
  destruct (step_invariant s ev s' W Hstep) as (_ & _ & _ & D).
  simpl in C2. rewrite C2 in D. exact D.
Qed.

Lemma fifo_order_witness :
  exists s,
    sys_run (created store4 4 1 0)
      [ev_return (call_put 3 [x01; x02; x03]) (res_status 0);
       ev_return (call_pop 1 [x00]) (res_pop (mk_pop_result 0 1 [x01]));
       ev_return (call_pop 2 [x00; x00])
         (res_pop (mk_pop_result 0 2 [x02; x03]))]
      s
    /\ [x01] ++ [x02; x03] ++ contents (sys_queue s) = [x01; x02; x03].
Proof.
  eexists.
  match goal with |- ?R /\ _ => assert (Hrun : R) end.
  { run_returns. run_returns. run_returns. apply run_nil. }
  split; [exact Hrun |].
  exact (proj1 (fifo_order store4 4 1 0 _ _
                  ltac:(lia) ltac:(lia)
                  ltac:(rewrite SizeT_modulus_eq; lia)
                  ltac:(rewrite SizeT_modulus_eq; lia)
                  eq_refl Hrun)).
Defined.

(** ** A closing queue *)

Lemma closed_effect c q o :
  die q = true ->
  o = enter c q \/ o = resume c q ->
  same_store q (state_of o)
  /\ die (state_of o) = true
  /\ match o with
     | Ret _ _ r => closed_answer c r
     | Wait _ _ _ => c = call_close \/ c = call_destroy
     end.
Proof.
  intros Hd Ho.
  destruct c as [| n | n inp | n out | done | |]; simpl in Ho.
  - destruct Ho as [-> | ->]; simpl; repeat split; exact Hd.
  - assert (Hs : exists o', o = map_outcome res_status o'
                            /\ space_outcome q n o').
    { destruct Ho as [-> | ->]; eexists; (split; [reflexivity |]).
      - apply wait_for_space_internal_outcome.
      - apply wait_for_space_loop_outcome;
          [apply same_store_refl | reflexivity]. }
    destruct Hs as (o' & -> & Hs).
    destruct o' as [q' sigs rv | q' sigs cv]; simpl in *.
    + destruct Hs as (S & D & Hc & _).
      split; [exact S |]. split; [congruence |].
      rewrite (Hc Hd). reflexivity.
    + destruct Hs as (_ & _ & Hbad). congruence.
  - assert (Hs : exists o', o = map_outcome res_status
                                  (and_then o' (put_copy n inp))
                            /\ space_outcome q n o').
    { destruct Ho as [-> | ->]; eexists; (split; [reflexivity |]).
      - apply wait_for_space_internal_outcome.
      - apply wait_for_space_loop_outcome;
          [apply same_store_refl | reflexivity]. }
    destruct Hs as (o' & -> & Hs).
    destruct o' as [q' sigs rv | q' sigs cv]; simpl in *.
    + destruct Hs as (S & D & Hc & _).
      rewrite (Hc Hd). simpl.
      split; [exact S |]. split; [congruence | reflexivity].
    + destruct Hs as (_ & _ & Hbad). congruence.
  - assert (Hc : exists q' sigs,
               o = Ret q' sigs (res_pop (mk_pop_result TSQUEUE_CLOSED 0 out))
               /\ same_store q q' /\ die q' = true).
    { destruct Ho as [-> | ->].
      - destruct (tsqueue_pop_closed q n out Hd) as (q' & sigs & E & S & D).
        exists q', sigs. rewrite E. repeat split; try apply S; assumption.
      - destruct (pop_loop_closed q n out Hd) as (q' & sigs & E & S & D).
        exists q', sigs. unfold tsqueue_pop_resume. rewrite E.
        repeat split; try apply S; assumption. }
    destruct Hc as (q' & sigs & -> & S & D). simpl.
    split; [exact S |]. split; [exact D | reflexivity].
  - destruct Ho as [-> | ->]; simpl; repeat split; exact Hd.
  - destruct Ho as [-> | ->].
    + pose proof (tsqueue_close_frame q) as (S & D).
      destruct (tsqueue_close q); simpl in *; repeat split; auto; apply S.
    + pose proof (close_loop_frame q) as (S & D). rewrite Hd in D.
      unfold tsqueue_close_resume.
      destruct (close_loop q); simpl in *; repeat split; auto; apply S.
  - destruct Ho as [-> | ->].
    + pose proof (tsqueue_destroy_frame q) as (S & D).
      destruct (tsqueue_destroy q); simpl in *; repeat split; auto; apply S.
    + pose proof (tsqueue_destroy_resume_frame q) as (S & D). rewrite Hd in D.
      destruct (tsqueue_destroy_resume q); simpl in *; repeat split; auto;
        apply S.
Qed.

Lemma closed_step s ev s' :
  die (sys_queue s) = true -> sys_step s ev s' ->
  same_store (sys_queue s) (sys_queue s')
  /\ die (sys_queue s') = true
  /\ closed_event ev.
Proof.
  intros Hd Hstep.
  inversion Hstep as [q pool c q' sigs r Hok E
                     | q pool c q' sigs cv Hok E
                     | q pool1 c pool2 q' sigs r E
                     | q pool1 c pool2 q' sigs cv E]; subst; simpl in *.
  - pose proof (closed_effect c q _ Hd (or_introl eq_refl)) as H.
    rewrite E in H. exact H.
  - pose proof (closed_effect c q _ Hd (or_introl eq_refl)) as H.
    rewrite E in H. exact H.
  - pose proof (closed_effect c q _ Hd (or_intror eq_refl)) as H.
    rewrite E in H. exact H.
  - pose proof (closed_effect c q _ Hd (or_intror eq_refl)) as H.
    rewrite E in H. exact H.
Qed.

(** C7: [tsqueue_close] sets [die], and from a state in which [die] is
    set, whatever calls are made or woken afterwards, in any
    interleaving: [die] stays set; [used] and the backing store do not
    change; every [tsqueue_pop] returns [TSQUEUE_CLOSED] with
    [*n_elems = 0] and the caller's buffer as it was; every
    [tsqueue_wait_for_space] and [tsqueue_put] returns
    [TSQUEUE_CLOSED]; and none of these calls goes to sleep. *)
Theorem closing_is_terminal s evs s' :
  die (sys_queue s) = true ->
  sys_run s evs s' ->
  die (sys_queue s') = true
  /\ used (sys_queue s') = used (sys_queue s)
  /\ data (sys_queue s') = data (sys_queue s)
  /\ Forall closed_event evs
  /\ forall q, die (state_of (tsqueue_close q)) = true.
Proof.
  intros Hd Hrun.
  assert (H : same_store (sys_queue s) (sys_queue s')
              /\ die (sys_queue s') = true /\ Forall closed_event evs).
  { induction Hrun as [s | s evs s1 ev s2 Hrun IH Hstep].
    - split; [apply same_store_refl |]. split; [exact Hd | constructor].
    - destruct (IH Hd) as (S1 & D1 & F1).
      destruct (closed_step s1 ev s2 D1 Hstep) as (S2 & D2 & F2).
      split; [exact (same_store_trans _ _ _ S1 S2) |].
      split; [exact D2 |].
      apply Forall_app. split; [exact F1 | constructor; [exact F2 | constructor]]. }
  destruct H as ((_ & _ & S3 & S4) & D & F).
  repeat (split; [assumption |]).
  intros q. apply tsqueue_close_frame.
Qed.

Lemma closing_is_terminal_witness :
  exists s,
    sys_run (mk_system closed_queue [] false)
      [ev_return (call_pop 1 [x00])
         (res_pop (mk_pop_result TSQUEUE_CLOSED 0 [x00]));
       ev_return (call_put 1 [x01]) (res_status TSQUEUE_CLOSED);
       ev_return (call_wait_for_space 1) (res_status TSQUEUE_CLOSED)]
      s
    /\ die (sys_queue s) = true
    /\ used (sys_queue s) = 0
    /\ data (sys_queue s) = store4.
Proof.
  eexists.
  match goal with |- ?R /\ _ => assert (Hrun : R) end.
  { run_returns. run_returns. run_returns. apply run_nil. }
  split; [exact Hrun |].
  destruct (closing_is_terminal (mk_system closed_queue [] false) _ _
              eq_refl Hrun) as (H1 & H2 & H3 & _).
  repeat split; assumption.
Defined.

(** ** Partial batches *)

Ltac solve_wf_store := split; repeat split; vm_compute; congruence.

(** The scenario of the specification, for one-byte elements [a] and [b],
    any initial bytes in the store and in the consumer's buffers. *)
Example partial_drain_scenario (a b d0 d1 d2 d3 d4 o0 o1 o2 o3 o4 p0 : byte) :
  exists q1 q2 q3 q4 s1 s2 s3 s4,
    tsqueue_put (sys_queue (created [d0; d1; d2; d3; d4] 5 1 0)) 2 [a; b]
    = Ret q1 s1 0
    /\ tsqueue_set_done q1 true = Ret q2 s2 tt
    /\ tsqueue_pop q2 5 [o0; o1; o2; o3; o4]
       = Ret q3 s3 (mk_pop_result 0 2 [a; b; o2; o3; o4])
    /\ tsqueue_pop q3 1 [p0] = Ret q4 s4 (mk_pop_result 0 0 [p0])
    /\ used q4 = 0.
Proof.
  do 8 eexists.
  split; [vm_compute; reflexivity |].
  split; [vm_compute; reflexivity |].
  split; [vm_compute; reflexivity |].
  split; vm_compute; reflexivity.
Qed.

(** C4 (counterexample): with [producers_done] set and the queue not
    closing, a [tsqueue_pop] asking for 6 elements of a queue of capacity
    5 that holds 2 is rejected with [TSQUEUE_TOO_MANY] and leaves
    [*n_elems] at 6, which is not [min (6, used) = 2]. *)
Lemma partial_batch_counterexample :
  producers_done drained_queue = true
  /\ die drained_queue = false
  /\ capacity drained_queue = 5
  /\ used drained_queue = 2
  /\ tsqueue_pop drained_queue 6 [x00; x00; x00; x00; x00; x00]
     = Ret drained_queue []
           (mk_pop_result TSQUEUE_TOO_MANY 6 [x00; x00; x00; x00; x00; x00])
  /\ 6 <> Z.min 6 (used drained_queue)
  /\ TSQUEUE_TOO_MANY <> 0.
Proof.
  repeat split; try (vm_compute; reflexivity); vm_compute; discriminate.
Qed.

(** C4 (amended): once [producers_done] is set and the queue is not
    closing, a [tsqueue_pop] with [n_elems <= capacity] returns 0 without
    sleeping, with [*n_elems = min (n_elems, used)]; it copies that many
    elements, first in first out, to the front of [out] and removes them
    from the queue.  A [tsqueue_pop] with [n_elems > capacity] returns
    [TSQUEUE_TOO_MANY] without sleeping and changes nothing. *)
Theorem partial_batch_policy q n out :
  wf_store q ->
  producers_done q = true -> die q = false ->
  0 <= n ->
  (n <= capacity q ->
   exists q' sigs,
     tsqueue_pop q n out
     = Ret q' sigs
         (mk_pop_result 0 (Z.min n (used q))
            (firstn (bytes_of (elem_size q) (Z.min n (used q))) (contents q)
               ++ skipn (bytes_of (elem_size q) (Z.min n (used q))) out))
     /\ used q' = used q - Z.min n (used q)
     /\ contents q'
        = skipn (bytes_of (elem_size q) (Z.min n (used q))) (contents q)
     /\ wf_store q' /\ producers_done q' = true /\ die q' = false)
  /\ (capacity q < n ->
      tsqueue_pop q n out = Ret q [] (mk_pop_result TSQUEUE_TOO_MANY n out)).
Proof.
  intros W Hdone Hd Hn. split.
  - intros Hcap. unfold tsqueue_pop.
    destruct (Z.ltb_spec (capacity q) n) as [Hbad | _]; [lia |]. simpl.
    set (q1 := set_n_consumers_waiting q
                 (SizeT.add (n_consumers_waiting q) 1)).
    assert (S1 : same_store q q1) by (repeat split).
    destruct (pop_loop_open q1 n out (same_store_wf _ _ S1 W) Hd Hn)
      as [(_ & Hbad & _)
         | (_ & q' & sigs & E & W' & C1 & C2 & C3 & C4 & C5 & C6 & _)].
    + simpl in Hbad. congruence.
    + rewrite (same_store_contents _ _ S1) in E, C4. simpl in *.
      exists q', sigs. split; [exact E |].
      repeat (split; [assumption |]). split; [congruence | exact C5].
  - intros Hcap. unfold tsqueue_pop.
    destruct (Z.ltb_spec (capacity q) n) as [_ | Hbad]; [| lia]. simpl.
    apply pop_exit_too_many. exact Hd.
Qed.

Lemma partial_batch_policy_witness :
  (exists q3 s3,
     tsqueue_pop drained_queue 5 [x00; x00; x00; x00; x00]
     = Ret q3 s3 (mk_pop_result 0 2 [x61; x62; x00; x00; x00])
     /\ used q3 = 0)
  /\ (exists q4 s4,
        tsqueue_pop
          (state_of (tsqueue_pop drained_queue 5 [x00; x00; x00; x00; x00]))
          1 [x00]
        = Ret q4 s4 (mk_pop_result 0 0 [x00])).
Proof.
  split.
  - assert (W : wf_store drained_queue) by solve_wf_store.
    destruct (partial_batch_policy drained_queue 5 [x00; x00; x00; x00; x00]
                W eq_refl eq_refl ltac:(lia))
      as (H & _).
    destruct H as (q' & sigs & E & U & _); [simpl; lia |].
    exists q', sigs. split; [exact E | exact U].
  - assert (W : wf_store
                  (state_of (tsqueue_pop drained_queue 5
                                         [x00; x00; x00; x00; x00])))
      by solve_wf_store.
    destruct (partial_batch_policy _ 1 [x00] W eq_refl eq_refl ltac:(lia))
      as (H & _).
    destruct H as (q' & sigs & E & _); [vm_compute; congruence |].
    exists q', sigs. exact E.
Defined.

(** ** Destruction *)

Lemma destroy_cases q o :
  o = tsqueue_destroy q \/ o = tsqueue_destroy_resume q ->
  (blocks o = true
   /\ producer_n_elems q <> 0 /\ n_consumers_waiting q <> 0)
  \/ (exists q' sigs,
        o = Ret q' sigs (mk_destroy_result (used q) destroy_events)
        /\ same_store q q'
        /\ (producer_n_elems q = 0 \/ n_consumers_waiting q = 0)).
Proof.
  intros [-> | ->];
    unfold tsqueue_destroy, tsqueue_destroy_resume, tsqueue_close,
      tsqueue_close_resume, and_then, close_loop, destroy_release; simpl;
    destruct (Z.eqb_spec (producer_n_elems q) 0) as [Hp | Hp];
    destruct (Z.eqb_spec (n_consumers_waiting q) 0) as [Hc | Hc]; simpl;
    try (left; repeat split; assumption);
    right; eexists; eexists; (split; [reflexivity |]);
    (split; [repeat split | auto]).
Qed.

(** A [tsqueue_pop] of no more elements than the queue holds does not
    sleep and hands out the front of the backing store. *)
Lemma pop_available q m out :
  wf_store q -> die q = false -> 0 <= m <= used q ->
  exists q' sigs,
    tsqueue_pop q m out
    = Ret q' sigs
        (mk_pop_result 0 m
           (firstn (bytes_of (elem_size q) m) (data q)
              ++ skipn (bytes_of (elem_size q) m) out)).
Proof.
  intros W Hd Hm. pose proof (wf_used q W) as Hu.
  pose proof (wf_elem_size q W) as Hes.
  unfold tsqueue_pop.
  destruct (Z.ltb_spec (capacity q) m) as [Hbad | _]; [lia |]. simpl.
  set (q1 := set_n_consumers_waiting q (SizeT.add (n_consumers_waiting q) 1)).
  assert (S1 : same_store q q1) by (repeat split).
  destruct (pop_loop_open q1 m out (same_store_wf _ _ S1 W) Hd)
    as [(_ & _ & Hbad) | (_ & q' & sigs & E & _)]; [lia | simpl in Hbad; lia |].
  rewrite (same_store_contents _ _ S1) in E. simpl in E.
  replace (Z.min m (used q)) with m in E by lia.
  exists q', sigs. rewrite E. do 3 f_equal.
  unfold contents, bytes_of. rewrite firstn_firstn. f_equal.
  pose proof (scaled_le m (used q) (elem_size q) Hes (proj2 Hm)). lia.
Qed.

(** The scenario of the specification, for one-byte elements [x] and [y]
    and any initial bytes in the store and in the consumer's buffer. *)
Example destroy_scenario (x y d0 d1 d2 d3 o0 : byte) :
  exists q1 q2 q3 s1 s2 s3,
    tsqueue_put (sys_queue (created [d0; d1; d2; d3] 4 1 0)) 2 [x; y]
    = Ret q1 s1 0
    /\ tsqueue_pop q1 1 [o0] = Ret q2 s2 (mk_pop_result 0 1 [x])
    /\ tsqueue_destroy q2
       = Ret q3 s3 (mk_destroy_result 1 destroy_events)
    /\ firstn 1 (data q3) = [y].
Proof.
  do 6 eexists.
  split; [vm_compute; reflexivity |].
  split; [vm_compute; reflexivity |].
  split; vm_compute; reflexivity.
Qed.

(** C8: [tsqueue_destroy] returns at once when no producer or no
    consumer sleeps in the queue.  When it returns (at once or after
    having slept) it reports [used], it has released the pthread objects
    and the struct but not the backing store, whose bytes it has not
    changed, and the first [used] elements of the backing store are the
    elements of the queue in the order [tsqueue_pop] would have handed
    them out. *)
Theorem destroy_leaves_remainder q o :
  wf_store q ->
  o = tsqueue_destroy q \/ o = tsqueue_destroy_resume q ->
  (producer_n_elems q = 0 \/ n_consumers_waiting q = 0 -> blocks o = false)
  /\ forall q' sigs r,
       o = Ret q' sigs r ->
       leftover r = used q
       /\ data q' = data q
       /\ firstn (bytes_of (elem_size q) (leftover r)) (data q') = contents q
       /\ freed backing_store (destroy_trace r) = false
       /\ freed queue_struct (destroy_trace r) = true
       /\ live_objects all_objects (destroy_trace r) = []
       /\ forall m out,
            0 <= m <= used q -> die q = false ->
            exists q'' sigs',
              tsqueue_pop q m out
              = Ret q'' sigs'
                  (mk_pop_result 0 m
                     (firstn (bytes_of (elem_size q) m) (data q')
                        ++ skipn (bytes_of (elem_size q) m) out)).
Proof.
  intros W Ho.
  destruct (destroy_cases q o Ho)
    as [(Hb & Hp & Hc) | (q1 & sigs1 & E & S & Hz)].
  - split.
    + intros [H0 | H0]; contradiction.
    + intros q' sigs r E. rewrite E in Hb. discriminate.
  - split.
    + intros _. rewrite E. reflexivity.
    + intros q' sigs r E'. rewrite E in E'. injection E' as <- <- <-.
      destruct S as (_ & _ & _ & S4). simpl.
      split; [reflexivity |]. split; [exact S4 |].
      split; [rewrite S4; reflexivity |].
      split; [reflexivity |]. split; [reflexivity |]. split; [reflexivity |].
      intros m out Hm Hd. rewrite S4.
      apply pop_available; assumption.
Qed.

Lemma destroy_leaves_remainder_witness :
  exists q' sigs r,
    tsqueue_destroy remainder_queue = Ret q' sigs r
    /\ leftover r = 1
    /\ firstn 1 (data q') = [x79]
    /\ freed backing_store (destroy_trace r) = false.
Proof.
  assert (W : wf_store remainder_queue) by solve_wf_store.
  destruct (destroy_leaves_remainder remainder_queue
              (tsqueue_destroy remainder_queue) W (or_introl eq_refl))
    as (_ & H).
  eexists. eexists. eexists.
  match goal with |- ?E /\ _ => assert (HE : E) by (vm_compute; reflexivity) end.
  split; [exact HE |].
  destruct (H _ _ _ HE) as (H1 & H2 & H3 & H4 & _).
  split; [exact H1 |]. split; [exact H3 | exact H4].
Defined.

(** * Further properties of the queue *)

(** ** The producer side *)

(** X1: single-producer exclusion.  While a producer-side call is pending
    on a queue that is not closing, every [tsqueue_wait_for_space] and
    [tsqueue_put], whatever [n_elems] and however much room there is,
    returns [TSQUEUE_SINGLE_PRODUCER] at once, signals nobody and leaves
    the queue as it was. *)
Theorem single_producer_rejected q n inp :
  die q = false -> producer_n_elems q <> 0 ->
  tsqueue_wait_for_space q n = Ret q [] TSQUEUE_SINGLE_PRODUCER
  /\ tsqueue_put q n inp = Ret q [] TSQUEUE_SINGLE_PRODUCER.
Proof.
  intros Hd Hp.
  assert (E : wait_for_space_internal q n
              = Ret q [] TSQUEUE_SINGLE_PRODUCER).
  { unfold wait_for_space_internal.
    destruct (Z.eqb_spec (producer_n_elems q) 0) as [H0 | _];
      [contradiction |].
    simpl. unfold wait_for_space_exit. rewrite Hd. reflexivity. }
  split; [exact E |].
  unfold tsqueue_put. rewrite E. reflexivity.
Qed.

Lemma single_producer_rejected_witness :
  tsqueue_put pending_queue 0 [] = Ret pending_queue [] TSQUEUE_SINGLE_PRODUCER.
Proof.
  refine (proj2 (single_producer_rejected pending_queue 0 [] eq_refl _)).
  vm_compute. discriminate.
Defined.

Lemma wait_for_space_open q n :
  wf_store q -> die q = false -> producer_n_elems q = 0 ->
  0 <= n <= capacity q ->
  wait_for_space_internal q n =
    if capacity q - used q <? n
    then Wait (set_producer_n_elems q n) [] producer_wakeup
    else Ret q [] 0.
Proof.
  intros W Hd Hp Hn. pose proof (wf_used q W). pose proof (wf_capacity q W).
  assert (Hsub : SizeT.sub (capacity q) (used q) = capacity q - used q).
  { unfold SizeT.sub. apply SizeT_wrap_small. unfold SizeT.in_range. lia. }
  unfold wait_for_space_internal. rewrite Hp.
  destruct (Z.ltb_spec (capacity q) n) as [Hbad | _]; [lia |]. simpl.
  unfold wait_for_space_loop. simpl. rewrite Hd, Hsub. simpl.
  destruct (capacity q - used q <? n); [reflexivity |].
  unfold wait_for_space_exit. simpl. rewrite Hd.
  destruct q; simpl in *; subst; reflexivity.
Qed.

(** X2: a [tsqueue_put] that finds room.  On a queue that is not
    closing, with no producer-side call pending and [n_elems] free
    elements, [tsqueue_put] returns 0 without sleeping; the [n_elems]
    elements of [inp] are appended after the elements in the queue, the
    rest of the backing store keeps its bytes, [used] grows by [n_elems]
    and nothing else changes; exactly one consumer is signalled if
    [n_elems <> 0] and a consumer is waiting, nobody otherwise. *)
Theorem put_appends_and_signals_one q n inp :
  wf_store q -> die q = false -> producer_n_elems q = 0 ->
  0 <= n -> used q + n <= capacity q ->
  n * elem_size q <= Z.of_nat (length inp) ->
  exists q',
    tsqueue_put q n inp
    = Ret q'
        (if negb (n =? 0) && negb (n_consumers_waiting q =? 0)
         then [consumer_wakeup] else [])
        0
    /\ used q' = used q + n
    /\ contents q' = contents q ++ firstn (bytes_of (elem_size q) n) inp
    /\ skipn (bytes_of (elem_size q) (used q + n)) (data q')
       = skipn (bytes_of (elem_size q) (used q + n)) (data q)
    /\ length (data q') = length (data q)
    /\ capacity q' = capacity q /\ elem_size q' = elem_size q
    /\ producer_n_elems q' = 0
    /\ n_consumers_waiting q' = n_consumers_waiting q
    /\ producers_done q' = producers_done q /\ die q' = false.
Proof.
  intros W Hd Hp Hn Hroom Hinp. pose proof W as [W1 W2 W3 W4 W5].
  unfold tsqueue_put.
  rewrite (wait_for_space_open q n W Hd Hp) by lia.
  destruct (Z.ltb_spec (capacity q - used q) n) as [Hbad | _]; [lia |].
  destruct (put_copy_spec q n inp W Hn Hroom Hinp)
    as (q' & sigs & E & W' & C1 & C2 & C3 & C4 & C5 & C6 & C7 & C8).
  unfold and_then. rewrite E. simpl.
  assert (Es : sigs = if negb (n =? 0) && negb (n_consumers_waiting q =? 0)
                      then [consumer_wakeup] else []).
  { unfold put_copy in E. simpl in E. injection E as _ Es. congruence. }
  exists q'. rewrite <- Es. split; [reflexivity |].
  split; [exact C3 |]. split; [exact C4 |].
  assert (Hdata : data q'
                  = memcpy (data q) (used q * elem_size q) inp
                           (n * elem_size q)).
  { destruct (mul_in_store q (used q) W W2) as (Mu & _).
    destruct (mul_in_store q n W) as (Mn & _); [lia |].
    unfold put_copy in E. simpl in E. rewrite Mu, Mn in E.
    injection E as Eq _. rewrite <- Eq. reflexivity. }
  destruct (mul_in_store q (used q) W W2) as (_ & Bu).
  destruct (mul_in_store q n W) as (_ & Bn); [lia |].
  destruct (mul_in_store q (used q + n) W) as (_ & Bs); [lia |].
  assert (Hsum : (used q + n) * elem_size q
                 = used q * elem_size q + n * elem_size q) by ring.
  split.
  { rewrite Hdata. unfold memcpy, bytes_of. rewrite Hsum.
    rewrite app_assoc, skipn_app.
    rewrite skipn_all2 by (rewrite length_app, !length_firstn; lia).
    rewrite length_app, !length_firstn. simpl.
    rewrite skipn_skipn. f_equal. lia. }
  split.
  { rewrite Hdata. unfold memcpy.
    rewrite !length_app, !length_firstn, length_skipn. lia. }
  repeat (split; [congruence |]). congruence.
Qed.

Lemma put_appends_and_signals_one_witness :
  exists q',
    tsqueue_put (mk_tsqueue 4 1 1 [x05; x00; x00; x00] 0 2 false false)
                2 [x06; x07]
    = Ret q' [consumer_wakeup] 0
    /\ used q' = 3
    /\ contents q' = [x05; x06; x07].
Proof.
  destruct (put_appends_and_signals_one
              (mk_tsqueue 4 1 1 [x05; x00; x00; x00] 0 2 false false)
              2 [x06; x07])
    as (q' & E & U & C & _); try solve_wf_store; try reflexivity;
    try (simpl; lia).
  exists q'. repeat split; assumption.
Defined.

(** X3: back-pressure.  On a queue that is not closing and has no
    producer-side call pending, a [tsqueue_wait_for_space] or
    [tsqueue_put] asking for more room than is free (but no more than
    [capacity]) goes to sleep on [producer_wakeup]; all it has done is to
    record its request in [producer_n_elems].  Woken while there is still
    too little room, it goes back to sleep and changes nothing. *)
Theorem producer_sleeps_without_room q n inp :
  wf_store q -> die q = false -> producer_n_elems q = 0 ->
  capacity q - used q < n <= capacity q ->
  tsqueue_wait_for_space q n
  = Wait (set_producer_n_elems q n) [] producer_wakeup
  /\ tsqueue_put q n inp
     = Wait (set_producer_n_elems q n) [] producer_wakeup
  /\ tsqueue_wait_for_space_resume (set_producer_n_elems q n) n
     = Wait (set_producer_n_elems q n) [] producer_wakeup
  /\ tsqueue_put_resume (set_producer_n_elems q n) n inp
     = Wait (set_producer_n_elems q n) [] producer_wakeup.
Proof.
  intros W Hd Hp Hn. pose proof (wf_used q W). pose proof (wf_capacity q W).
  assert (E : wait_for_space_internal q n
              = Wait (set_producer_n_elems q n) [] producer_wakeup).
  { rewrite (wait_for_space_open q n W Hd Hp) by lia.
    destruct (Z.ltb_spec (capacity q - used q) n) as [_ | Hbad]; [| lia].
    reflexivity. }
  assert (E' : wait_for_space_loop (set_producer_n_elems q n) n
               = Wait (set_producer_n_elems q n) [] producer_wakeup).
  { assert (Hsub : SizeT.sub (capacity q) (used q) = capacity q - used q).
    { unfold SizeT.sub. apply SizeT_wrap_small. unfold SizeT.in_range. lia. }
    unfold wait_for_space_loop. simpl. rewrite Hd, Hsub. simpl.
    destruct (Z.ltb_spec (capacity q - used q) n) as [_ | Hbad]; [| lia].
    reflexivity. }
  split; [exact E |].
  split; [unfold tsqueue_put; rewrite E; reflexivity |].
  split; [exact E' |].
  unfold tsqueue_put_resume. rewrite E'. reflexivity.
Qed.

Lemma producer_sleeps_without_room_witness :
  tsqueue_put (sys_queue (created store4 4 1 3)) 2 [x01; x02]
  = Wait (mk_tsqueue 4 3 1 store4 2 0 false false) [] producer_wakeup.
Proof.
  refine (proj1 (proj2 (producer_sleeps_without_room
                          (sys_queue (created store4 4 1 3)) 2 [x01; x02]
                          _ eq_refl eq_refl _))).
  - solve_wf_store.
  - simpl. lia.
Defined.

(** X4: a producer that wakes up.  A sleeping [tsqueue_put] for [n]
    elements that is woken on a queue that is not closing and now has
    [n] free elements returns 0: it clears [producer_n_elems], appends
    its elements after those in the queue and adds [n] to [used]. *)
Theorem woken_put_completes q n inp :
  wf_store q -> die q = false ->
  0 <= n <= capacity q - used q ->
  n * elem_size q <= Z.of_nat (length inp) ->
  exists q' sigs,
    tsqueue_put_resume q n inp = Ret q' sigs 0
    /\ producer_n_elems q' = 0
    /\ used q' = used q + n
    /\ contents q' = contents q ++ firstn (bytes_of (elem_size q) n) inp
    /\ wf_store q'.
Proof.
  intros W Hd Hn Hinp. pose proof (wf_used q W). pose proof (wf_capacity q W).
  assert (Hsub : SizeT.sub (capacity q) (used q) = capacity q - used q).
  { unfold SizeT.sub. apply SizeT_wrap_small. unfold SizeT.in_range. lia. }
  assert (E : wait_for_space_loop q n = Ret (set_producer_n_elems q 0) [] 0).
  { unfold wait_for_space_loop. rewrite Hd, Hsub. simpl.
    destruct (Z.ltb_spec (capacity q - used q) n) as [Hbad | _]; [lia |].
    unfold wait_for_space_exit. simpl. rewrite Hd. reflexivity. }
  assert (S : same_store q (set_producer_n_elems q 0)) by (repeat split).
  destruct (put_copy_spec (set_producer_n_elems q 0) n inp
              (same_store_wf _ _ S W))
    as (q' & sigs & E' & W' & C1 & C2 & C3 & C4 & C5 & C6 & C7 & C8);
    try (simpl; lia).
  unfold tsqueue_put_resume, and_then. rewrite E, E'. simpl.
  exists q', sigs. split; [reflexivity |].
  split; [exact C7 |]. split; [exact C3 |].
  split; [| exact W'].
  rewrite C4, (same_store_contents _ _ S). reflexivity.
Qed.

Lemma woken_put_completes_witness :
  exists q' sigs,
    tsqueue_put_resume (mk_tsqueue 4 1 1 [x05; x00; x00; x00] 2 0 false false)
                       2 [x06; x07]
    = Ret q' sigs 0
    /\ producer_n_elems q' = 0
    /\ used q' = 3
    /\ contents q' = [x05; x06; x07].
Proof.
  destruct (woken_put_completes
              (mk_tsqueue 4 1 1 [x05; x00; x00; x00] 2 0 false false)
              2 [x06; x07])
    as (q' & sigs & E & P & U & C & _); try solve_wf_store; try reflexivity;
    try (simpl; lia).
  exists q', sigs. repeat split; assumption.
Defined.



(** ** The consumer side *)

Lemma wrap_succ_pred c :
  SizeT.in_range c -> SizeT.sub (SizeT.add c 1) 1 = c.
Proof.
  intros Hc. unfold SizeT.sub, SizeT.add, SizeT.wrap.
  rewrite Zminus_mod_idemp_l.
  replace (c + 1 - 1) with c by lia.
  apply Z.mod_small. exact Hc.
Qed.

(** X6: the wake-ups of a [tsqueue_pop] that takes elements.  On a queue
    that is not closing, a [tsqueue_pop] of [n_elems <= capacity] that
    does not have to sleep takes [m = min (n_elems, used)] elements and
    then signals the pending producer if its request now fits into the
    free room, and one more consumer if elements are left and a consumer
    is waiting; it signals nobody else, and the number of waiting
    consumers is what it was before the call. *)
Theorem pop_signals_producer_and_next_consumer q n out :
  wf_store q -> die q = false ->
  0 <= n <= capacity q ->
  producers_done q = true \/ n <= used q ->
  SizeT.in_range (n_consumers_waiting q) ->
  signals_of (tsqueue_pop q n out)
  = (if negb (producer_n_elems q =? 0)
        && (producer_n_elems q
            <=? capacity q - (used q - Z.min n (used q)))
     then [producer_wakeup] else [])
    ++ (if negb (used q - Z.min n (used q) =? 0)
           && negb (n_consumers_waiting q =? 0)
        then [consumer_wakeup] else [])
  /\ blocks (tsqueue_pop q n out) = false
  /\ n_consumers_waiting (state_of (tsqueue_pop q n out))
     = n_consumers_waiting q
  /\ producer_n_elems (state_of (tsqueue_pop q n out)) = producer_n_elems q.
Proof.
  intros W Hd Hn Hgo Hc. pose proof W as [W1 W2 W3 W4 W5].
  unfold tsqueue_pop.
  destruct (Z.ltb_spec (capacity q) n) as [Hbad | _]; [lia |]. simpl.
  unfold pop_loop. simpl. rewrite Hd.
  assert (Hloop : negb (producers_done q) && negb false && (used q <? n)
                  = false).
  { destruct Hgo as [-> | Hle]; [reflexivity |].
    destruct (Z.ltb_spec (used q) n); [lia |].
    rewrite andb_false_r. reflexivity. }
  rewrite Hloop. unfold pop_exit. simpl. rewrite Hd. simpl.
  assert (Hm : (if used q <? n then used q else n) = Z.min n (used q)).
  { destruct (Z.ltb_spec (used q) n); lia. }
  rewrite Hm. set (m := Z.min n (used q)).
  assert (Hs : SizeT.sub (used q) m = used q - m).
  { unfold SizeT.sub. apply SizeT_wrap_small. unfold SizeT.in_range, m. lia. }
  assert (Hf : SizeT.sub (capacity q) (used q - m) = capacity q - (used q - m)).
  { unfold SizeT.sub. apply SizeT_wrap_small. unfold SizeT.in_range, m. lia. }
  rewrite Hs, Hf, (wrap_succ_pred _ Hc).
  repeat split; reflexivity.
Qed.

Lemma pop_signals_producer_and_next_consumer_witness :
  signals_of
    (tsqueue_pop (mk_tsqueue 4 4 1 [x01; x02; x03; x04] 2 1 false false)
                 3 buf3)
  = [producer_wakeup; consumer_wakeup].
Proof.
  refine (proj1 (pop_signals_producer_and_next_consumer
                   (mk_tsqueue 4 4 1 [x01; x02; x03; x04] 2 1 false false)
                   3 buf3 _ eq_refl _ _ _)).
  - solve_wf_store.
  - simpl. lia.
  - right. simpl. lia.
  - unfold SizeT.in_range. rewrite SizeT_modulus_eq. simpl. lia.
Defined.

(** ** The counters and the sleeping calls *)

Ltac split_all_ifs :=
  repeat match goal with
    | |- context [if ?b then _ else _] => destruct b eqn:?; simpl
    end.

Lemma pop_loop_counters q n out :
  match pop_loop q n out with
  | Ret q' _ _ =>
      n_consumers_waiting q' = SizeT.sub (n_consumers_waiting q) 1
      /\ producer_n_elems q' = producer_n_elems q
  | Wait q' _ _ => q' = q
  end.
Proof.
  unfold pop_loop, pop_exit.
  destruct (die q); simpl; split_all_ifs; auto.
Qed.

Lemma tsqueue_pop_counters q n out :
  match tsqueue_pop q n out with
  | Ret q' _ _ =>
      (n_consumers_waiting q' = n_consumers_waiting q
       \/ n_consumers_waiting q'
          = SizeT.sub (SizeT.add (n_consumers_waiting q) 1) 1)
      /\ producer_n_elems q' = producer_n_elems q
  | Wait q' _ _ =>
      n_consumers_waiting q' = SizeT.add (n_consumers_waiting q) 1
      /\ producer_n_elems q' = producer_n_elems q
  end.
Proof.
  unfold tsqueue_pop.
  destruct (capacity q <? n); simpl.
  - unfold pop_exit. destruct (die q); simpl; auto.
  - pose proof (pop_loop_counters
                  (set_n_consumers_waiting q
                     (SizeT.add (n_consumers_waiting q) 1)) n out) as H.
    destruct (pop_loop _ n out) as [q' sigs r | q' sigs cv]; simpl in *.
    + destruct H as (H1 & H2). split; [right; exact H1 | exact H2].
    + subst q'. simpl. auto.
Qed.

Lemma wait_for_space_loop_counters q n :
  match wait_for_space_loop q n with
  | Ret q' _ _ =>
      producer_n_elems q' = 0
      /\ n_consumers_waiting q' = n_consumers_waiting q
  | Wait q' _ _ => q' = q
  end.
Proof.
  unfold wait_for_space_loop, wait_for_space_exit.
  destruct (die q); simpl; split_all_ifs; auto.
Qed.

Lemma wait_for_space_internal_counters q n :
  match wait_for_space_internal q n with
  | Ret q' _ _ =>
      producer_n_elems q' = producer_n_elems q
      /\ n_consumers_waiting q' = n_consumers_waiting q
  | Wait q' _ _ =>
      producer_n_elems q = 0 /\ producer_n_elems q' = n /\ n <> 0
      /\ n_consumers_waiting q' = n_consumers_waiting q
  end.
Proof.
  unfold wait_for_space_internal.
  destruct (Z.eqb_spec (producer_n_elems q) 0) as [Hp | Hp]; simpl.
  - destruct (capacity q <? n); simpl.
    + unfold wait_for_space_exit. destruct (die q); simpl; auto.
    + unfold wait_for_space_loop, wait_for_space_exit. simpl.
      destruct (die q); simpl; [auto |].
      destruct (Z.ltb_spec (SizeT.sub (capacity q) (used q)) n) as [Hs | Hs];
        simpl; [| auto].
      repeat split; auto.
      assert (Hr : 0 <= SizeT.sub (capacity q) (used q)).
      { unfold SizeT.sub, SizeT.wrap. apply Z.mod_pos_bound.
        rewrite SizeT_modulus_eq. lia. }
      lia.
  - destruct (capacity q <? n); simpl;
      unfold wait_for_space_exit; destruct (die q); simpl; auto.
Qed.

Lemma put_copy_counters n inp q retval :
  match put_copy n inp q retval with
  | Ret q' _ _ =>
      producer_n_elems q' = producer_n_elems q
      /\ n_consumers_waiting q' = n_consumers_waiting q
  | Wait _ _ _ => False
  end.
Proof. unfold put_copy. destruct (retval =? 0); simpl; auto. Qed.

(** What the first segment of a call does to the two counters. *)
Lemma enter_counters c q :
  match enter c q with
  | Ret q' _ _ =>
      (n_consumers_waiting q' = n_consumers_waiting q
       \/ (is_pop c = true
           /\ n_consumers_waiting q'
              = SizeT.sub (SizeT.add (n_consumers_waiting q) 1) 1))
      /\ producer_n_elems q' = producer_n_elems q
  | Wait q' _ _ =>
      (is_pop c = true /\ producer_request c = None
       /\ n_consumers_waiting q' = SizeT.add (n_consumers_waiting q) 1
       /\ producer_n_elems q' = producer_n_elems q)
      \/ (is_pop c = false /\ producer_request c = Some (producer_n_elems q')
          /\ producer_n_elems q = 0 /\ producer_n_elems q' <> 0
          /\ n_consumers_waiting q' = n_consumers_waiting q)
      \/ (is_pop c = false /\ producer_request c = None
          /\ n_consumers_waiting q' = n_consumers_waiting q
          /\ producer_n_elems q' = producer_n_elems q)
  end.
Proof.
  destruct c as [| n | n inp | n out | done | |]; simpl.
  - auto.
  - unfold tsqueue_wait_for_space.
    pose proof (wait_for_space_internal_counters q n) as H.
    destruct (wait_for_space_internal q n); simpl.
    + destruct H; auto.
    + destruct H as (H1 & H2 & H3 & H4). right; left.
      rewrite H2. repeat split; auto.
  - unfold tsqueue_put, and_then.
    pose proof (wait_for_space_internal_counters q n) as H.
    destruct (wait_for_space_internal q n) as [q1 s1 rv | q1 s1 cv]; simpl.
    + pose proof (put_copy_counters n inp q1 rv) as H'.
      destruct (put_copy n inp q1 rv); simpl; [| contradiction].
      destruct H, H'. split; [left |]; congruence.
    + destruct H as (H1 & H2 & H3 & H4). right; left.
      rewrite H2. repeat split; auto.
  - pose proof (tsqueue_pop_counters q n out) as H.
    destruct (tsqueue_pop q n out); simpl.
    + destruct H as ([H | H] & H'); split; auto.
    + destruct H. left. auto.
  - auto.
  - unfold tsqueue_close, and_then, close_loop. simpl. split_all_ifs; auto.
    right; right. auto.
  - unfold tsqueue_destroy, tsqueue_close, and_then, close_loop,
      destroy_release. simpl. split_all_ifs; auto.
    right; right. auto.
Qed.

(** What a segment that starts with a wake-up does to the two counters. *)
Lemma resume_counters c q :
  match resume c q with
  | Ret q' _ _ =>
      (is_pop c = true
       /\ n_consumers_waiting q' = SizeT.sub (n_consumers_waiting q) 1
       /\ producer_n_elems q' = producer_n_elems q)
      \/ (is_pop c = false /\ is_producer c = true
          /\ producer_n_elems q' = 0
          /\ n_consumers_waiting q' = n_consumers_waiting q)
      \/ (is_pop c = false /\ is_producer c = false
          /\ n_consumers_waiting q' = n_consumers_waiting q
          /\ producer_n_elems q' = producer_n_elems q)
  | Wait q' _ _ =>
      n_consumers_waiting q' = n_consumers_waiting q
      /\ producer_n_elems q' = producer_n_elems q
  end.
Proof.
  destruct c as [| n | n inp | n out | done | |]; simpl.
  - right; right. auto.
  - unfold tsqueue_wait_for_space_resume.
    pose proof (wait_for_space_loop_counters q n) as H.
    destruct (wait_for_space_loop q n); simpl.
    + destruct H. right; left. auto.
    + subst. auto.
  - unfold tsqueue_put_resume, and_then.
    pose proof (wait_for_space_loop_counters q n) as H.
    destruct (wait_for_space_loop q n) as [q1 s1 rv | q1 s1 cv]; simpl.
    + pose proof (put_copy_counters n inp q1 rv) as H'.
      destruct (put_copy n inp q1 rv); simpl; [| contradiction].
      destruct H, H'. right; left. repeat split; congruence.
    + subst. auto.
  - unfold tsqueue_pop_resume.
    pose proof (pop_loop_counters q n out) as H.
    destruct (pop_loop q n out); simpl.
    + destruct H. left. auto.
    + subst. auto.
  - right; right. auto.
  - unfold tsqueue_close_resume, close_loop. split_all_ifs; auto.
    right; right. auto.
  - unfold tsqueue_destroy_resume, tsqueue_close_resume, and_then, close_loop,
      destroy_release. simpl. split_all_ifs; auto.
    right; right. auto.
Qed.

Lemma sleeping_requests_app p1 p2 :
  sleeping_requests (p1 ++ p2) = sleeping_requests p1 ++ sleeping_requests p2.
Proof.
  induction p1 as [| c p1 IH]; simpl; [reflexivity |].
  destruct (producer_request c); simpl; rewrite IH; reflexivity.
Qed.

Lemma sleeping_consumers_app p1 p2 :
  sleeping_consumers (p1 ++ p2) = sleeping_consumers p1 + sleeping_consumers p2.
Proof.
  unfold sleeping_consumers. rewrite filter_app, length_app. lia.
Qed.

Lemma sleeping_consumers_cons c p :
  sleeping_consumers (c :: p)
  = (if is_pop c then 1 else 0) + sleeping_consumers p.
Proof.
  unfold sleeping_consumers. cbn [filter].
  destruct (is_pop c); cbn [length]; lia.
Qed.

Lemma sleeping_requests_cons c p :
  sleeping_requests (c :: p)
  = match producer_request c with
    | Some n => n :: sleeping_requests p
    | None => sleeping_requests p
    end.
Proof. reflexivity. Qed.

Lemma wrap_add_one k : SizeT.add (SizeT.wrap k) 1 = SizeT.wrap (k + 1).
Proof. unfold SizeT.add, SizeT.wrap. apply Zplus_mod_idemp_l. Qed.

Lemma wrap_sub_one k : SizeT.sub (SizeT.wrap k) 1 = SizeT.wrap (k - 1).
Proof. unfold SizeT.sub, SizeT.wrap. apply Zminus_mod_idemp_l. Qed.

Lemma wrap_wrap k : SizeT.wrap (SizeT.wrap k) = SizeT.wrap k.
Proof. unfold SizeT.wrap. apply Z.mod_mod. rewrite SizeT_modulus_eq. lia. Qed.

Lemma counters_step s ev s' :
  counters_match s -> sys_step s ev s' -> counters_match s'.
Proof.
  unfold counters_match. intros (Hc & Hp) Hstep.
  inversion Hstep as [q pool c q' sigs r Hok E
                     | q pool c q' sigs cv Hok E
                     | q pool1 c pool2 q' sigs r E
                     | q pool1 c pool2 q' sigs cv E]; subst;
    cbn [sys_queue sys_blocked] in *.
  - pose proof (enter_counters c q) as H. rewrite E in H.
    destruct H as (H1 & H2). rewrite H2. split; [| exact Hp].
    destruct H1 as [H1 | (_ & H1)]; [congruence |].
    rewrite H1, Hc, wrap_add_one, wrap_sub_one. f_equal. lia.
  - pose proof (enter_counters c q) as H. rewrite E in H.
    rewrite sleeping_consumers_cons, sleeping_requests_cons.
    destruct H as [(H1 & H2 & H3 & H4) | [(H1 & H2 & H3 & H4 & H5)
                                         | (H1 & H2 & H3 & H4)]];
      rewrite H1, H2.
    + rewrite H3, H4, Hc, wrap_add_one. split; [f_equal; lia | exact Hp].
    + rewrite H5. split; [exact Hc |].
      rewrite H3 in Hp. simpl in Hp. rewrite Hp.
      destruct (Z.eqb_spec (producer_n_elems q') 0); [contradiction |].
      reflexivity.
    + rewrite H3, H4. split; [exact Hc | exact Hp].
  - pose proof (resume_counters c q) as H. rewrite E in H.
    rewrite sleeping_consumers_app, sleeping_consumers_cons in Hc.
    rewrite sleeping_requests_app, sleeping_requests_cons in Hp.
    rewrite sleeping_consumers_app, sleeping_requests_app.
    destruct H as [(H1 & H2 & H3) | [(H1 & H2 & H3 & H4)
                                    | (H1 & H2 & H3 & H4)]].
    + rewrite H1 in Hc. rewrite H2, H3, Hc, wrap_sub_one.
      split; [f_equal; lia |].
      destruct c; simpl in *; try discriminate. exact Hp.
    + rewrite H1 in Hc. rewrite H3, H4. simpl. split; [exact Hc |].
      unfold is_producer in H2.
      destruct (producer_request c) as [m |]; [| discriminate].
      destruct (producer_n_elems q =? 0).
      * apply app_eq_nil in Hp. destruct Hp as (_ & Hbad). discriminate.
      * destruct (sleeping_requests pool1) as [| x l1]; simpl in Hp.
        -- injection Hp as _ Hp. rewrite Hp. reflexivity.
        -- injection Hp as _ Hp. apply app_eq_nil in Hp.
           destruct Hp as (_ & Hbad). discriminate.
    + rewrite H1 in Hc. rewrite H3, H4. split; [exact Hc |].
      unfold is_producer in H2.
      destruct (producer_request c); [discriminate | exact Hp].
  - pose proof (resume_counters c q) as H. rewrite E in H.
    destruct H as (H1 & H2). rewrite H1, H2. split; assumption.
Qed.

Lemma run_counters_match data cap es preloaded evs s :
  sys_run (created data cap es preloaded) evs s -> counters_match s.
Proof.
  intros Hrun.
  remember (created data cap es preloaded) as s0 eqn:Hs0.
  induction Hrun as [s | s evs s1 ev s2 Hrun IH Hstep].
  - subst s. unfold counters_match, created. simpl. split; reflexivity.
  - exact (counters_step _ _ _ (IH Hs0) Hstep).
Qed.

(** X7: the counters describe the sleepers.  In every interleaving of
    calls on a created queue, after every segment:
    [n_consumers_waiting] is the number of [tsqueue_pop] calls asleep in
    the queue (as a [size_t]); at most one producer-side call is asleep;
    [producer_n_elems] is the request of that call, which is not 0, and
    is 0 when there is none.  In particular both counters are 0 when no
    [tsqueue_pop] and no producer-side call is asleep. *)
Theorem counters_describe_sleepers data cap es preloaded evs s :
  sys_run (created data cap es preloaded) evs s ->
  n_consumers_waiting (sys_queue s)
  = SizeT.wrap (sleeping_consumers (sys_blocked s))
  /\ (length (sleeping_requests (sys_blocked s)) <= 1)%nat
  /\ (forall n, In n (sleeping_requests (sys_blocked s)) ->
                n = producer_n_elems (sys_queue s) /\ n <> 0)
  /\ (sleeping_requests (sys_blocked s) = [] ->
      producer_n_elems (sys_queue s) = 0)
  /\ (sleeping_consumers (sys_blocked s) = 0 ->
      n_consumers_waiting (sys_queue s) = 0).
Proof.
  intros Hrun.
  destruct (run_counters_match _ _ _ _ _ _ Hrun) as (Hc & Hp).
  split; [exact Hc |].
  destruct (Z.eqb_spec (producer_n_elems (sys_queue s)) 0) as [H0 | H0];
    rewrite Hp; simpl.
  - split; [lia |]. split; [intros n [] |]. split; [auto |].
    intros Hz. rewrite Hc, Hz. reflexivity.
  - split; [lia |]. split.
    + intros n [<- | []]. split; [reflexivity | exact H0].
    + split; [discriminate |].
      intros Hz. rewrite Hc, Hz. reflexivity.
Qed.

Lemma counters_describe_sleepers_witness :
  exists s,
    sys_run (created store4 4 1 0)
      [ev_block (call_pop 3 buf3); ev_block (call_pop 1 [x00])] s
    /\ n_consumers_waiting (sys_queue s) = 2.
Proof.
  eexists.
  match goal with |- ?R /\ _ => assert (Hrun : R) end.
  { run_blocks. run_blocks. apply run_nil. }
  split; [exact Hrun |].
  exact (proj1 (counters_describe_sleepers store4 4 1 0 _ _ Hrun)).
Defined.

(** ** [tsqueue_wait_for_space] followed by [tsqueue_put] *)

Lemma pop_used q n out o :
  wf_store q -> 0 <= n ->
  o = tsqueue_pop q n out \/ o = tsqueue_pop_resume q n out ->
  used (state_of o) <= used q.
Proof.
  intros W Hn Ho. pose proof (wf_used q W) as Hu.
  pose proof (wf_capacity q W) as Hc.
  assert (Hs : SizeT.sub (used q) (if used q <? n then used q else n)
               <= used q).
  { unfold SizeT.sub. rewrite SizeT_wrap_small.
    - destruct (Z.ltb_spec (used q) n); lia.
    - unfold SizeT.in_range. destruct (Z.ltb_spec (used q) n); lia. }
  destruct Ho as [-> | ->];
    unfold tsqueue_pop, tsqueue_pop_resume, pop_loop, pop_exit;
    destruct (die q) eqn:Hd; simpl; rewrite ?Hd; simpl;
    split_all_ifs; rewrite ?Hd; simpl; lia.
Qed.

Lemma wait_for_space_zero_inv q n q1 sigs :
  tsqueue_wait_for_space q n = Ret q1 sigs 0 ->
  producer_n_elems q = 0 /\ n <= SizeT.sub (capacity q) (used q).
Proof.
  unfold tsqueue_wait_for_space. intros E.
  pose proof (wait_for_space_internal_outcome q n) as Ho.
  pose proof (wait_for_space_internal_counters q n) as Hc.
  rewrite E in Ho, Hc. simpl in Ho.
  destruct Ho as (_ & _ & _ & Hroom). split; [| exact (Hroom eq_refl)].
  destruct (Z.eqb_spec (producer_n_elems q) 0) as [H0 | H0]; [exact H0 |].
  exfalso. revert E. unfold wait_for_space_internal.
  destruct (Z.eqb_spec (producer_n_elems q) 0); [contradiction |]. simpl.
  unfold wait_for_space_exit. destruct (die q); discriminate.
Qed.

Lemma put_with_room q n inp :
  wf_store q -> die q = false -> producer_n_elems q = 0 ->
  0 <= n -> used q + n <= capacity q ->
  n * elem_size q <= Z.of_nat (length inp) ->
  exists q' sigs,
    tsqueue_put q n inp = Ret q' sigs 0
    /\ contents q' = contents q ++ firstn (bytes_of (elem_size q) n) inp.
Proof.
  intros W Hd Hp Hn Hroom Hinp. pose proof (wf_used q W).
  unfold tsqueue_put.
  rewrite (wait_for_space_open q n W Hd Hp) by lia.
  destruct (Z.ltb_spec (capacity q - used q) n) as [Hbad | _]; [lia |].
  destruct (put_copy_spec q n inp W Hn Hroom Hinp)
    as (q' & sigs & E & _ & _ & _ & _ & C4 & _).
  unfold and_then. rewrite E. simpl.
  exists q', sigs. split; [reflexivity | exact C4].
Qed.

(** A segment of a call that is neither producer-side nor
    [tsqueue_destroy] keeps [producer_n_elems] and does not add
    elements. *)
Lemma consumer_step s ev s' :
  wf_system s -> sys_step s ev s' -> consumer_side ev ->
  wf_system s'
  /\ capacity (sys_queue s') = capacity (sys_queue s)
  /\ elem_size (sys_queue s') = elem_size (sys_queue s)
  /\ producer_n_elems (sys_queue s') = producer_n_elems (sys_queue s)
  /\ used (sys_queue s') <= used (sys_queue s).
Proof.
  intros W Hstep (Hnp & Hnd).
  destruct (step_invariant s ev s' W Hstep) as (W' & C1 & C2 & _).
  split; [exact W' |]. split; [exact C1 |]. split; [exact C2 |].
  destruct W as (W & Hpool).
  assert (Hused : forall c q o,
             wf_store q -> call_ok (elem_size q) c ->
             is_producer c = false ->
             o = enter c q \/ o = resume c q ->
             used (state_of o) <= used q).
  { intros c q o Wq Hok Hc Ho.
    destruct c as [| n | n inp | n out | done | |]; simpl in Hc, Ho, Hok;
      try discriminate.
    - destruct Ho as [-> | ->]; simpl; lia.
    - destruct Hok as ((Hn & _) & _).
      assert (Hs : exists o', o = map_outcome res_pop o'
                              /\ (o' = tsqueue_pop q n out
                                  \/ o' = tsqueue_pop_resume q n out)).
      { destruct Ho as [-> | ->]; eexists; (split; [reflexivity |]); auto. }
      destruct Hs as (o' & -> & Hs).
      pose proof (pop_used q n out o' Wq Hn Hs).
      destruct o'; simpl in *; assumption.
    - destruct Ho as [-> | ->]; simpl; lia.
    - destruct Ho as [-> | ->].
      + pose proof (tsqueue_close_frame q) as ((_ & _ & S3 & _) & _).
        destruct (tsqueue_close q); simpl in *; lia.
      + pose proof (close_loop_frame q) as ((_ & _ & S3 & _) & _).
        unfold tsqueue_close_resume.
        destruct (close_loop q); simpl in *; lia.
    - destruct Ho as [-> | ->].
      + pose proof (tsqueue_destroy_frame q) as ((_ & _ & S3 & _) & _).
        destruct (tsqueue_destroy q); simpl in *; lia.
      + pose proof (tsqueue_destroy_resume_frame q) as ((_ & _ & S3 & _) & _).
        destruct (tsqueue_destroy_resume q); simpl in *; lia. }
  inversion Hstep as [q pool c q' sigs r Hok E
                     | q pool c q' sigs cv Hok E
                     | q pool1 c pool2 q' sigs r E
                     | q pool1 c pool2 q' sigs cv E]; subst;
    cbn [sys_queue sys_blocked call_of] in *.
  - pose proof (enter_counters c q) as H. rewrite E in H.
    pose proof (Hused c q _ W Hok Hnp (or_introl eq_refl)) as Hu.
    rewrite E in Hu. split; [apply H | exact Hu].
  - pose proof (enter_counters c q) as H. rewrite E in H.
    pose proof (Hused c q _ W Hok Hnp (or_introl eq_refl)) as Hu.
    rewrite E in Hu. split; [| exact Hu].
    unfold is_producer in Hnp.
    destruct H as [(_ & _ & _ & H) | [(_ & H & _) | (_ & _ & _ & H)]];
      try exact H.
    rewrite H in Hnp. discriminate.
  - assert (Hok : call_ok (elem_size q) c).
    { apply Forall_app in Hpool. destruct Hpool as (_ & Hp).
      inversion Hp; assumption. }
    pose proof (resume_counters c q) as H. rewrite E in H.
    pose proof (Hused c q _ W Hok Hnp (or_intror eq_refl)) as Hu.
    rewrite E in Hu. split; [| exact Hu].
    destruct H as [(_ & _ & H) | [(_ & H & _) | (_ & _ & _ & H)]];
      try exact H.
    rewrite H in Hnp. discriminate.
  - assert (Hok : call_ok (elem_size q) c).
    { apply Forall_app in Hpool. destruct Hpool as (_ & Hp).
      inversion Hp; assumption. }
    pose proof (resume_counters c q) as H. rewrite E in H.
    pose proof (Hused c q _ W Hok Hnp (or_intror eq_refl)) as Hu.
    rewrite E in Hu. split; [apply H | exact Hu].
Qed.

(** X8: the producer's protocol.  If [tsqueue_wait_for_space (n)] has
    returned 0 (which leaves the queue as it was) and only calls other
    than producer-side calls and [tsqueue_destroy] run afterwards, in any
    number and interleaving, then a [tsqueue_put] of [n] elements does
    not sleep: it returns 0 and appends its elements if the queue is not
    closing, and returns [TSQUEUE_CLOSED] if it is. *)
Theorem put_after_wait_for_space_never_sleeps s n q1 sigs evs s' inp :
  wf_system s -> 0 <= n ->
  tsqueue_wait_for_space (sys_queue s) n = Ret q1 sigs 0 ->
  sys_run s evs s' ->
  Forall consumer_side evs ->
  n * elem_size (sys_queue s') <= Z.of_nat (length inp) ->
  blocks (tsqueue_put (sys_queue s') n inp) = false
  /\ (die (sys_queue s') = false ->
      exists q2 sigs2,
        tsqueue_put (sys_queue s') n inp = Ret q2 sigs2 0
        /\ contents q2
           = contents (sys_queue s')
               ++ firstn (bytes_of (elem_size (sys_queue s')) n) inp)
  /\ (die (sys_queue s') = true ->
      exists q2 sigs2,
        tsqueue_put (sys_queue s') n inp = Ret q2 sigs2 TSQUEUE_CLOSED
        /\ contents q2 = contents (sys_queue s')).
Proof.
  intros W Hn Hwait Hrun Hcons Hinp.
  destruct (wait_for_space_zero_inv (sys_queue s) n q1 sigs Hwait)
    as (Hp & Hroom).
  assert (Hinv : wf_system s'
                 /\ capacity (sys_queue s') = capacity (sys_queue s)
                 /\ producer_n_elems (sys_queue s') = 0
                 /\ used (sys_queue s') <= used (sys_queue s)).
  { clear Hinp Hwait. induction Hrun as [s | s evs s1 ev s2 Hrun IH Hstep].
    - repeat split; try apply W; auto; lia.
    - apply Forall_app in Hcons. destruct Hcons as (Hc1 & Hc2).
      inversion Hc2 as [| ? ? Hev _]; subst.
      destruct (IH W Hc1 Hp Hroom) as (W1 & C1 & P1 & U1).
      destruct (consumer_step s1 ev s2 W1 Hstep Hev)
        as (W2 & C2 & _ & P2 & U2).
      split; [exact W2 |]. split; [congruence |]. split; [congruence | lia]. }
  destruct Hinv as ((W' & _) & C' & P' & U').
  pose proof (wf_used _ W') as Hu'.
  destruct W as (W & _). pose proof (wf_used _ W) as Hu.
  pose proof (wf_capacity _ W) as Hc.
  assert (Hfree : used (sys_queue s') + n <= capacity (sys_queue s')).
  { rewrite C'. unfold SizeT.sub in Hroom.
    rewrite SizeT_wrap_small in Hroom by (unfold SizeT.in_range; lia). lia. }
  destruct (die (sys_queue s')) eqn:Hd.
  - pose proof (wait_for_space_internal_outcome (sys_queue s') n) as Ho.
    unfold tsqueue_put.
    destruct (wait_for_space_internal (sys_queue s') n)
      as [q2 sg rv | q2 sg cv]; simpl in Ho.
    + destruct Ho as (S & _ & Hrv & _). rewrite (Hrv Hd). simpl.
      split; [reflexivity |]. split; [discriminate |].
      intros _. exists q2, (sg ++ []). split; [reflexivity |].
      apply same_store_contents. exact S.
    + destruct Ho as (_ & _ & Hbad). congruence.
  - destruct (put_with_room (sys_queue s') n inp
                W' Hd P' Hn Hfree Hinp) as (q2 & sg & E & C).
    rewrite E. split; [reflexivity |]. split; [| discriminate].
    intros _. exists q2, sg. split; [reflexivity | exact C].
Qed.

Lemma put_after_wait_for_space_never_sleeps_witness :
  exists s',
    sys_run (created store4 4 1 2)
      [ev_return (call_pop 1 [x00]) (res_pop (mk_pop_result 0 1 [x00]));
       ev_return (call_set_done true) res_void] s'
    /\ blocks (tsqueue_put (sys_queue s') 2 [x08; x09]) = false.
Proof.
  eexists.
  match goal with |- ?R /\ _ => assert (Hrun : R) end.
  { run_returns. run_returns. apply run_nil. }
  split; [exact Hrun |].
  refine (proj1 (put_after_wait_for_space_never_sleeps
                   (created store4 4 1 2) 2
                   (sys_queue (created store4 4 1 2)) [] _ _ [x08; x09]
                   _ _ eq_refl Hrun _ _)).
  - apply created_wf; rewrite ?SizeT_modulus_eq; simpl; lia.
  - lia.
  - repeat constructor.
  - simpl. lia.
Defined.

(** ** Witnesses for the clean-up of [tsqueue_create] and for the bounds
    of the copies *)

Lemma create_cleans_up_after_init_failure_witness :
  exists tr,
    tsqueue_create
      (mk_os_env true 0 0
         (fun c => match c with consumer_wakeup => 11 | _ => 0 end))
      false store4 4 1 0
    = CreateRet 11 None tr
    /\ live_objects [] tr = []
    /\ freed queue_struct tr = true
    /\ freed backing_store tr = false.
Proof.
  refine (create_cleans_up_after_init_failure
            (mk_os_env true 0 0
               (fun c => match c with consumer_wakeup => 11 | _ => 0 end))
            store4 4 1 0 eq_refl _).
  vm_compute. discriminate.
Defined.



(** ** Draining *)

(** X12: an idle queue is closed and destroyed without sleeping.  In
    every interleaving of calls on a created queue, whenever no
    [tsqueue_pop] and no producer-side call is asleep in the queue,
    [tsqueue_close] and [tsqueue_destroy] return at once (and a
    [tsqueue_close] that was asleep returns when woken), and
    [tsqueue_destroy] reports the number of elements in the queue. *)
Theorem close_returns_when_queue_is_idle data cap es preloaded evs s :
  sys_run (created data cap es preloaded) evs s ->
  sleeping_consumers (sys_blocked s) = 0 ->
  sleeping_requests (sys_blocked s) = [] ->
  blocks (tsqueue_close (sys_queue s)) = false
  /\ blocks (tsqueue_close_resume (sys_queue s)) = false
  /\ exists q' sigs,
       tsqueue_destroy (sys_queue s)
       = Ret q' sigs (mk_destroy_result (used (sys_queue s)) destroy_events).
Proof.
  intros Hrun Hc Hp.
  destruct (run_counters_match _ _ _ _ _ _ Hrun) as (Ec & Ep).
  rewrite Hc in Ec. rewrite Hp in Ep.
  assert (Hpz : producer_n_elems (sys_queue s) = 0).
  { destruct (Z.eqb_spec (producer_n_elems (sys_queue s)) 0);
      [assumption | discriminate]. }
  assert (Hcz : n_consumers_waiting (sys_queue s) = 0) by exact Ec.
  unfold tsqueue_destroy, tsqueue_close, tsqueue_close_resume, and_then,
    close_loop, destroy_release. simpl.
  rewrite Hpz, Hcz. simpl.
  split; [reflexivity |]. split; [reflexivity |].
  eexists. eexists. reflexivity.
Qed.

Lemma close_returns_when_queue_is_idle_witness :
  exists s,
    sys_run (created store4 4 1 2)
      [ev_return (call_pop 1 [x00]) (res_pop (mk_pop_result 0 1 [x00]))] s
    /\ blocks (tsqueue_close (sys_queue s)) = false.
Proof.
  eexists.
  match goal with |- ?R /\ _ => assert (Hrun : R) end.
  { run_returns. apply run_nil. }
  split; [exact Hrun |].
  exact (proj1 (close_returns_when_queue_is_idle store4 4 1 2 _ _ Hrun
                  eq_refl eq_refl)).
Defined.

(** ** A consumer that asks for one element *)

(** X13: the answers to [tsqueue_pop] of one element.  On a queue of
    capacity at least 1, a [tsqueue_pop] asking for one element that
    returns (at once or after having slept) gives one of three answers:
    0 with one element, the first of the queue; 0 with no element, and
    then [producers_done] is set and the queue is empty; or
    [TSQUEUE_CLOSED] with no element, and then the queue is closing.  It
    never answers [TSQUEUE_TOO_MANY]. *)
Theorem pop_one_answers q out o q' sigs r :
  wf_store q -> 1 <= capacity q ->
  o = tsqueue_pop q 1 out \/ o = tsqueue_pop_resume q 1 out ->
  o = Ret q' sigs r ->
  (die q = false /\ 1 <= used q
   /\ r = mk_pop_result 0 1
            (firstn (bytes_of (elem_size q) 1) (contents q)
               ++ skipn (bytes_of (elem_size q) 1) out)
   /\ used q' = used q - 1)
  \/ (die q = false /\ producers_done q = true /\ used q = 0
      /\ r = mk_pop_result 0 0 out /\ used q' = 0)
  \/ (die q = true /\ r = mk_pop_result TSQUEUE_CLOSED 0 out
      /\ used q' = used q).
Proof.
  intros W Hcap Ho E. pose proof (wf_used q W) as Hu.
  destruct (die q) eqn:Hd.
  - right; right. split; [reflexivity |].
    assert (Hc : exists q1 s1,
               o = Ret q1 s1 (mk_pop_result TSQUEUE_CLOSED 0 out)
               /\ same_store q q1 /\ die q1 = true).
    { destruct Ho as [-> | ->];
        [apply tsqueue_pop_closed | apply pop_loop_closed]; exact Hd. }
    destruct Hc as (q1 & s1 & E1 & (_ & _ & S3 & _) & _).
    rewrite E1 in E. injection E as <- _ <-. split; [reflexivity | exact S3].
  - assert (Hloop : exists q1, same_store q q1 /\ die q1 = false
                               /\ producers_done q1 = producers_done q
                               /\ o = pop_loop q1 1 out).
    { destruct Ho as [-> | ->].
      - unfold tsqueue_pop.
        destruct (Z.ltb_spec (capacity q) 1) as [Hbad | _]; [lia |]. simpl.
        exists (set_n_consumers_waiting q
                  (SizeT.add (n_consumers_waiting q) 1)).
        split; [repeat split |]. split; [exact Hd |]. split; reflexivity.
      - exists q. split; [apply same_store_refl |]. split; [exact Hd |].
        split; reflexivity. }
    destruct Hloop as (q1 & S & D1 & P1 & ->).
    pose proof S as (S1 & S2 & S3 & S4).
    destruct (pop_loop_open q1 1 out (same_store_wf _ _ S W) D1 ltac:(lia))
      as [(Ew & _) | (Hgo & q2 & s2 & E2 & _ & _ & _ & C3 & _)].
    + rewrite Ew in E. discriminate.
    + rewrite E2 in E. injection E as <- _ <-.
      rewrite (same_store_contents _ _ S), S2, S3 in *.
      destruct (Z.eq_dec (used q) 0) as [H0 | H0].
      * right; left. split; [reflexivity |].
        split; [destruct Hgo as [Hg | Hg]; [congruence | lia] |].
        split; [exact H0 |].
        rewrite H0 in *. replace (Z.min 1 0) with 0 in * by reflexivity.
        split; [| lia].
        unfold bytes_of. simpl. reflexivity.
      * left. split; [reflexivity |]. split; [lia |].
        replace (Z.min 1 (used q)) with 1 in * by lia.
        split; [reflexivity | lia].
Qed.

Lemma pop_one_answers_witness :
  exists q' sigs r,
    tsqueue_pop (mk_tsqueue 4 0 1 store4 0 0 true false) 1 [x00]
    = Ret q' sigs r
    /\ r = mk_pop_result 0 0 [x00]
    /\ used q' = 0.
Proof.
  eexists. eexists. eexists.
  match goal with |- ?E /\ _ => assert (HE : E) by (vm_compute; reflexivity) end.
  split; [exact HE |].
  destruct (pop_one_answers
              (mk_tsqueue 4 0 1 store4 0 0 true false) [x00] _ _ _ _
              ltac:(solve_wf_store) ltac:(simpl; lia)
              (or_introl eq_refl) HE)
    as [(_ & Hbad & _) | [(_ & _ & _ & Hr & Hu) | (Hbad & _)]].
  - simpl in Hbad. lia.
  - split; [exact Hr | exact Hu].
  - discriminate Hbad.
Defined.

(** * The threads of the program *)

(** ** Lists updated in place *)

Lemma update_nth_length {A : Type} (n : nat) (g : A -> A) (l : list A) :
  length (update_nth n g l) = length l.
Proof.
  revert n. induction l as [| x l IH]; intros [| n]; simpl; auto.
Qed.

Lemma update_nth_firstn {A : Type} (n : nat) (g : A -> A) (l : list A) :
  firstn n (update_nth n g l) = firstn n l.
Proof.
  revert n. induction l as [| x l IH]; intros [| n]; simpl; auto.
  rewrite IH. reflexivity.
Qed.

Lemma update_nth_skipn {A : Type} (n m : nat) (g : A -> A) (l : list A) :
  (n < m)%nat -> skipn m (update_nth n g l) = skipn m l.
Proof.
  revert n m. induction l as [| x l IH]; intros [| n] [| m] H; simpl; auto;
    try lia.
  apply IH. lia.
Qed.

Lemma update_nth_at {A : Type} (n : nat) (g : A -> A) (l : list A) :
  (n < length l)%nat ->
  exists x, skipn n (update_nth n g l) = g x :: skipn (S n) l.
Proof.
  revert n. induction l as [| x l IH]; intros [| n] H; simpl in *; try lia.
  - exists x. reflexivity.
  - apply IH. lia.
Qed.

Lemma fscanf_job_measure f :
  feof f = false ->
  (file_measure (snd (fscanf_job f)) < file_measure f)%nat.
Proof.
  intros Hf. unfold fscanf_job, file_measure. rewrite Hf.
  destruct (answers f) as [| [id burst eof | errno eof] rest]; simpl;
    try lia; destruct eof; simpl; lia.
Qed.

Lemma fill_loop_spec (len : Z) :
  0 <= len < SizeT.modulus ->
  forall fuel f buffer used,
    0 <= used <= len ->
    len <= Z.of_nat (length buffer) ->
    (Z.to_nat (len - used) < fuel)%nat ->
    exists r,
      fill_job_buffer_loop fuel f len buffer used 0 = Some r
      /\ used <= fill_used r <= len
      /\ length (fill_buffer r) = length buffer
      /\ firstn (Z.to_nat used) (fill_buffer r) = firstn (Z.to_nat used) buffer
      /\ skipn (Z.to_nat (fill_used r)) (fill_buffer r)
         = skipn (Z.to_nat (fill_used r)) buffer
      /\ map id_and_burst
           (firstn (Z.to_nat (fill_used r - used))
                   (skipn (Z.to_nat used) (fill_buffer r)))
         = firstn (Z.to_nat (fill_used r - used)) (leading_pairs (answers f))
      /\ (fill_retval r = 0 ->
          (fill_used r = len \/ feof (fill_file r) = true)
          /\ leading_pairs (answers f)
             = firstn (Z.to_nat (fill_used r - used))
                      (leading_pairs (answers f))
                 ++ leading_pairs (answers (fill_file r)))
      /\ (fill_retval r <> 0 ->
          length (leading_pairs (answers f)) = Z.to_nat (fill_used r - used)
          /\ fill_retval r <> 0)
      /\ ((fill_file r = f /\ fill_used r = used
           /\ (feof f = true \/ used = len))
          \/ (feof f = false /\ used < len
              /\ (file_measure (fill_file r) < file_measure f)%nat)).
Proof.
  intros Hlen. induction fuel as [| fuel IH]; intros f buffer used Hu Hb Hf.
  - lia.
  - cbn [fill_job_buffer_loop].
    destruct (feof f) eqn:Heof; simpl.
    { eexists. split; [reflexivity |]. simpl.
      replace (used - used) with 0 by lia. simpl.
      repeat split; auto; try lia; try congruence. }
    destruct (Z.ltb_spec used len) as [Hlt | Hge].
    2: { eexists. split; [reflexivity |]. simpl.
         replace (used - used) with 0 by lia. simpl.
         repeat split; auto; try lia; try congruence.
         left. repeat split; auto. right. lia. }
    pose proof (fscanf_job_measure f Heof) as Hm.
    destruct (fscanf_job f) as [[[[id burst] |] errno] f'] eqn:Hscan;
      simpl in Hm.
    + (* a job was read *)
      assert (Hadd : SizeT.add used 1 = used + 1).
      { unfold SizeT.add. apply SizeT_wrap_small. unfold SizeT.in_range. lia. }
      rewrite Hadd.
      assert (Hans : exists eof, answers f = scan_two id burst eof :: answers f').
      { unfold fscanf_job in Hscan.
        destruct (answers f) as [| [i b e | er e] rest]; try discriminate.
        injection Hscan as <- <- _ <-. exists e. reflexivity. }
      destruct Hans as (eof & Hans).
      set (buffer1 := update_nth (Z.to_nat used) (set_id_and_burst id burst)
                                 buffer).
      destruct (IH f' buffer1 (used + 1)) as
        (r & E & Hr1 & Hr2 & Hr3 & Hr4 & Hr5 & Hr6 & Hr7 & Hr8);
        [lia | unfold buffer1; rewrite update_nth_length; lia | lia |].
      exists r. split; [exact E |].
      assert (Hul : (Z.to_nat used < length buffer)%nat) by lia.
      destruct (update_nth_at (Z.to_nat used) (set_id_and_burst id burst)
                              buffer Hul) as (x & Hx).
      fold buffer1 in Hx.
      assert (Hpre : firstn (Z.to_nat (used + 1)) buffer1
                     = firstn (Z.to_nat used) buffer
                         ++ [set_id_and_burst id burst x]).
      { rewrite <- (firstn_skipn (Z.to_nat used) buffer1) at 1.
        rewrite Hx. unfold buffer1 at 1.
        rewrite <- (update_nth_firstn (Z.to_nat used)
                      (set_id_and_burst id burst) buffer).
        fold buffer1.
        rewrite firstn_app, firstn_firstn, length_firstn.
        unfold buffer1 at 2. rewrite update_nth_length.
        replace (Init.Nat.min (Z.to_nat (used + 1)) (Z.to_nat used))
          with (Z.to_nat used) by lia.
        replace (Z.to_nat (used + 1)
                 - Init.Nat.min (Z.to_nat used) (length buffer))%nat
          with 1%nat by lia.
        reflexivity. }
      split; [lia |].
      split; [rewrite Hr2; apply update_nth_length |].
      split.
      { assert (H1 : firstn (Z.to_nat used)
                       (firstn (Z.to_nat (used + 1)) (fill_buffer r))
                     = firstn (Z.to_nat used) (fill_buffer r)).
        { rewrite firstn_firstn. f_equal. lia. }
        rewrite <- H1, Hr3, Hpre.
        rewrite firstn_app, firstn_firstn, length_firstn.
        replace (Z.to_nat used - Init.Nat.min (Z.to_nat used) (length buffer))%nat
          with 0%nat by lia.
        rewrite firstn_0, app_nil_r. f_equal. lia. }
      split.
      { rewrite Hr4. unfold buffer1. apply update_nth_skipn. lia. }
      split.
      { assert (Hsk : skipn (Z.to_nat used) (fill_buffer r)
                      = set_id_and_burst id burst x
                          :: skipn (Z.to_nat (used + 1)) (fill_buffer r)).
        { rewrite <- (firstn_skipn (Z.to_nat (used + 1)) (fill_buffer r)) at 1.
          rewrite Hr3, Hpre, <- app_assoc, skipn_app, length_firstn.
          rewrite skipn_all2 by (rewrite length_firstn; lia).
          replace (Z.to_nat used - Init.Nat.min (Z.to_nat used) (length buffer))%nat
            with 0%nat by lia.
          reflexivity. }
        rewrite Hsk, Hans.
        replace (Z.to_nat (fill_used r - used))
          with (S (Z.to_nat (fill_used r - (used + 1)))) by lia.
        simpl. rewrite Hr5. reflexivity. }
      split.
      { intros Hz. destruct (Hr6 Hz) as (Hr6a & Hr6b). split; [exact Hr6a |].
        rewrite Hans.
        replace (Z.to_nat (fill_used r - used))
          with (S (Z.to_nat (fill_used r - (used + 1)))) by lia.
        simpl. f_equal. exact Hr6b. }
      split.
      { intros Hnz. destruct (Hr7 Hnz) as (Hl & _). split; [| exact Hnz].
        rewrite Hans. simpl. rewrite Hl. lia. }
      right. split; [reflexivity |]. split; [lia |].
      destruct Hr8 as [(-> & _) | (_ & _ & Hm')]; lia.
    + (* the conversion failed *)
      assert (Hans : leading_pairs (answers f) = []).
      { unfold fscanf_job in Hscan.
        destruct (answers f) as [| [i b e | er e] rest]; try discriminate;
          reflexivity. }
      assert (Hnz : (if negb (errno =? 0) then errno else AE_BAD_FILE) <> 0).
      { destruct (Z.eqb_spec errno 0); simpl; [discriminate | assumption]. }
      assert (Hexit : forall fu rv, rv <> 0 ->
                 fill_job_buffer_loop fu f' len buffer used rv
                 = Some (mk_fill_result rv f' buffer used)).
      { intros fu rv Hrv. destruct fu; cbn [fill_job_buffer_loop];
          destruct (Z.eqb_spec rv 0); try contradiction;
          rewrite andb_false_r; reflexivity. }
      rewrite (Hexit _ _ Hnz).
      eexists. split; [reflexivity |]. simpl.
      replace (used - used) with 0 by lia. simpl. rewrite Hans.
      repeat split; auto; try lia.
Qed.

(** ** [fill_job_buffer] *)

Lemma fill_job_buffer_ok f len buffer :
  0 <= len < SizeT.modulus ->
  len <= Z.of_nat (length buffer) ->
  exists r,
    fill_job_buffer f len buffer = Some r
    /\ 0 <= fill_used r <= len
    /\ length (fill_buffer r) = length buffer
    /\ skipn (Z.to_nat (fill_used r)) (fill_buffer r)
       = skipn (Z.to_nat (fill_used r)) buffer
    /\ map id_and_burst (firstn (Z.to_nat (fill_used r)) (fill_buffer r))
       = firstn (Z.to_nat (fill_used r)) (leading_pairs (answers f))
    /\ (fill_retval r = 0 ->
        (fill_used r = len \/ feof (fill_file r) = true)
        /\ leading_pairs (answers f)
           = firstn (Z.to_nat (fill_used r)) (leading_pairs (answers f))
               ++ leading_pairs (answers (fill_file r)))
    /\ (fill_retval r <> 0 ->
        length (leading_pairs (answers f)) = Z.to_nat (fill_used r))
    /\ ((fill_file r = f /\ fill_used r = 0 /\ (feof f = true \/ len = 0))
        \/ (feof f = false /\ 0 < len
            /\ (file_measure (fill_file r) < file_measure f)%nat)).
Proof.
  intros Hlen Hb. unfold fill_job_buffer.
  destruct (fill_loop_spec len Hlen (S (Z.to_nat len)) f buffer 0)
    as (r & E & H1 & H2 & H3 & H4 & H5 & H6 & H7 & H8); try lia.
  exists r. split; [exact E |].
  replace (fill_used r - 0) with (fill_used r) in * by lia.
  simpl in H5.
  split; [lia |]. split; [exact H2 |]. split; [exact H4 |].
  split; [exact H5 |]. split; [exact H6 |].
  split; [intros Hnz; apply H7; exact Hnz |].
  destruct H8 as [(A & B & C) | (A & B & C)].
  - left. repeat split; auto. destruct C; auto.
  - right. auto.
Qed.

(** ** [task] *)

Lemma jobs_put_app tr1 tr2 : jobs_put (tr1 ++ tr2) = jobs_put tr1 ++ jobs_put tr2.
Proof.
  induction tr1 as [| a tr1 IH]; simpl; [reflexivity |].
  destruct a as [n ret | n jobs [[| p | p] |] | d | j ret | n ret]; simpl;
    rewrite ?IH, ?app_assoc; reflexivity.
Qed.

Lemma log_arrivals_quiet env k jobs :
  filter is_queue_action (snd (log_arrivals env k jobs)) = []
  /\ jobs_put (snd (log_arrivals env k jobs)) = [].
Proof.
  revert k. induction jobs as [| j jobs IH]; intros k; simpl; [auto |].
  destruct (log_arrival_ret env k =? 0); simpl; [| auto].
  specialize (IH (S k)).
  destruct (log_arrivals env (S k) jobs) as [[r k'] tr]. simpl in *. exact IH.
Qed.

Lemma stamp_arrivals_length env k n buffer :
  length (stamp_arrivals env k n buffer) = length buffer.
Proof.
  revert k buffer. induction n as [| n IH]; intros k [| j buffer]; simpl; auto.
Qed.

Lemma stamp_arrivals_id_and_burst env k n buffer :
  map id_and_burst (stamp_arrivals env k n buffer) = map id_and_burst buffer.
Proof.
  revert k buffer. induction n as [| n IH]; intros k [| j buffer]; simpl; auto.
  rewrite IH. reflexivity.
Qed.

Lemma producer_pattern_app limit c tr1 tr2 :
  producer_pattern limit true tr1 ->
  producer_pattern limit c tr2 ->
  producer_pattern limit c (tr1 ++ tr2).
Proof.
  intros H1 H2. remember true as t eqn:Ht.
  induction H1 as [| n jobs rest c1 Hn Hj H1 IH | |]; try discriminate.
  - exact H2.
  - simpl. apply pattern_round; auto.
Qed.

Lemma task_iteration_spec env limit f0 st :
  0 <= limit < SizeT.modulus ->
  task_invariant limit f0 st ->
  ts_retval st = 0 -> ts_queue_retval st = 0 ->
  match task_iteration env limit st with
  | iteration_no_fuel => False
  | iteration_stuck tr =>
      producer_pattern limit false (filter is_queue_action tr)
      /\ exists rest,
           leading_pairs (answers f0) = map id_and_burst (jobs_put tr) ++ rest
  | iteration_done st' =>
      task_invariant limit f0 st'
      /\ (feof (ts_job_file st) = false -> 0 < limit ->
          (file_measure (ts_job_file st') < file_measure (ts_job_file st))%nat)
  end.
Proof.
  intros Hlimit (Hpat & Hbuf & rest & Hrest & Hcur) Hr Hq.
  rewrite Hq in Hpat. simpl in Hpat. specialize (Hcur Hr Hq). subst rest.
  unfold task_iteration.
  destruct (fill_job_buffer_ok (ts_job_file st) limit (ts_job_buffer st)
              Hlimit Hbuf)
    as (r & E & H1 & H2 & H3 & H4 & H5 & H6 & H7).
  rewrite E.
  assert (Hmeasure : feof (ts_job_file st) = false -> 0 < limit ->
            (file_measure (fill_file r) < file_measure (ts_job_file st))%nat).
  { intros Hf Hl. destruct H7 as [(_ & _ & [C | C]) | (_ & _ & C)];
      [congruence | lia | exact C]. }
  destruct (Z.eqb_spec (fill_retval r) 0) as [Hz | Hnz]; simpl.
  2: { (* the file could not be read *)
    split; [| exact Hmeasure].
    split; [simpl; rewrite Hq; exact Hpat |].
    split; [simpl; lia |].
    simpl. eexists. split; [exact Hrest |]. intros Hbad. contradiction. }
  destruct (H5 Hz) as (_ & Hsplit).
  set (n := fill_used r) in *.
  set (buffer := stamp_arrivals env (ts_stamped st) (Z.to_nat n)
                                (fill_buffer r)).
  set (jobs := firstn (Z.to_nat n) buffer).
  assert (Hjobs_len : Z.of_nat (length jobs) = n).
  { unfold jobs, buffer. rewrite length_firstn, stamp_arrivals_length. lia. }
  assert (Hjobs : map id_and_burst jobs
                  = firstn (Z.to_nat n) (leading_pairs (answers (ts_job_file st)))).
  { unfold jobs, buffer. rewrite <- firstn_map, stamp_arrivals_id_and_burst.
    rewrite firstn_map. exact H4. }
  destruct (ts_answers st) as [| a answers1].
  { (* asleep for ever in tsqueue_wait_for_space *)
    rewrite filter_app, jobs_put_app. simpl. rewrite !app_nil_r. split.
    - apply producer_pattern_app; [exact Hpat |].
      apply pattern_wait_failed; [lia | discriminate].
    - eexists. exact Hrest. }
  destruct (Z.eqb_spec a 0) as [Ha | Ha]; simpl.
  2: { (* tsqueue_wait_for_space failed *)
    split; [| exact Hmeasure].
    split.
    { simpl. rewrite filter_app. simpl.
      destruct (Z.eqb_spec a 0); [contradiction |].
      apply producer_pattern_app; [exact Hpat |].
      apply pattern_wait_failed; [lia | congruence]. }
    split; [simpl; lia |].
    simpl. rewrite jobs_put_app. simpl. rewrite app_nil_r.
    eexists. split; [exact Hrest |]. intros _ Hbad. contradiction. }
  subst a.
  destruct answers1 as [| b answers2].
  { (* asleep for ever in tsqueue_put *)
    rewrite !filter_app, !jobs_put_app. simpl. rewrite !app_nil_r.
    rewrite <- app_assoc. simpl. split.
    - apply producer_pattern_app; [exact Hpat |].
      apply pattern_put_failed; [lia | exact Hjobs_len | discriminate].
    - eexists. exact Hrest. }
  destruct (Z.eqb_spec b 0) as [Hb | Hb]; simpl.
  2: { (* tsqueue_put failed *)
    split; [| exact Hmeasure].
    split.
    { simpl. rewrite !filter_app. simpl.
      destruct (Z.eqb_spec b 0); [contradiction |].
      rewrite <- app_assoc. simpl.
      apply producer_pattern_app; [exact Hpat |].
      apply pattern_put_failed; [lia | exact Hjobs_len | congruence]. }
    split; [simpl; unfold buffer; rewrite stamp_arrivals_length; lia |].
    simpl. rewrite !jobs_put_app. simpl.
    destruct b as [| p | p]; [contradiction | |];
      rewrite !app_nil_r; eexists; (split; [exact Hrest |]);
      intros _ Hbad; discriminate. }
  subst b.
  pose proof (log_arrivals_quiet env (ts_logged st) jobs) as (Hq1 & Hq2).
  destruct (log_arrivals env (ts_logged st) jobs) as [[retval logged] logs].
  simpl in Hq1, Hq2.
  split; [| exact Hmeasure].
  split.
  { simpl. rewrite !filter_app, Hq1. simpl. rewrite app_nil_r.
    rewrite <- app_assoc. simpl.
    apply producer_pattern_app; [exact Hpat |].
    apply pattern_round; [lia | exact Hjobs_len | apply pattern_nil]. }
  split; [simpl; unfold buffer; rewrite stamp_arrivals_length; lia |].
  simpl. rewrite !jobs_put_app, Hq2. simpl. rewrite !app_nil_r.
  exists (leading_pairs (answers (fill_file r))).
  split; [| auto].
  rewrite map_app, Hjobs, <- app_assoc, <- Hsplit. exact Hrest.
Qed.

Lemma task_exit_queue_actions env st :
  exists rv tr,
    task_exit env st = task_returns rv tr
    /\ filter is_queue_action tr
       = filter is_queue_action (ts_trace st) ++ [act_set_done true]
    /\ jobs_put tr = jobs_put (ts_trace st).
Proof.
  unfold task_exit. destruct (ts_retval st =? 0); eexists; eexists;
    (split; [reflexivity |]);
    rewrite ?filter_app, ?jobs_put_app; simpl; rewrite ?app_nil_r; auto.
Qed.

Lemma task_loop_spec env limit f0 :
  0 <= limit < SizeT.modulus ->
  forall fuel st,
    task_invariant limit f0 st ->
    match task_loop fuel env limit st with
    | task_returns rv tr =>
        (exists complete pre,
           filter is_queue_action tr = pre ++ [act_set_done true]
           /\ producer_pattern limit complete pre)
        /\ exists rest,
             leading_pairs (answers f0)
             = map id_and_burst (jobs_put tr) ++ rest
    | task_stuck tr =>
        producer_pattern limit false (filter is_queue_action tr)
        /\ exists rest,
             leading_pairs (answers f0)
             = map id_and_burst (jobs_put tr) ++ rest
    | task_no_fuel =>
        limit = 0 \/ (fuel <= file_measure (ts_job_file st))%nat
    end.
Proof.
  intros Hlimit. induction fuel as [| fuel IH]; intros st Hinv;
    cbn [task_loop].
  - destruct ((ts_retval st =? 0) && negb (feof (ts_job_file st))
              && (ts_queue_retval st =? 0)) eqn:Hcond.
    + right. lia.
    + destruct (task_exit_queue_actions env st) as (rv & tr & E & Hf & Hj).
      rewrite E. destruct Hinv as (Hpat & _ & rest & Hrest & _).
      split; [| exists rest; rewrite Hj; exact Hrest].
      eexists. eexists. split; [exact Hf | exact Hpat].
  - destruct ((ts_retval st =? 0) && negb (feof (ts_job_file st))
              && (ts_queue_retval st =? 0)) eqn:Hcond.
    + apply andb_prop in Hcond. destruct Hcond as (Hcond & Hq).
      apply andb_prop in Hcond. destruct Hcond as (Hr & Hf).
      apply Z.eqb_eq in Hr, Hq. apply negb_true_iff in Hf.
      pose proof (task_iteration_spec env limit f0 st Hlimit Hinv Hr Hq) as Hit.
      destruct (task_iteration env limit st) as [st' | tr |].
      * destruct Hit as (Hinv' & Hm).
        specialize (IH st' Hinv').
        destruct (task_loop fuel env limit st'); try exact IH.
        destruct IH as [H0 | Hfuel]; [left; exact H0 |].
        destruct (Z.eq_dec limit 0) as [H0 | H0]; [left; exact H0 |].
        right. specialize (Hm Hf ltac:(lia)). lia.
      * exact Hit.
      * contradiction.
    + destruct (task_exit_queue_actions env st) as (rv & tr & E & Hf & Hj).
      rewrite E. destruct Hinv as (Hpat & _ & rest & Hrest & _).
      split; [| exists rest; rewrite Hj; exact Hrest].
      eexists. eexists. split; [exact Hf | exact Hpat].
Qed.

Lemma task_initial_invariant env capacity f0 job_buffer job_buffer_length :
  job_buffer_length <= Z.of_nat (length job_buffer) ->
  task_invariant
    (if capacity <? job_buffer_length then capacity else job_buffer_length)
    f0 (mk_task_state 0 0 f0 job_buffer 0 (queue_answers env) 0 0 []).
Proof.
  intros Hb. split; [apply pattern_nil |]. split.
  - simpl. destruct (Z.ltb_spec capacity job_buffer_length); lia.
  - simpl. eexists. split; [reflexivity | auto].
Qed.






(** X16: the jobs reach the queue in file order.  The jobs of the
    successful [tsqueue_put] calls of [task], taken in order, carry the
    identifiers and burst times of the pairs at the head of the job file,
    in the order of the file, without gap or repetition. *)
Theorem task_puts_jobs_in_file_order fuel env capacity f0 job_buffer
  job_buffer_length :
  0 <= capacity < SizeT.modulus ->
  0 <= job_buffer_length < SizeT.modulus ->
  job_buffer_length <= Z.of_nat (length job_buffer) ->
  forall tr,
    (exists rv,
       task fuel env capacity f0 job_buffer job_buffer_length
       = task_returns rv tr)
    \/ task fuel env capacity f0 job_buffer job_buffer_length = task_stuck tr ->
    exists rest,
      leading_pairs (answers f0) = map id_and_burst (jobs_put tr) ++ rest.
Proof.
  intros Hc Hl Hb tr Htr. unfold task in Htr.
  assert (Hmin : 0 <= (if capacity <? job_buffer_length
                       then capacity else job_buffer_length)
                 < SizeT.modulus).
  { destruct (Z.ltb_spec capacity job_buffer_length); lia. }
  pose proof (task_loop_spec env _ f0 Hmin fuel _
                (task_initial_invariant env capacity f0 job_buffer
                   job_buffer_length Hb)) as H.
  destruct Htr as [(rv & E) | E]; rewrite E in H; apply H.
Qed.

Lemma task_puts_jobs_in_file_order_witness :
  exists rv tr,
    task 5 easy_env 10 three_jobs [no_job; no_job] 2 = task_returns rv tr
    /\ map id_and_burst (jobs_put tr) = [(1, 5); (2, 3); (3, 1)].
Proof.
  eexists. eexists.
  match goal with |- ?E /\ _ => assert (HE : E) by (vm_compute; reflexivity) end.
  split; [exact HE |].
  destruct (task_puts_jobs_in_file_order 5 easy_env 10 three_jobs
              [no_job; no_job] 2
              ltac:(rewrite SizeT_modulus_eq; lia)
              ltac:(rewrite SizeT_modulus_eq; lia)
              ltac:(simpl; lia) _ (or_introl (ex_intro _ _ HE)))
    as (rest & Hrest).
  reflexivity.
Defined.

(** X17: [task] terminates on a finite file.  With a queue of capacity at
    least 1 and a job buffer of at least one job, every iteration of the
    loop of [task] calls [fscanf] at least once, so the loop ends (or
    [task] sleeps in a queue call) within as many iterations as the file
    has answers to give, plus one. *)
Theorem task_terminates fuel env capacity f0 job_buffer job_buffer_length :
  1 <= capacity < SizeT.modulus ->
  1 <= job_buffer_length < SizeT.modulus ->
  job_buffer_length <= Z.of_nat (length job_buffer) ->
  (file_measure f0 < fuel)%nat ->
  task fuel env capacity f0 job_buffer job_buffer_length <> task_no_fuel.
Proof.
  intros Hc Hl Hb Hfuel E. unfold task in E.
  assert (Hmin : 1 <= (if capacity <? job_buffer_length
                       then capacity else job_buffer_length)
                 < SizeT.modulus).
  { destruct (Z.ltb_spec capacity job_buffer_length); lia. }
  assert (Hmin0 : 0 <= (if capacity <? job_buffer_length
                        then capacity else job_buffer_length)
                  < SizeT.modulus) by lia.
  pose proof (task_loop_spec env _ f0 Hmin0 fuel _
                (task_initial_invariant env capacity f0 job_buffer
                   job_buffer_length Hb)) as H.
  rewrite E in H. simpl in H. lia.
Qed.

Lemma task_terminates_witness :
  task 5 easy_env 10 three_jobs [no_job; no_job] 2 <> task_no_fuel.
Proof.
  apply task_terminates.
  - rewrite SizeT_modulus_eq. lia.
  - rewrite SizeT_modulus_eq. lia.
  - simpl. lia.
  - vm_compute. lia.
Defined.

Lemma fill_job_buffer_loop_exit fuel f len buffer used retval :
  retval <> 0 ->
  fill_job_buffer_loop fuel f len buffer used retval
  = Some (mk_fill_result retval f buffer used).
Proof.
  intros Hnz. destruct fuel; cbn [fill_job_buffer_loop];
    destruct (Z.eqb_spec retval 0); try contradiction;
    rewrite andb_false_r; reflexivity.
Qed.

(** X18: a job file that cannot be read.  If the very first [fscanf]
    does not convert a pair (the file is empty, or starts with something
    else than two numbers), [task] puts nothing into the queue and logs
    nothing, but still calls [tsqueue_set_done (queue, true)]; it returns
    [errno] if [fscanf] set it and [AE_BAD_FILE] otherwise: in
    particular an empty job file is reported as [AE_BAD_FILE]. *)
Theorem task_unreadable_file fuel env capacity f0 job_buffer job_buffer_length :
  1 <= capacity -> 1 <= job_buffer_length ->
  feof f0 = false ->
  leading_pairs (answers f0) = [] ->
  task (S (S fuel)) env capacity f0 job_buffer job_buffer_length
  = task_returns
      (match answers f0 with
       | scan_other errno _ :: _ => if errno =? 0 then AE_BAD_FILE else errno
       | _ => AE_BAD_FILE
       end)
      [act_set_done true].
Proof.
  intros Hc Hl Hf Hp. unfold task.
  set (limit := if capacity <? job_buffer_length
                then capacity else job_buffer_length).
  assert (Hlim : 1 <= limit).
  { unfold limit. destruct (Z.ltb_spec capacity job_buffer_length); lia. }
  set (rv := match answers f0 with
             | scan_other errno _ :: _ =>
                 if errno =? 0 then AE_BAD_FILE else errno
             | _ => AE_BAD_FILE
             end).
  assert (Hrv : rv <> 0).
  { unfold rv. destruct (answers f0) as [| [id burst eof | errno eof] rest];
      try discriminate.
    destruct (Z.eqb_spec errno 0); [discriminate | assumption]. }
  assert (Hfill : exists f',
             fill_job_buffer f0 limit job_buffer
             = Some (mk_fill_result rv f' job_buffer 0)).
  { unfold fill_job_buffer. cbn [fill_job_buffer_loop]. rewrite Hf. simpl.
    destruct (Z.ltb_spec 0 limit) as [_ | Hbad]; [| lia].
    unfold fscanf_job, rv.
    destruct (answers f0) as [| [id burst eof | errno eof] rest];
      [| discriminate |].
    - eexists. apply fill_job_buffer_loop_exit. discriminate.
    - eexists. destruct (Z.eqb_spec errno 0) as [-> | Hne]; simpl;
        apply fill_job_buffer_loop_exit; [discriminate | assumption]. }
  destruct Hfill as (f' & Hfill).
  cbn [task_loop]. simpl. rewrite Hf. simpl.
  unfold task_iteration. simpl. rewrite Hfill. simpl.
  destruct (Z.eqb_spec rv 0) as [Hbad | _]; [contradiction |]. simpl.
  unfold task_exit. simpl.
  destruct fuel; simpl;
    (destruct (Z.eqb_spec rv 0) as [Hbad | _]; [contradiction |]);
    reflexivity.
Qed.

Lemma task_unreadable_file_witness :
  task 2 easy_env 10 (mk_job_file false []) [no_job; no_job] 2
  = task_returns AE_BAD_FILE [act_set_done true].
Proof.
  apply (task_unreadable_file 0 easy_env 10 (mk_job_file false [])
           [no_job; no_job] 2); try lia; reflexivity.
Defined.

(** ** [cpu] *)

Lemma pop_requests_app tr1 tr2 :
  pop_requests (tr1 ++ tr2) = pop_requests tr1 ++ pop_requests tr2.
Proof.
  induction tr1 as [| a tr1 IH]; simpl; [reflexivity |].
  destruct a; simpl; rewrite IH; reflexivity.
Qed.

Lemma jobs_served_app tr1 tr2 :
  jobs_served (tr1 ++ tr2) = jobs_served tr1 ++ jobs_served tr2.
Proof.
  induction tr1 as [| a tr1 IH]; simpl; [reflexivity |].
  destruct a; simpl; rewrite IH; reflexivity.
Qed.

(** What one call of [handle_job] does. *)
Lemma handle_job_spec env k job stats :
  exists r stats' tr served,
    handle_job env k job stats = (r, stats', tr)
    /\ pop_requests tr = []
    /\ existsb is_cpu_done tr = false
    /\ jobs_served tr = [served]
    /\ num_tasks stats' = SizeT.add (num_tasks stats) 1
    /\ total_waiting_time stats'
       = total_waiting_time stats + waiting_time served
    /\ (log_service_ret env k <> 0 ->
        r = log_service_ret env k
        /\ total_turnaround_time stats' = total_turnaround_time stats)
    /\ (log_service_ret env k = 0 ->
        r = log_completion_ret env k
        /\ total_turnaround_time stats'
           = total_turnaround_time stats + waiting_time served
             + (tv_sec (fst (completion_clocks env k))
                - tv_sec (fst (service_clocks env k)))).
Proof.
  unfold handle_job.
  destruct (Z.eqb_spec (log_service_ret env k) 0) as [Hz | Hnz].
  - do 4 eexists. split; [reflexivity |]. simpl.
    split; [reflexivity |]. split; [reflexivity |]. split; [reflexivity |].
    split; [reflexivity |]. split; [reflexivity |].
    split; [intros Hbad; contradiction |].
    intros _. split; [reflexivity |]. unfold waiting_time. simpl. lia.
  - do 4 eexists. split; [reflexivity |]. simpl.
    split; [reflexivity |]. split; [reflexivity |]. split; [reflexivity |].
    split; [reflexivity |]. split; [reflexivity |].
    split; [intros _; split; reflexivity |].
    intros Hbad; contradiction.
Qed.

(** One iteration of the loop of [cpu], entered with [retval = 0] and
    [jobs_from_queue = 1]. *)
Lemma cpu_loop_step env a rest n_jobs k stats trace :
  cpu_loop env (a :: rest) 0 1 n_jobs k stats trace
  = if gives_job a then
      if fst (fst (handle_job env k (pa_job a) stats)) =? 0
      then cpu_loop env rest 0 1 (SizeT.add n_jobs 1) (S k)
             (snd (fst (handle_job env k (pa_job a) stats)))
             ((trace ++ [cpu_pop 1 (Some a)])
                ++ snd (handle_job env k (pa_job a) stats))
      else cpu_returns (fst (fst (handle_job env k (pa_job a) stats)))
             (snd (fst (handle_job env k (pa_job a) stats)))
             ((trace ++ [cpu_pop 1 (Some a)])
                ++ snd (handle_job env k (pa_job a) stats))
    else if pa_retval a =? 0
    then cpu_returns (log_cpu_done_ret env) stats
           ((trace ++ [cpu_pop 1 (Some a)])
              ++ [cpu_log_cpu_done n_jobs (log_cpu_done_ret env)])
    else cpu_returns 0 stats (trace ++ [cpu_pop 1 (Some a)]).
Proof.
  cbn [cpu_loop]. unfold gives_job.
  destruct (Z.eqb_spec (pa_n_elems a) 1) as [Hn | Hn]; simpl.
  - destruct (Z.eqb_spec (pa_retval a) 0) as [Hq | Hq]; simpl.
    + destruct (handle_job env k (pa_job a) stats) as [[r st'] tr]. simpl.
      destruct (Z.eqb_spec r 0) as [Hr | Hr]; simpl.
      * rewrite Hr, Hn. reflexivity.
      * unfold cpu_exit.
        destruct (Z.eqb_spec r 0); [contradiction | reflexivity].
    + unfold cpu_exit. simpl.
      destruct (Z.eqb_spec (pa_retval a) 0); [contradiction |].
      reflexivity.
  - unfold cpu_exit. simpl.
    destruct (Z.eqb_spec (pa_retval a) 0); reflexivity.
Qed.

Lemma cpu_loop_stuck env retval n_jobs k stats trace :
  cpu_loop env [] retval 1 n_jobs k stats trace
  = cpu_stuck stats (trace ++ [cpu_pop 1 None]).
Proof. reflexivity. Qed.

(** X19: a consumer asks for one job at a time.  Every [tsqueue_pop] of
    [cpu] is made with [*n_elems = 1]: the loop goes on only when the
    queue has given back exactly one element. *)
Theorem cpu_asks_for_one_job env stats :
  match cpu env stats with
  | cpu_returns _ _ tr => Forall (fun n => n = 1) (pop_requests tr)
  | cpu_stuck _ tr => Forall (fun n => n = 1) (pop_requests tr)
  end.
Proof.
  unfold cpu.
  assert (H : forall ans n_jobs k stats trace,
             Forall (fun n => n = 1) (pop_requests trace) ->
             match cpu_loop env ans 0 1 n_jobs k stats trace with
             | cpu_returns _ _ tr => Forall (fun n => n = 1) (pop_requests tr)
             | cpu_stuck _ tr => Forall (fun n => n = 1) (pop_requests tr)
             end).
  { induction ans as [| a rest IH]; intros n_jobs k st trace Htr.
    - rewrite cpu_loop_stuck, pop_requests_app. apply Forall_app.
      split; [exact Htr |]. simpl. constructor; [reflexivity | constructor].
    - assert (Htr1 : Forall (fun n => n = 1)
                       (pop_requests (trace ++ [cpu_pop 1 (Some a)]))).
      { rewrite pop_requests_app. apply Forall_app. split; [exact Htr |].
        simpl. constructor; [reflexivity | constructor]. }
      rewrite cpu_loop_step.
      destruct (handle_job_spec env k (pa_job a) st)
        as (r & st' & tr & served & E & Hp & _).
      rewrite E. simpl.
      assert (Htr2 : Forall (fun n => n = 1)
                       (pop_requests ((trace ++ [cpu_pop 1 (Some a)]) ++ tr))).
      { rewrite pop_requests_app, Hp, app_nil_r. exact Htr1. }
      destruct (gives_job a).
      + destruct (r =? 0); [apply IH; exact Htr2 | exact Htr2].
      + destruct (pa_retval a =? 0); [| exact Htr1].
        rewrite pop_requests_app. simpl. rewrite app_nil_r. exact Htr1. }
  apply H. constructor.
Qed.

(** X20: how [cpu] ends.  When [cpu] returns, the queue has given it a
    run of single jobs, each handled without error, and then one last
    answer.  If that answer is an error of the queue ([TSQUEUE_CLOSED]),
    [cpu] returns 0 and does not write its termination line: the error is
    not reported.  If it is 0 with no job (the graceful end), [cpu]
    writes the termination line with the number of jobs it has handled
    and returns what [log_cpu_done] returned.  If it is one more job,
    handling it has failed and [cpu] returns that error, without the
    termination line. *)
Theorem cpu_end_of_work env stats rv stats' tr :
  cpu env stats = cpu_returns rv stats' tr ->
  exists handled last rest,
    pop_answers env = handled ++ last :: rest
    /\ forallb gives_job handled = true
    /\ length (pop_requests tr) = S (length handled)
    /\ (pa_retval last <> 0 ->
        rv = 0 /\ existsb is_cpu_done tr = false)
    /\ (pa_retval last = 0 -> pa_n_elems last <> 1 ->
        rv = log_cpu_done_ret env
        /\ exists tr0,
             tr = tr0 ++ [cpu_log_cpu_done
                            (SizeT.wrap (Z.of_nat (length handled))) rv]
             /\ existsb is_cpu_done tr0 = false)
    /\ (gives_job last = true ->
        rv <> 0 /\ existsb is_cpu_done tr = false).
Proof.
  unfold cpu.
  assert (H : forall ans m k st trace,
             existsb is_cpu_done trace = false ->
             cpu_loop env ans 0 1 (SizeT.wrap (Z.of_nat m)) k st trace
             = cpu_returns rv stats' tr ->
             exists handled last rest,
               ans = handled ++ last :: rest
               /\ forallb gives_job handled = true
               /\ length (pop_requests tr)
                  = (length (pop_requests trace) + S (length handled))%nat
               /\ (pa_retval last <> 0 ->
                   rv = 0 /\ existsb is_cpu_done tr = false)
               /\ (pa_retval last = 0 -> pa_n_elems last <> 1 ->
                   rv = log_cpu_done_ret env
                   /\ exists tr0,
                        tr = tr0 ++ [cpu_log_cpu_done
                                       (SizeT.wrap
                                          (Z.of_nat (m + length handled))) rv]
                        /\ existsb is_cpu_done tr0 = false)
               /\ (gives_job last = true ->
                   rv <> 0 /\ existsb is_cpu_done tr = false)).
  { induction ans as [| a rest IH]; intros m k st trace Htr E.
    - rewrite cpu_loop_stuck in E. discriminate.
    - rewrite cpu_loop_step in E.
      destruct (handle_job_spec env k (pa_job a) st)
        as (r & st1 & tr1 & served & Eh & Hp & Hd & _).
      rewrite Eh in E. simpl in E.
      assert (Htr1 : existsb is_cpu_done (trace ++ [cpu_pop 1 (Some a)])
                     = false).
      { rewrite existsb_app, Htr. reflexivity. }
      assert (Hlen1 : length (pop_requests (trace ++ [cpu_pop 1 (Some a)]))
                      = S (length (pop_requests trace))).
      { rewrite pop_requests_app, length_app. simpl. lia. }
      destruct (gives_job a) eqn:Hg.
      + destruct (Z.eqb_spec r 0) as [Hr | Hr].
        * rewrite wrap_add_one in E.
          replace (Z.of_nat m + 1) with (Z.of_nat (S m)) in E by lia.
          destruct (IH (S m) (S k) st1 _ ltac:(rewrite existsb_app, Htr1, Hd;
                                               reflexivity) E)
            as (handled & last & rest' & Ha & Hf & Hl & H1 & H2 & H3).
          exists (a :: handled), last, rest'.
          split; [rewrite Ha; reflexivity |].
          split; [simpl; rewrite Hg, Hf; reflexivity |].
          split.
          { rewrite Hl, pop_requests_app, Hp, app_nil_r, Hlen1. simpl. lia. }
          split; [exact H1 |]. split; [| exact H3].
          intros Hq Hn. destruct (H2 Hq Hn) as (Hrv & tr0 & Htr0 & Hd0).
          split; [exact Hrv |]. exists tr0. split; [| exact Hd0].
          rewrite Htr0. do 4 f_equal. simpl. lia.
        * injection E as <- <- <-.
          exists [], a, rest. split; [reflexivity |]. split; [reflexivity |].
          split.
          { rewrite pop_requests_app, Hp, app_nil_r, Hlen1. simpl. lia. }
          assert (Hno : existsb is_cpu_done
                          ((trace ++ [cpu_pop 1 (Some a)]) ++ tr1) = false).
          { rewrite existsb_app, Htr1, Hd. reflexivity. }
          unfold gives_job in Hg. apply andb_prop in Hg.
          destruct Hg as (Hg1 & Hg2). apply Z.eqb_eq in Hg1, Hg2.
          split; [intros Hbad; contradiction |].
          split; [intros _ Hbad; contradiction |].
          intros _. split; [exact Hr | exact Hno].
      + destruct (Z.eqb_spec (pa_retval a) 0) as [Hq | Hq].
        * injection E as <- <- <-.
          exists [], a, rest. split; [reflexivity |]. split; [reflexivity |].
          split.
          { rewrite pop_requests_app. simpl. rewrite app_nil_r, Hlen1. lia. }
          split; [intros Hbad; contradiction |].
          split; [| intros Hbad; congruence].
          intros _ _. split; [reflexivity |].
          eexists. split; [| exact Htr1].
          simpl. rewrite Nat.add_0_r. reflexivity.
        * injection E as <- <- <-.
          exists [], a, rest. split; [reflexivity |]. split; [reflexivity |].
          split; [rewrite Hlen1; simpl; lia |].
          split; [intros _; split; [reflexivity | exact Htr1] |].
          split; [intros Hbad; contradiction | intros Hbad; congruence]. }
  intros E.
  destruct (H (pop_answers env) 0%nat 0%nat stats [] eq_refl E)
    as (handled & last & rest & Ha & Hf & Hl & H1 & H2 & H3).
  exists handled, last, rest. repeat (split; [assumption |]). exact H3.
Qed.

Lemma cpu_end_of_work_witness :
  exists rv stats' tr,
    cpu one_job_env (mk_cpu_shared_stats 0 0 0) = cpu_returns rv stats' tr
    /\ exists handled last rest,
         pop_answers one_job_env = handled ++ last :: rest
         /\ forallb gives_job handled = true
         /\ length (pop_requests tr) = S (length handled)
         /\ (pa_retval last <> 0 ->
             rv = 0 /\ existsb is_cpu_done tr = false)
         /\ (pa_retval last = 0 -> pa_n_elems last <> 1 ->
             rv = log_cpu_done_ret one_job_env
             /\ exists tr0,
                  tr = tr0 ++ [cpu_log_cpu_done
                                 (SizeT.wrap (Z.of_nat (length handled))) rv]
                  /\ existsb is_cpu_done tr0 = false)
         /\ (gives_job last = true ->
             rv <> 0 /\ existsb is_cpu_done tr = false).
Proof.
  do 3 eexists. split; [reflexivity |].
  eapply (cpu_end_of_work one_job_env (mk_cpu_shared_stats 0 0 0)).
  reflexivity.
Defined.

Lemma jobs_completed_app tr1 tr2 :
  jobs_completed (tr1 ++ tr2) = jobs_completed tr1 ++ jobs_completed tr2.
Proof.
  induction tr1 as [| a tr1 IH]; simpl; [reflexivity |].
  destruct a; simpl; rewrite IH; reflexivity.
Qed.

Lemma sum_Z_app l1 l2 : sum_Z (l1 ++ l2) = sum_Z l1 + sum_Z l2.
Proof.
  unfold sum_Z. induction l1 as [| a l1 IH]; simpl; [reflexivity |].
  rewrite IH. lia.
Qed.

(** What one call of [handle_job] adds to the statistics. *)
Lemma handle_job_stats env k job stats :
  let tr := snd (handle_job env k job stats) in
  let stats' := snd (fst (handle_job env k job stats)) in
  jobs_served tr = [set_service (service_clocks env k) job]
  /\ (length (jobs_completed tr) <= 1)%nat
  /\ num_tasks stats' = SizeT.add (num_tasks stats) 1
  /\ total_waiting_time stats'
     = total_waiting_time stats + sum_Z (map waiting_time (jobs_served tr))
  /\ total_turnaround_time stats'
     = total_turnaround_time stats
       + sum_Z (map turnaround_time (jobs_completed tr)).
Proof.
  unfold handle_job.
  destruct (log_service_ret env k =? 0); simpl;
    unfold waiting_time, turnaround_time; simpl;
    repeat split; lia.
Qed.

(** X21: the shared statistics count what the log shows.  Whether [cpu]
    returns or sleeps for ever in [tsqueue_pop], it has added one to
    [num_tasks] and the waiting time to [total_waiting_time] for every
    job whose service it has logged or tried to log, and the turnaround
    time to [total_turnaround_time] for every job it has run: a job whose
    service line could not be written is counted and waited for, but adds
    no turnaround time. *)
Theorem cpu_statistics env stats :
  SizeT.in_range (num_tasks stats) ->
  let served := jobs_served (cpu_end_trace (cpu env stats)) in
  let completed := jobs_completed (cpu_end_trace (cpu env stats)) in
  let stats' := cpu_end_stats (cpu env stats) in
  num_tasks stats'
  = SizeT.wrap (num_tasks stats + Z.of_nat (length served))
  /\ total_waiting_time stats'
     = total_waiting_time stats + sum_Z (map waiting_time served)
  /\ total_turnaround_time stats'
     = total_turnaround_time stats + sum_Z (map turnaround_time completed)
  /\ (length completed <= length served)%nat.
Proof.
  intros Hrange. unfold cpu.
  assert (H : forall ans n_jobs k st trace,
             num_tasks st
             = SizeT.wrap (num_tasks stats
                           + Z.of_nat (length (jobs_served trace))) ->
             total_waiting_time st
             = total_waiting_time stats
               + sum_Z (map waiting_time (jobs_served trace)) ->
             total_turnaround_time st
             = total_turnaround_time stats
               + sum_Z (map turnaround_time (jobs_completed trace)) ->
             (length (jobs_completed trace) <= length (jobs_served trace))%nat ->
             let e := cpu_loop env ans 0 1 n_jobs k st trace in
             num_tasks (cpu_end_stats e)
             = SizeT.wrap (num_tasks stats
                           + Z.of_nat (length (jobs_served (cpu_end_trace e))))
             /\ total_waiting_time (cpu_end_stats e)
                = total_waiting_time stats
                  + sum_Z (map waiting_time (jobs_served (cpu_end_trace e)))
             /\ total_turnaround_time (cpu_end_stats e)
                = total_turnaround_time stats
                  + sum_Z (map turnaround_time
                             (jobs_completed (cpu_end_trace e)))
             /\ (length (jobs_completed (cpu_end_trace e))
                 <= length (jobs_served (cpu_end_trace e)))%nat).
  { induction ans as [| a rest IH]; intros n_jobs k st trace Hn Hw Ht Hl e;
      subst e.
    - rewrite cpu_loop_stuck. simpl.
      rewrite jobs_served_app, jobs_completed_app. simpl.
      rewrite !app_nil_r. repeat split; assumption.
    - rewrite cpu_loop_step.
      pose proof (handle_job_stats env k (pa_job a) st) as Hh.
      destruct (handle_job env k (pa_job a) st) as [[r st1] tr1].
      simpl in Hh. destruct Hh as (Hs & Hc & Hn1 & Hw1 & Ht1). simpl.
      assert (Hinv :
        num_tasks st1
        = SizeT.wrap (num_tasks stats
                      + Z.of_nat (length (jobs_served
                           ((trace ++ [cpu_pop 1 (Some a)]) ++ tr1))))
        /\ total_waiting_time st1
           = total_waiting_time stats
             + sum_Z (map waiting_time (jobs_served
                        ((trace ++ [cpu_pop 1 (Some a)]) ++ tr1)))
        /\ total_turnaround_time st1
           = total_turnaround_time stats
             + sum_Z (map turnaround_time (jobs_completed
                        ((trace ++ [cpu_pop 1 (Some a)]) ++ tr1)))
        /\ (length (jobs_completed ((trace ++ [cpu_pop 1 (Some a)]) ++ tr1))
            <= length (jobs_served
                         ((trace ++ [cpu_pop 1 (Some a)]) ++ tr1)))%nat).
      { rewrite !jobs_served_app, !jobs_completed_app. simpl.
        rewrite !app_nil_r, !map_app, !sum_Z_app, !length_app.
        rewrite Hn1, Hw1, Ht1, Hn, Hw, Ht, wrap_add_one, Hs. simpl.
        split; [f_equal; lia |]. split; [lia |]. split; [lia |]. lia. }
      destruct Hinv as (I1 & I2 & I3 & I4).
      destruct (gives_job a).
      + destruct (r =? 0).
        * apply IH; assumption.
        * simpl. repeat split; assumption.
      + destruct (pa_retval a =? 0); simpl.
        * rewrite !jobs_served_app, !jobs_completed_app. simpl.
          rewrite !app_nil_r. repeat split; assumption.
        * rewrite !jobs_served_app, !jobs_completed_app. simpl.
          rewrite !app_nil_r. repeat split; assumption. }
  apply H; simpl; try lia.
  rewrite Z.add_0_r. symmetry. apply SizeT_wrap_small. exact Hrange.
Qed.

Lemma cpu_statistics_witness :
  let stats := mk_cpu_shared_stats 0 0 0 in
  let served := jobs_served (cpu_end_trace (cpu one_job_env stats)) in
  let completed := jobs_completed (cpu_end_trace (cpu one_job_env stats)) in
  let stats' := cpu_end_stats (cpu one_job_env stats) in
  SizeT.in_range (num_tasks stats)
  /\ num_tasks stats'
     = SizeT.wrap (num_tasks stats + Z.of_nat (length served))
  /\ total_waiting_time stats'
     = total_waiting_time stats + sum_Z (map waiting_time served)
  /\ total_turnaround_time stats'
     = total_turnaround_time stats + sum_Z (map turnaround_time completed)
  /\ (length completed <= length served)%nat.
Proof.
  assert (Hrange : SizeT.in_range (num_tasks (mk_cpu_shared_stats 0 0 0))).
  { unfold SizeT.in_range. simpl. rewrite SizeT_modulus_eq. lia. }
  split; [exact Hrange |].
  apply (cpu_statistics one_job_env (mk_cpu_shared_stats 0 0 0) Hrange).
Defined.

(** X22: jobs are served in the order the queue gives them.  The jobs
    [cpu] serves are the jobs of the first answers of the queue, all of
    them answers with exactly one job and no error, in the same order,
    each changed only by the service times read for it. *)
Theorem cpu_serves_in_queue_order env stats :
  exists n,
    forallb gives_job (firstn n (pop_answers env)) = true
    /\ jobs_served (cpu_end_trace (cpu env stats))
       = serve_all env 0 (map pa_job (firstn n (pop_answers env))).
Proof.
  unfold cpu.
  assert (H : forall ans n_jobs k st trace,
             exists n,
               forallb gives_job (firstn n ans) = true
               /\ jobs_served
                    (cpu_end_trace (cpu_loop env ans 0 1 n_jobs k st trace))
                  = jobs_served trace
                    ++ serve_all env k (map pa_job (firstn n ans))).
  { induction ans as [| a rest IH]; intros n_jobs k st trace.
    - exists 0%nat. split; [reflexivity |].
      rewrite cpu_loop_stuck. simpl. rewrite jobs_served_app. reflexivity.
    - rewrite cpu_loop_step.
      pose proof (handle_job_stats env k (pa_job a) st) as Hh.
      destruct (handle_job env k (pa_job a) st) as [[r st1] tr1].
      simpl in Hh. destruct Hh as (Hs & _). simpl.
      destruct (gives_job a) eqn:Hg.
      + destruct (r =? 0).
        * destruct (IH (SizeT.add n_jobs 1) (S k) st1
                      ((trace ++ [cpu_pop 1 (Some a)]) ++ tr1))
            as (n & Hf & Hj).
          exists (S n). split; [simpl; rewrite Hg, Hf; reflexivity |].
          rewrite Hj, !jobs_served_app, Hs. simpl.
          rewrite app_nil_r, <- app_assoc. reflexivity.
        * exists 1%nat. split; [simpl; rewrite Hg; reflexivity |].
          simpl. rewrite !jobs_served_app, Hs. simpl.
          rewrite app_nil_r. reflexivity.
      + exists 0%nat. split; [reflexivity |].
        destruct (pa_retval a =? 0); simpl;
          rewrite !jobs_served_app; simpl; rewrite !app_nil_r; reflexivity. }
  destruct (H (pop_answers env) 0 0%nat stats []) as (n & Hf & Hj).
  exists n. split; [exact Hf | exact Hj].
Qed.

(** ** [main] *)

Lemma create_loop_spec env :
  forall remaining i trace,
    Z.of_nat i + Z.of_nat remaining < SizeT.modulus ->
    exists n,
      (n <= remaining)%nat
      /\ (forall j, (i <= j < i + n)%nat -> create_cpu_ret env j = 0)
      /\ ((n < remaining)%nat ->
          create_cpu_ret env (i + n) <> 0
          /\ create_loop env remaining (Z.of_nat i) trace
             = (create_cpu_ret env (i + n), Z.of_nat (i + n) + 1,
                trace
                ++ map (fun j => main_create_cpu (Z.of_nat j) 0) (seq i n)
                ++ [main_create_cpu (Z.of_nat (i + n))
                      (create_cpu_ret env (i + n))]))
      /\ (n = remaining ->
          create_loop env remaining (Z.of_nat i) trace
          = (0, Z.of_nat (i + n),
             trace
             ++ map (fun j => main_create_cpu (Z.of_nat j) 0) (seq i n))).
Proof.
  induction remaining as [| r IH]; intros i trace Hsmall.
  - exists 0%nat. split; [lia |]. split; [intros j Hj; lia |].
    split; [intros Hbad; lia |]. intros _. simpl.
    rewrite app_nil_r, Nat.add_0_r. reflexivity.
  - cbn [create_loop]. rewrite Nat2Z.id.
    assert (Hadd : SizeT.add (Z.of_nat i) 1 = Z.of_nat (S i)).
    { unfold SizeT.add. rewrite SizeT_wrap_small; [lia |].
      unfold SizeT.in_range. lia. }
    rewrite Hadd.
    destruct (Z.eqb_spec (create_cpu_ret env i) 0) as [Hz | Hnz].
    + destruct (IH (S i) (trace ++ [main_create_cpu (Z.of_nat i)
                                      (create_cpu_ret env i)])
                  ltac:(lia)) as (n & Hn & Hok & Hfail & Hall).
      exists (S n). split; [lia |]. split.
      { intros j Hj. destruct (Nat.eq_dec j i) as [-> | Hne];
          [exact Hz | apply Hok; lia]. }
      replace (i + S n)%nat with (S i + n)%nat by lia.
      split.
      * intros Hlt. destruct (Hfail ltac:(lia)) as (Hne & E).
        split; [exact Hne |]. rewrite E, Hz. simpl.
        rewrite <- !app_assoc. reflexivity.
      * intros Heq. rewrite (Hall ltac:(lia)), Hz. simpl.
        rewrite <- !app_assoc. reflexivity.
    + exists 0%nat. split; [lia |]. split; [intros j Hj; lia |].
      rewrite Nat.add_0_r. split; [| intros Hbad; lia].
      intros _. split; [exact Hnz |]. simpl.
      replace (Z.of_nat i + 1) with (Z.of_nat (S i)) by lia. reflexivity.
Qed.

Lemma join_loop_spec env :
  forall n j retval trace,
    join_loop env n j retval trace
    = (first_nonzero (retval :: map (cpu_retval env) (seq j n)),
       trace ++ map main_join_cpu (seq j n)).
Proof.
  induction n as [| n IH]; intros j retval trace.
  - simpl. rewrite app_nil_r. destruct (retval =? 0) eqn:E; [| reflexivity].
    apply Z.eqb_eq in E. rewrite E. reflexivity.
  - cbn [join_loop]. rewrite IH. simpl. rewrite <- app_assoc. simpl.
    destruct (retval =? 0) eqn:E; [reflexivity |]. rewrite E. reflexivity.
Qed.

Lemma first_nonzero_app l1 l2 :
  first_nonzero (l1 ++ l2)
  = if first_nonzero l1 =? 0 then first_nonzero l2 else first_nonzero l1.
Proof.
  induction l1 as [| x l1 IH]; simpl; [reflexivity |].
  destruct (x =? 0) eqn:E; [exact IH |]. rewrite E. reflexivity.
Qed.

(** X23: [main] joins exactly the threads it has started.  Once the
    [task] thread is started, [main] starts the [cpu] threads in order
    until one [pthread_create] fails.  If none fails it joins [task] and
    then all of them.  If the one for index [n] fails it closes the
    queue, joins [task] and then the [n] threads started before, and no
    other.  Its [retval] is the first that is not zero of: the error of
    [pthread_create], the [retval] of the joined [cpu] threads in order,
    the [retval] of [task]. *)
Theorem main_joins_started_threads env count :
  create_task_ret env = 0 ->
  Z.of_nat count < SizeT.modulus ->
  exists n,
    (n <= count)%nat
    /\ (forall j, (j < n)%nat -> create_cpu_ret env j = 0)
    /\ ((n < count)%nat ->
        create_cpu_ret env n <> 0
        /\ start_and_join env count
           = (create_cpu_ret env n,
              [main_create_task 0] ++ started n
              ++ [main_create_cpu (Z.of_nat n) (create_cpu_ret env n);
                  main_close; main_join_task]
              ++ joined n))
    /\ (n = count ->
        start_and_join env count
        = (first_nonzero (map (cpu_retval env) (seq 0 n)
                          ++ [task_retval env]),
           [main_create_task 0] ++ started n ++ [main_join_task]
           ++ joined n)).
Proof.
  intros Htask Hsmall.
  destruct (create_loop_spec env count 0%nat [main_create_task 0]
              ltac:(simpl; lia)) as (n & Hn & Hok & Hfail & Hall).
  exists n. split; [exact Hn |].
  split; [intros j Hj; apply Hok; lia |].
  unfold start_and_join. rewrite Htask. simpl (0 =? 0).
  cbn iota. change (Z.of_nat 0) with 0 in *. simpl (0 + n)%nat in *.
  split.
  - intros Hlt. destruct (Hfail Hlt) as (Hne & E).
    split; [exact Hne |]. rewrite E.
    destruct (Z.eqb_spec (create_cpu_ret env n) 0) as [Hbad | _];
      [contradiction |].
    replace (SizeT.sub (Z.of_nat n + 1) 1) with (Z.of_nat n).
    2:{ unfold SizeT.sub. rewrite SizeT_wrap_small; [lia |].
        unfold SizeT.in_range. lia. }
    rewrite Nat2Z.id, join_loop_spec.
    assert (Hfirst : first_nonzero
                       (create_cpu_ret env n
                        :: map (cpu_retval env) (seq 0 n))
                     = create_cpu_ret env n).
    { simpl. destruct (Z.eqb_spec (create_cpu_ret env n) 0);
        [contradiction | reflexivity]. }
    rewrite Hfirst.
    destruct (Z.eqb_spec (create_cpu_ret env n) 0) as [Hbad | _];
      [contradiction |].
    unfold started, joined. f_equal. simpl. rewrite <- !app_assoc.
    reflexivity.
  - intros Heq. rewrite (Hall Heq). simpl (0 =? 0). cbn iota.
    rewrite Nat2Z.id, join_loop_spec.
    f_equal.
    + rewrite first_nonzero_app. simpl.
      destruct (first_nonzero (map (cpu_retval env) (seq 0 n)) =? 0) eqn:E.
      * destruct (task_retval env =? 0) eqn:E2; [| reflexivity].
        apply Z.eqb_eq in E2. congruence.
      * reflexivity.
    + unfold started, joined. simpl. rewrite <- !app_assoc. reflexivity.
Qed.

Lemma main_joins_started_threads_witness :
  create_task_ret second_cpu_fails = 0
  /\ Z.of_nat CPU_COUNT < SizeT.modulus
  /\ exists n,
       (n <= CPU_COUNT)%nat
       /\ (forall j, (j < n)%nat -> create_cpu_ret second_cpu_fails j = 0)
       /\ ((n < CPU_COUNT)%nat ->
           create_cpu_ret second_cpu_fails n <> 0
           /\ start_and_join second_cpu_fails CPU_COUNT
              = (create_cpu_ret second_cpu_fails n,
                 [main_create_task 0] ++ started n
                 ++ [main_create_cpu (Z.of_nat n)
                       (create_cpu_ret second_cpu_fails n);
                     main_close; main_join_task]
                 ++ joined n))
       /\ (n = CPU_COUNT ->
           start_and_join second_cpu_fails CPU_COUNT
           = (first_nonzero (map (cpu_retval second_cpu_fails) (seq 0 n)
                             ++ [task_retval second_cpu_fails]),
              [main_create_task 0] ++ started n ++ [main_join_task]
              ++ joined n)).
Proof.
  assert (Hsmall : Z.of_nat CPU_COUNT < SizeT.modulus).
  { rewrite SizeT_modulus_eq. simpl. lia. }
  split; [reflexivity |]. split; [exact Hsmall |].
  exact (main_joins_started_threads second_cpu_fails CPU_COUNT
           eq_refl Hsmall).
Defined.
